(** * Verification of the search engines of the AI-for-Games coursework

    Shallow embedding of
    - [Assignment 09 (Adversarial Search)/functions.h]: the Tic-Tac-Toe
      [Grid], the game-tree node [Move], [minimax] and
      [alpha_beta_pruning_all_branches];
    - [Assignment 08 (Backtracking)/functions.h]: the Sudoku functors and the
      [Backtracking] template;
    - [Assignment 01 (Tree)/functions.h]: serialization of [Node<T>].

    C++ [int] values are [Z]: scores are only compared, Sudoku values are
    only incremented up to 9, and the one narrowing conversion (a size cast
    to [int]) has its wrap-around written out.  [char] is [ascii].  Arrays
    are lists read with [nth] and written with stdpp's [<[i:=x]>]; objects
    that are referred to from several places live in a store. *)

From Stdlib Require Import ZArith List Bool Ascii String Lia.
From Stdlib Require Import DecimalString DecimalNat Sorted.
From stdpp Require Import base list gmap.
Import ListNotations.

Local Open Scope Z_scope.

#[local] Set Warnings "-register-all".

(** ** Machine integers *)

Definition INT_MIN : Z := - 2 ^ 31.
Definition INT_MAX : Z := 2 ^ 31 - 1.

(** ** Assignment 09: the Tic-Tac-Toe board *)

Module Grid.

Definition width : nat := 3.
Definition height : nat := 3.

(** [char squares[width * height]] *)
Abbreviation t := (list ascii).

Definition x : ascii := "x"%char.
Definition o : ascii := "o"%char.
Definition blank : ascii := " "%char.

(** A board built by the constructor has exactly nine squares. *)
Definition wf (g : t) : Prop := length g = (width * height)%nat.

(** [squares[i]] *)
Definition sq (g : t) (i : nat) : ascii := nth i g blank.

(** [Grid(char* squares = nullptr)] with the default argument. *)
Definition empty : t := repeat blank (width * height).

(** [void set(int i, char c)] *)
Definition set (g : t) (i : nat) (c : ascii) : t := <[i:=c]> g.

(** [void clear(int i)] *)
Definition clear (g : t) (i : nat) : t := <[i:=blank]> g.

(** [std::vector<int> emptyIndices() const] *)
Definition emptyIndices (g : t) : list nat :=
  List.filter (fun i => Ascii.eqb (sq g i) blank) (seq 0 (width * height)).

(** [bool winning(char player)]: rows, columns, main diagonal,
    anti-diagonal, in that order. *)
Definition holds (g : t) (i : nat) (player : ascii) : bool :=
  Ascii.eqb (sq g i) player.

Definition winning (g : t) (player : ascii) : bool :=
  existsb (fun row => holds g (row * width) player
                      && holds g (row * width + 1) player
                      && holds g (row * width + 2) player) (seq 0 height)
  || existsb (fun col => holds g col player
                         && holds g (col + width) player
                         && holds g (col + 2 * width) player) (seq 0 width)
  || (holds g 0 player && holds g 4 player && holds g 8 player)
  || (holds g 2 player && holds g 4 player && holds g 6 player).

End Grid.

(** ** Assignment 09: game-tree nodes *)

(** [class Move<T>] with [T = Grid].  The vector of owned child pointers is
    the list of children. *)
Inductive Move : Type :=
  mkMove (grid : Grid.t) (score : Z) (next : list Move)
         (bestMove : Z) (spotIndex : Z).

Definition grid (m : Move) : Grid.t := let (g, _, _, _, _) := m in g.
Definition getScore (m : Move) : Z := let (_, s, _, _, _) := m in s.
Definition next (m : Move) : list Move := let (_, _, n, _, _) := m in n.
Definition bestMove (m : Move) : Z := let (_, _, _, b, _) := m in b.
Definition spotIndex (m : Move) : Z := let (_, _, _, _, s) := m in s.

(** The constructor [Move(grid, score, next, bestMove)]: [spotIndex] starts
    at -1. *)
Definition newMove (g : Grid.t) (s : Z) (n : list Move) (b : Z) : Move :=
  mkMove g s n b (-1).

(** [void setSpotIndex(int i)] *)
Definition setSpotIndex (m : Move) (i : Z) : Move :=
  let (g, s, n, b, _) := m in mkMove g s n b i.

(** ** Assignment 09: minimax *)

(** The recursion of the source is general; [fuel] bounds the number of
    nested non-terminal calls.  The terminal tests come first and need no
    fuel. *)

(** The loop of the maximizer branch.  [rec] is the recursive call
    [minimax(newGrid, minimizer, maximizer, minimizer)]. *)
Fixpoint minimax_max_loop (rec : Grid.t -> option Move)
    (g : Grid.t) (player : ascii) (spots : list nat) (idx : nat)
    (bestScore bestMoveIdx : Z) (nextMoves : list Move)
    : option (Z * Z * list Move) :=
  match spots with
  | [] => Some (bestScore, bestMoveIdx, nextMoves)
  | spot :: rest =>
      let newGrid := Grid.set g spot player in
      match rec newGrid with
      | None => None
      | Some child =>
          let child := setSpotIndex child (Z.of_nat spot) in
          let nextMoves := nextMoves ++ [child] in
          let childScore := getScore child in
          if childScore >? bestScore
          then minimax_max_loop rec g player rest (S idx)
                 childScore (Z.of_nat idx) nextMoves
          else minimax_max_loop rec g player rest (S idx)
                 bestScore bestMoveIdx nextMoves
      end
  end.

(** The loop of the minimizer branch. *)
Fixpoint minimax_min_loop (rec : Grid.t -> option Move)
    (g : Grid.t) (player : ascii) (spots : list nat) (idx : nat)
    (bestScore bestMoveIdx : Z) (nextMoves : list Move)
    : option (Z * Z * list Move) :=
  match spots with
  | [] => Some (bestScore, bestMoveIdx, nextMoves)
  | spot :: rest =>
      let newGrid := Grid.set g spot player in
      match rec newGrid with
      | None => None
      | Some child =>
          let child := setSpotIndex child (Z.of_nat spot) in
          let nextMoves := nextMoves ++ [child] in
          let childScore := getScore child in
          if childScore <? bestScore
          then minimax_min_loop rec g player rest (S idx)
                 childScore (Z.of_nat idx) nextMoves
          else minimax_min_loop rec g player rest (S idx)
                 bestScore bestMoveIdx nextMoves
      end
  end.

Definition is_nil {A} (l : list A) : bool :=
  match l with [] => true | _ => false end.

Fixpoint minimax (fuel : nat) (g : Grid.t) (player maximizer minimizer : ascii)
    : option Move :=
  if Grid.winning g maximizer then Some (newMove g 10 [] (-1))
  else if Grid.winning g minimizer then Some (newMove g (-10) [] (-1))
  else
    let empties := Grid.emptyIndices g in
    if is_nil empties then Some (newMove g 0 [] (-1))
    else
      match fuel with
      | O => None
      | S fuel' =>
          let result :=
            if Ascii.eqb player maximizer
            then minimax_max_loop
                   (fun g' => minimax fuel' g' minimizer maximizer minimizer)
                   g player empties 0 INT_MIN 0 []
            else minimax_min_loop
                   (fun g' => minimax fuel' g' maximizer maximizer minimizer)
                   g player empties 0 INT_MAX 0 []
          in
          match result with
          | None => None
          | Some (bestScore, bestMoveIdx, nextMoves) =>
              Some (newMove g bestScore nextMoves bestMoveIdx)
          end
      end.

(** ** Assignment 09: alpha-beta pruning that keeps every branch *)

(** The single loop of [alpha_beta_pruning_all_branches].  [rec g' p a b]
    is the recursive call on [newGrid] with player [p] and window
    [(a, b)]. *)
Fixpoint ab_loop (rec : Grid.t -> ascii -> Z -> Z -> option Move)
    (g : Grid.t) (player maximizer minimizer : ascii)
    (spots : list nat) (idx : nat)
    (bestScore bestMoveIdx alpha beta : Z) (pruned : bool)
    (nextMoves : list Move) : option (Z * Z * list Move) :=
  match spots with
  | [] => Some (bestScore, bestMoveIdx, nextMoves)
  | spot :: rest =>
      let newGrid := Grid.set g spot player in
      if negb pruned then
        if Ascii.eqb player maximizer then
          match rec newGrid minimizer alpha beta with
          | None => None
          | Some child =>
              let childScore := getScore child in
              let '(bestScore, bestMoveIdx) :=
                if childScore >? bestScore
                then (childScore, Z.of_nat idx)
                else (bestScore, bestMoveIdx) in
              let alpha := Z.max alpha bestScore in
              let pruned := alpha >=? beta in
              ab_loop rec g player maximizer minimizer rest (S idx)
                bestScore bestMoveIdx alpha beta pruned
                (nextMoves ++ [setSpotIndex child (Z.of_nat spot)])
          end
        else
          match rec newGrid maximizer alpha beta with
          | None => None
          | Some child =>
              let childScore := getScore child in
              let '(bestScore, bestMoveIdx) :=
                if childScore <? bestScore
                then (childScore, Z.of_nat idx)
                else (bestScore, bestMoveIdx) in
              let beta := Z.min beta bestScore in
              let pruned := beta <=? alpha in
              ab_loop rec g player maximizer minimizer rest (S idx)
                bestScore bestMoveIdx alpha beta pruned
                (nextMoves ++ [setSpotIndex child (Z.of_nat spot)])
          end
      else
        (* [pruned && !child]: a dummy node stands for the pruned branch *)
        let prunedScore := if Ascii.eqb player maximizer then alpha else beta in
        let child := newMove newGrid prunedScore [] (-1) in
        ab_loop rec g player maximizer minimizer rest (S idx)
          bestScore bestMoveIdx alpha beta pruned
          (nextMoves ++ [setSpotIndex child (Z.of_nat spot)])
  end.

Fixpoint alpha_beta_pruning_all_branches (fuel : nat) (g : Grid.t)
    (player maximizer minimizer : ascii) (alpha beta : Z) : option Move :=
  if Grid.winning g maximizer then Some (newMove g 10 [] (-1))
  else if Grid.winning g minimizer then Some (newMove g (-10) [] (-1))
  else
    let empties := Grid.emptyIndices g in
    if is_nil empties then Some (newMove g 0 [] (-1))
    else
      match fuel with
      | O => None
      | S fuel' =>
          let bestScore := if Ascii.eqb player maximizer then INT_MIN else INT_MAX in
          match ab_loop
                  (fun g' p a b =>
                     alpha_beta_pruning_all_branches fuel' g' p maximizer minimizer a b)
                  g player maximizer minimizer empties 0
                  bestScore 0 alpha beta false []
          with
          | None => None
          | Some (bestScore, bestMoveIdx, nextMoves) =>
              Some (newMove g bestScore nextMoves bestMoveIdx)
          end
      end.

(** ** Assignment 08: Sudoku maps and locations *)

(** [data.h] of this assignment is not part of the sources.  What the
    functors use of it is reconstructed below: a map is its [base] array
    ([size], or [width] and [height], are carried alongside), and a location
    is a base pointer with an index. *)

(** Modelled from the spec: [AI::Location<>] of the absent [data.h].  A
    location is "an opaque reference to the owning map plus a linear index";
    the not-found sentinel [Location{ nullptr, 0 }] has the null base.
    [has_base] is [true] for [map->base] and [false] for [nullptr]. *)
Record Location : Type := mkLocation { has_base : bool; index : nat }.

Definition notFound (loc : Location) : bool := negb (has_base loc).
Definition getIndex (loc : Location) : nat := index loc.

(** Modelled from the spec: [Location::clearValue] of the absent [data.h],
    "clear that cell's value": the cell becomes empty (0). *)
Definition clearValue (base : list Z) (loc : Location) : list Z :=
  <[index loc := 0]> base.

(** [map->base[i]] *)
Definition cell (base : list Z) (i : nat) : Z := nth i base 0.

(** ** Assignment 08: the location functors *)

(** The result of scanning [order] for the first empty cell. *)
Definition first_empty (base : list Z) (order : list nat) : Location :=
  match List.find (fun i => cell base i =? 0) order with
  | Some i => mkLocation true i
  | None => mkLocation false 0
  end.

(** [NextLocation_Sudoku1D::operator()]: [for (i = 0; i < map->size; ++i)]. *)
Definition NextLocation_Sudoku1D (size : nat) (base : list Z) : Location :=
  first_empty base (seq 0 size).

(** The indices [j * width + i] in the order of the two nested loops. *)
Definition row_major (width height : nat) : list nat :=
  flat_map (fun j => List.map (fun i => (j * width + i)%nat) (seq 0 width))
           (seq 0 height).

(** [NextLocation_Sudoku2D::operator()] *)
Definition NextLocation_Sudoku2D (width height : nat) (base : list Z) : Location :=
  first_empty base (row_major width height).

(** ** Assignment 08: the candidate functors *)

(** The loop [for (val = map->base[index] + 1; val <= 9; ++val)] shared by
    both functors: [exists_ val] is the value of the flag [exists] after the
    constraint scans; [steps] counts the remaining iterations.  The result is
    the first [val] that does not exist, if any. *)
Fixpoint val_loop (exists_ : Z -> bool) (steps : nat) (val : Z) : option Z :=
  match steps with
  | O => None
  | S steps' =>
      if exists_ val then val_loop exists_ steps' (val + 1) else Some val
  end.

(** The tail of both functors: assign the candidate and return it, or reset
    the cell and return 0. *)
Definition assign (base : list Z) (index : nat) (found : option Z)
    : Z * list Z :=
  match found with
  | Some val => (val, <[index := val]> base)
  | None => (0, <[index := 0]> base)
  end.

(** The scan [for (i = 0; i < map->size; ++i) if (map->base[i] == val)]. *)
Definition exists1D (size : nat) (base : list Z) (val : Z) : bool :=
  existsb (fun i => cell base i =? val) (seq 0 size).

(** [NextCandidate_Sudoku1D::operator()]: the returned value and the map
    after the call. *)
Definition NextCandidate_Sudoku1D (size : nat) (base : list Z)
    (location : Location) : Z * list Z :=
  let index := getIndex location in
  assign base index
    (val_loop (exists1D size base) (Z.to_nat (9 - cell base index))
              (cell base index + 1)).

(** The three scans of the 2-D functor: row, column, 3x3 box.  A cell is
    read with [cell], which gives 0 outside the array.  The row and column
    scans stay inside a map of [width * height] cells; the box scan does so
    when the box lies inside the map, as on the 9x9 map.  On other sizes the
    source indexes past the array, and the embedding does not speak for it
    there. *)
Definition exists_row (width : nat) (base : list Z) (row : nat) (val : Z) : bool :=
  existsb (fun i => cell base (row * width + i) =? val) (seq 0 width).

Definition exists_col (width height : nat) (base : list Z) (col : nat) (val : Z)
    : bool :=
  existsb (fun j => cell base (j * width + col) =? val) (seq 0 height).

Definition exists_box (width : nat) (base : list Z) (row col : nat) (val : Z)
    : bool :=
  let box_row := (row / 3 * 3)%nat in
  let box_col := (col / 3 * 3)%nat in
  existsb (fun j =>
             existsb (fun i =>
                        cell base ((box_row + j) * width + (box_col + i)) =? val)
                     (seq 0 3))
          (seq 0 3).

Definition exists2D (width height : nat) (base : list Z) (index : nat) (val : Z)
    : bool :=
  let row := (index / width)%nat in
  let col := (index mod width)%nat in
  exists_row width base row val
  || exists_col width height base col val
  || exists_box width base row col val.

(** [NextCandidate_Sudoku2D::operator()] *)
Definition NextCandidate_Sudoku2D (width height : nat) (base : list Z)
    (location : Location) : Z * list Z :=
  let index := getIndex location in
  assign base index
    (val_loop (exists2D width height base index)
              (Z.to_nat (9 - cell base index)) (cell base index + 1)).

(** ** Assignment 08: the backtracking template *)

Section Backtracking.

(** The template parameters [NL] and [NC], already bound to the map they
    were constructed with: [next_location] reads the map, and
    [next_candidate] returns its value together with the updated map. *)
Variable next_location : list Z -> Location.
Variable next_candidate : list Z -> Location -> Z * list Z.

(** The solver's state: the map it mutates and its [std::stack], top
    first. *)
Record Solver : Type := mkSolver { map_base : list Z; stack : list Location }.

(** The second half of [solve], entered with a non-empty stack whose top is
    [current]. *)
Definition solve_top (base : list Z) (current : Location)
    (below : list Location) : bool * Solver :=
  let '(val, base) := next_candidate base current in
  if val =? 0 then
    (* undo current, backtrack *)
    (true, mkSolver (clearValue base current) below)
  else
    let next := next_location base in
    if notFound next
    then (false, mkSolver base (current :: below))      (* puzzle complete *)
    else (true, mkSolver base (next :: current :: below)). (* explore next *)

(** [bool solve()] *)
Definition solve (s : Solver) : bool * Solver :=
  match stack s with
  | [] =>
      let loc := next_location (map_base s) in
      if notFound loc then (false, s)                    (* nothing to solve *)
      else solve_top (map_base s) loc []
  | current :: below => solve_top (map_base s) current below
  end.

(** [void run() { while (solve()); }]: [None] when [fuel] steps were not
    enough for [solve] to return false. *)
Fixpoint run (fuel : nat) (s : Solver) : option Solver :=
  match fuel with
  | O => None
  | S fuel' =>
      let '(again, s') := solve s in
      if again then run fuel' s' else Some s'
  end.

End Backtracking.

(** The two instantiations used by the assignment, on a map whose array is
    [base]; the solver starts with an empty stack. *)
Definition Backtracking1D (fuel : nat) (base : list Z) : option Solver :=
  run (NextLocation_Sudoku1D (length base))
      (NextCandidate_Sudoku1D (length base)) fuel (mkSolver base []).

Definition Backtracking2D (width height fuel : nat) (base : list Z)
    : option Solver :=
  run (NextLocation_Sudoku2D width height)
      (NextCandidate_Sudoku2D width height) fuel (mkSolver base []).

(** ** Assignment 01: streams *)

(** A [std::istream] over a fixed text: the characters not yet consumed and
    the fail state.  Once [fail] is set every formatted extraction is a
    no-op. *)
Record istream : Type := mkIstream { buf : list ascii; fail : bool }.

(** [std::isspace] in the classic locale. *)
Definition isspace (c : ascii) : bool :=
  let n := nat_of_ascii c in
  ((9 <=? n)%nat && (n <=? 13)%nat) || (n =? 32)%nat.

Definition isdigit (c : ascii) : bool :=
  let n := nat_of_ascii c in (48 <=? n)%nat && (n <=? 57)%nat.

Fixpoint skipws (b : list ascii) : list ascii :=
  match b with
  | c :: b' => if isspace c then skipws b' else b
  | [] => []
  end.

(** The longest prefix whose characters satisfy [p], and the rest. *)
Fixpoint span (p : ascii -> bool) (b : list ascii) : list ascii * list ascii :=
  match b with
  | c :: b' =>
      if p c then let '(tok, rest) := span p b' in (c :: tok, rest)
      else ([], b)
  | [] => ([], [])
  end.

(** [in >> s] for a [std::string]: skip white space, then take characters up
    to the next white space.  [None]: nothing was extracted and the target
    keeps its value. *)
Definition read_string (ins : istream) : istream * option (list ascii) :=
  if fail ins then (ins, None)
  else
    match skipws (buf ins) with
    | [] => (mkIstream [] true, None)
    | b =>
        let '(tok, rest) := span (fun c => negb (isspace c)) b in
        (mkIstream rest false, Some tok)
    end.

(** [in >> ch] for a [char]; [ch] keeps its old value on failure. *)
Definition read_char (ins : istream) (ch : ascii) : istream * ascii :=
  if fail ins then (ins, ch)
  else
    match skipws (buf ins) with
    | [] => (mkIstream [] true, ch)
    | c :: rest => (mkIstream rest false, c)
    end.

Definition digit_value (c : ascii) : Z := Z.of_nat (nat_of_ascii c) - 48.

Definition digits_value (ds : list ascii) : Z :=
  fold_left (fun acc c => acc * 10 + digit_value c) ds 0.

(** [in >> n] for an [int]: skip white space, an optional sign, decimal
    digits.  Without digits the result is 0 and the stream fails; out of
    range the result is clamped and the stream fails; when the stream had
    failed before, [n] keeps its old value. *)
Definition read_int (ins : istream) (n : Z) : istream * Z :=
  if fail ins then (ins, n)
  else
    match skipws (buf ins) with
    | [] => (mkIstream [] true, n)
    | c :: b' =>
        let '(negative, b1) :=
          if Ascii.eqb c "-" then (true, b')
          else if Ascii.eqb c "+" then (false, b')
          else (false, c :: b') in
        let '(ds, rest) := span isdigit b1 in
        if is_nil ds then (mkIstream rest true, 0)
        else
          let v := if negative : bool then - digits_value ds else digits_value ds in
          if v >? INT_MAX then (mkIstream rest true, INT_MAX)
          else if v <? INT_MIN then (mkIstream rest true, INT_MIN)
          else (mkIstream rest false, v)
    end.

(** [os << n] for a [std::size_t]: the decimal digits. *)
Definition write_size (n : nat) : list ascii :=
  list_ascii_of_string (NilEmpty.string_of_uint (Nat.to_uint n)).

(** ** Assignment 01: tree nodes and their text form *)

(** [struct Node<T>] with [T = std::string].  [children] is the ordered list
    of owned children; the [parent] pointer of a child is the node that
    lists it, so it is not stored again. *)
Inductive Node : Type := mkNode (value : list ascii) (children : list Node).

Definition value (n : Node) : list ascii := let (v, _) := n in v.
Definition children (n : Node) : list Node := let (_, c) := n in c.

(** [operator<<(std::ostream&, const Node<T>&)]: the text appended to the
    stream. *)
Fixpoint write_Node (rhs : Node) : list ascii :=
  match rhs with
  | mkNode v cs =>
      v ++ [" "; "{"]%char ++ write_size (length cs) ++ [" "%char]
        ++ concat (List.map write_Node cs) ++ ["}"; " "]%char
  end.

Section Deserialize.

(** The local [char ch] is read without having been initialised when the
    extraction fails; [ch0] is whatever it holds then. *)
Variable ch0 : ascii.

(** The loop [for (i = 0; i < numChildren; ++i)]; [rec] reads one child
    into a fresh [Node<T>()].  Every [new] is taken to succeed: running out
    of memory is not modelled. *)
Fixpoint read_children (rec : istream -> list ascii -> option (istream * Node))
    (count : nat) (ins : istream) (acc : list Node)
    : option (istream * list Node) :=
  match count with
  | O => Some (ins, acc)
  | S count' =>
      match rec ins [] with
      | None => None
      | Some (ins', child) => read_children rec count' ins' (acc ++ [child])
      end
  end.

(** [operator>>(std::istream&, Node<T>&)]; [rhs_value] is the value the
    node holds on entry, [fuel] bounds the nesting of calls. *)
Fixpoint read_Node (fuel : nat) (ins : istream) (rhs_value : list ascii)
    : option (istream * Node) :=
  match fuel with
  | O => None
  | S fuel' =>
      let '(ins, v) := read_string ins in
      let value := match v with Some tok => tok | None => rhs_value end in
      let '(ins, ch) := read_char ins ch0 in
      if negb (Ascii.eqb ch "{") then Some (ins, mkNode value [])
      else
        let '(ins, numChildren) := read_int ins 0 in
        match read_children (read_Node fuel') (Z.to_nat numChildren) ins [] with
        | None => None
        | Some (ins, cs) =>
            let '(ins, _) := read_char ins ch in
            Some (ins, mkNode value cs)
        end
  end.

(** Reading a whole text into a default-constructed node.  A nested call
    is made only after a brace was consumed, so the length of the text is
    fuel enough. *)
Definition deserialize (text : list ascii) : option Node :=
  option_map snd (read_Node (S (length text)) (mkIstream text false) []).

End Deserialize.

Definition chars (s : string) : list ascii := list_ascii_of_string s.

(** ** Assignment 09: [Move] objects in memory

    [Move::at] returns a reference, and two of its results may be the same
    object.  To speak about that, nodes live in a store: every [new Move] has
    a dynamic address, and the function-local [static Move dummy] of [at] has
    an address of its own that no allocation returns. *)

Module Store.

Inductive addr : Type :=
| Dummy                (* the storage of [static Move dummy] *)
| Dyn (n : nat).       (* an object created by [new] *)

(** The members of [Move<Grid>]; [next] holds the addresses of the
    children. *)
Record obj : Type := mkObj {
  o_grid : Grid.t;
  o_score : Z;
  o_next : list addr;
  o_bestMove : Z;
  o_spotIndex : Z;
}.

(** [Move()] with all default arguments. *)
Definition default_obj : obj := mkObj Grid.empty 0 [] (-1) (-1).

(** The store: the dynamic objects, and the static dummy once its
    declaration has been reached for the first time. *)
Record t : Type := mkStore { dyn : gmap nat obj; dummy : option obj }.

Definition lookup (h : t) (a : addr) : option obj :=
  match a with
  | Dummy => dummy h
  | Dyn n => dyn h !! n
  end.

(** [static_cast<int>] of a size. *)
Definition to_int (z : Z) : Z := (z + 2 ^ 31) mod 2 ^ 32 - 2 ^ 31.

(** Reaching [static Move dummy;]: constructed on the first pass only. *)
Definition reach_dummy (h : t) : t :=
  match dummy h with
  | Some _ => h
  | None => mkStore (dyn h) (Some default_obj)
  end.

(** [Move& at(int i)] called on the object at [this]: the store afterwards
    and the address referred to.  [None] when [this] is no object. *)
Definition at_ (h : t) (this : addr) (i : Z) : option (t * addr) :=
  match lookup h this with
  | None => None
  | Some m =>
      if (0 <=? i) && (i <? to_int (Z.of_nat (length (o_next m))))
      then match o_next m !! Z.to_nat i with
           | Some child => Some (h, child)
           | None => None
           end
      else Some (reach_dummy h, Dummy)
  end.

(** Writing the object at [a] back. *)
Definition update (h : t) (a : addr) (m : obj) : t :=
  match a with
  | Dummy => mkStore (dyn h) (Some m)
  | Dyn n => mkStore (<[n := m]> (dyn h)) (dummy h)
  end.

(** [void setSpotIndex(int i)] on the object at [this]. *)
Definition setSpotIndex (h : t) (this : addr) (i : Z) : option t :=
  match lookup h this with
  | None => None
  | Some m =>
      Some (update h this
              (mkObj (o_grid m) (o_score m) (o_next m) (o_bestMove m) i))
  end.

(** The dummy, once constructed, still has the members its constructor
    gave it, [spotIndex] apart (the one member with a setter). *)
Definition dummy_intact (h : t) : Prop :=
  forall d, dummy h = Some d ->
    o_score d = 0 /\ o_next d = [] /\ o_bestMove d = -1.

End Store.

(** ** Assignment 09: printing a board *)

(** [std::endl] writes a line feed. *)
Definition endl : ascii := "010"%char.

(** [operator<<(std::ostream&, const Grid&)]: the text written.  Every square
    is followed by a comma, the last one apart; the first row opens with a
    bracket, the others with a blank; the last row closes the bracket, the
    others end the line. *)
Definition print_Grid (g : Grid.t) : list ascii :=
  flat_map
    (fun row =>
       [if Nat.eqb row 0 then "["%char else " "%char]
       ++ flat_map
            (fun col =>
               Grid.sq g (row * Grid.width + col)
               :: (if Nat.eqb row (Grid.height - 1) && Nat.eqb col (Grid.width - 1)
                   then [] else [","%char]))
            (seq 0 Grid.width)
       ++ [if Nat.ltb row (Grid.height - 1) then endl else "]"%char])
    (seq 0 Grid.height).

(** ** Assignment 01: searching a tree *)

(** [current->value == lookingfor] for [T = std::string]. *)
Definition value_eqb (a b : list ascii) : bool :=
  if List.list_eq_dec ascii_dec a b then true else false.

(** The loop of [BFS]: [q] is the [std::queue], front first; a child is
    pushed at the back.  The outer [option] is [None] when [fuel] iterations
    were not enough; [Some None] is [nullptr]. *)
Fixpoint BFS_loop (fuel : nat) (q : list Node) (lookingfor : list ascii)
    : option (option Node) :=
  match q with
  | [] => Some None
  | current :: q' =>
      match fuel with
      | O => None
      | S fuel' =>
          if value_eqb (value current) lookingfor then Some (Some current)
          else BFS_loop fuel' (q' ++ children current) lookingfor
      end
  end.

(** [Node<T>* BFS(Node<T>& node, const T& lookingfor)]; the node found stands
    for the pointer to it. *)
Definition BFS (fuel : nat) (node : Node) (lookingfor : list ascii)
    : option (option Node) :=
  BFS_loop fuel [node] lookingfor.

(** The loop of [DFS]: [s] is the [std::stack], top first; the children are
    pushed in order, so the last child ends on top. *)
Fixpoint DFS_loop (fuel : nat) (s : list Node) (lookingfor : list ascii)
    : option (option Node) :=
  match s with
  | [] => Some None
  | current :: s' =>
      match fuel with
      | O => None
      | S fuel' =>
          if value_eqb (value current) lookingfor then Some (Some current)
          else DFS_loop fuel' (rev (children current) ++ s') lookingfor
      end
  end.

(** [Node<T>* DFS(Node<T>& node, const T& lookingfor)] *)
Definition DFS (fuel : nat) (node : Node) (lookingfor : list ascii)
    : option (option Node) :=
  DFS_loop fuel [node] lookingfor.

(** * Vocabulary of the properties *)

(** ** Game-tree search *)

(** The three terminal tests, shared by both searches. *)
Definition terminal (g : Grid.t) (mx mn : ascii) : option Z :=
  if Grid.winning g mx then Some 10
  else if Grid.winning g mn then Some (-10)
  else if is_nil (Grid.emptyIndices g) then Some 0
  else None.

(** The extremum of a list of child scores, and the first position of a
    score in it. *)
Definition attains_max (v : Z) (l : list Z) : Prop :=
  In v l /\ Forall (fun s => s <= v) l.

Definition attains_min (v : Z) (l : list Z) : Prop :=
  In v l /\ Forall (fun s => v <= s) l.

Definition first_index_of (v : Z) (l : list Z) (i : Z) : Prop :=
  exists n, i = Z.of_nat n /\ nth_error l n = Some v /\
            forall j, (j < n)%nat -> nth_error l j <> Some v.

(** A child of [g] for the move at [spot] by [player], produced by [rec]. *)
Definition child_of (rec : Grid.t -> option Move) (g : Grid.t) (player : ascii)
    (spot : nat) (c : Move) : Prop :=
  exists c0, rec (Grid.set g spot player) = Some c0
             /\ c = setSpotIndex c0 (Z.of_nat spot).

(** Every score the searches produce is one of the three utilities. *)
Definition utility (s : Z) : Prop := s = -10 \/ s = 0 \/ s = 10.

(** The player of the recursive calls. *)
Definition opponent (player maximizer minimizer : ascii) : ascii :=
  if Ascii.eqb player maximizer then minimizer else maximizer.

(** Plies that the search may still go down from [g] with [p] to move: one
    per empty cell, and one more when [p] is the empty mark (whose move
    changes nothing, while every later move is made by a real player). *)
Definition plies (g : Grid.t) (p : ascii) : nat :=
  (length (Grid.emptyIndices g) + (if Ascii.eqb p Grid.blank then 1 else 0))%nat.

(** The node a search with [fuel] builds at the non-terminal state [g] with
    [p] to move, as the specification words it: one child per legal move in
    enumeration order, each the search result for the board after that move;
    the score is the extremum of the children's scores; [bestMove] is the
    first index where a child has that score. *)
Definition inner_node (fuel : nat) (g : Grid.t) (p mx mn : ascii) (t : Move)
    : Prop :=
  Forall2 (fun spot c =>
             child_of (fun g' => minimax (pred fuel) g' (opponent p mx mn) mx mn)
                      g p spot c
             /\ spotIndex c = Z.of_nat spot
             /\ grid c = Grid.set g spot p)
          (Grid.emptyIndices g) (next t)
  /\ (if Ascii.eqb p mx
      then attains_max (getScore t) (List.map getScore (next t))
      else attains_min (getScore t) (List.map getScore (next t)))
  /\ first_index_of (getScore t) (List.map getScore (next t)) (bestMove t).

(** How the score [v] of a search with window [(a, b)] relates to the
    minimax value [m]: exact inside the window, a bound outside. *)
Definition bracket (a b m v : Z) : Prop :=
  (v <= a -> m <= v) /\ (b <= v -> v <= m) /\ (a < v < b -> m = v).

(** The state of the pruned loop against the state of the full loop on a
    maximizer ply: [a0] is the window's lower end on entry. *)
Definition max_inv (a0 b bestM bestV a : Z) (pruned : bool) : Prop :=
  a = Z.max a0 bestV /\
  if pruned then b <= bestV /\ bestV <= bestM
  else a < b /\ bestM <= bestV /\ (a0 < bestV -> bestM = bestV).

(** The same on a minimizer ply: [b0] is the window's upper end on entry. *)
Definition min_inv (a b0 bestM bestV b : Z) (pruned : bool) : Prop :=
  b = Z.min b0 bestV /\
  if pruned then bestV <= a /\ bestM <= bestV
  else a < b /\ bestV <= bestM /\ (bestV < b0 -> bestM = bestV).

(** [expanded g p a b t]: [t] is a node that the pruned search expanded for
    the state [g] with [p] to move under the window [(a, b)].  A terminal
    state gives a childless node.  Otherwise [attached] walks the legal moves
    and the children side by side, carrying the current bounds: while
    [a < b] the child is itself an expanded node of the opponent under the
    current window, and its score improves [a] on a maximizer ply and [b] on
    a minimizer ply; once [b <= a] the child is a childless placeholder
    whose score is the current [a] (maximizer ply) or [b] (minimizer ply). *)
Inductive expanded (mx mn : ascii)
    : Grid.t -> ascii -> Z -> Z -> Move -> Prop :=
| expanded_terminal g p a b t s :
    terminal g mx mn = Some s ->
    grid t = g -> getScore t = s -> next t = [] ->
    expanded mx mn g p a b t
| expanded_inner g p a b t :
    terminal g mx mn = None ->
    grid t = g ->
    attached mx mn g p a b (Grid.emptyIndices g) (next t) ->
    expanded mx mn g p a b t
with attached (mx mn : ascii)
    : Grid.t -> ascii -> Z -> Z -> list nat -> list Move -> Prop :=
| attached_nil g p a b : attached mx mn g p a b [] []
| attached_searched g p a b spot rest c kids :
    a < b ->
    spotIndex c = Z.of_nat spot ->
    expanded mx mn (Grid.set g spot p) (opponent p mx mn) a b c ->
    attached mx mn g p
      (if Ascii.eqb p mx then Z.max a (getScore c) else a)
      (if Ascii.eqb p mx then b else Z.min b (getScore c))
      rest kids ->
    attached mx mn g p a b (spot :: rest) (c :: kids)
| attached_placeholder g p a b spot rest c kids :
    b <= a ->
    spotIndex c = Z.of_nat spot ->
    grid c = Grid.set g spot p ->
    next c = [] ->
    getScore c = (if Ascii.eqb p mx then a else b) ->
    attached mx mn g p a b rest kids ->
    attached mx mn g p a b (spot :: rest) (c :: kids).

(** ** Sudoku constraints *)

(** Row, column and 3x3 box of a cell of the 9x9 grid, row-major. *)
Definition row_of (i : nat) : nat := (i / 9)%nat.
Definition col_of (i : nat) : nat := (i mod 9)%nat.

(** Two cells see each other when they share a row, a column or a box. *)
Definition sees2D (i j : nat) : Prop :=
  row_of i = row_of j \/ col_of i = col_of j
  \/ ((row_of i / 3)%nat = (row_of j / 3)%nat
      /\ (col_of i / 3)%nat = (col_of j / 3)%nat).

Definition sees2Db (i j : nat) : bool :=
  Nat.eqb (row_of i) (row_of j) || Nat.eqb (col_of i) (col_of j)
  || (Nat.eqb (row_of i / 3) (row_of j / 3)
      && Nat.eqb (col_of i / 3) (col_of j / 3)).

(** In the 1-D puzzle every cell sees every other one. *)
Definition sees1D (i j : nat) : Prop := True.

(** [w] is absent from the whole array. *)
Definition absent1D (base : list Z) (w : Z) : Prop :=
  forall j, (j < length base)%nat -> cell base j <> w.

(** [w] is absent from the row, the column and the box of [index]. *)
Definition absent2D (base : list Z) (index : nat) (w : Z) : Prop :=
  forall j, (j < 81)%nat -> sees2D index j -> cell base j <> w.

(** [r] is the smallest value above [v], up to 9, that is [absent]. *)
Definition least_candidate (absent : Z -> Prop) (v r : Z) : Prop :=
  v < r <= 9 /\ absent r /\ forall w, v < w < r -> ~ absent w.

Definition no_candidate (absent : Z -> Prop) (v : Z) : Prop :=
  forall w, v < w <= 9 -> ~ absent w.

(** What the candidate functor must do at [index], where the cell holds
    [v]: return the least candidate and write it, or return 0 and empty the
    cell. *)
Definition candidate_spec (absent : Z -> Prop) (base : list Z) (index : nat)
    (result : Z * list Z) : Prop :=
  let v := cell base index in
  (least_candidate absent v (fst result) /\ snd result = <[index := fst result]> base)
  \/ (no_candidate absent v /\ fst result = 0 /\ snd result = <[index := 0]> base).

(** The cells read by the three scans of the 2-D functor on the 9x9 grid. *)
Definition scan2D (index : nat) : list nat :=
  let row := (index / 9)%nat in
  let col := (index mod 9)%nat in
  List.map (fun i => (row * 9 + i)%nat) (seq 0 9)
  ++ List.map (fun j => (j * 9 + col)%nat) (seq 0 9)
  ++ flat_map (fun j => List.map (fun i => ((row / 3 * 3 + j) * 9
                                              + (col / 3 * 3 + i))%nat)
                                 (seq 0 3))
              (seq 0 3).

(** A grid whose first row is [0 1 2 3 4 5 6 7 8] and whose other cells are
    empty. *)
Definition first_row_grid : list Z :=
  [0; 1; 2; 3; 4; 5; 6; 7; 8] ++ repeat 0 72.

(** ** The backtracking search *)

(** [steps k s]: the state after [k] calls of [solve] that all returned
    true. *)
Fixpoint steps (next_location : list Z -> Location)
    (next_candidate : list Z -> Location -> Z * list Z)
    (k : nat) (s : Solver) : option Solver :=
  match k with
  | O => Some s
  | S k' =>
      let '(again, s') := solve next_location next_candidate s in
      if again then steps next_location next_candidate k' s' else None
  end.

(** Both functor pairs are instances of one scheme: cells [0 .. n-1] are
    scanned in index order for the first empty one, and a candidate is a value
    that the scan [scan base index val] does not find among the cells that
    [index] sees. *)
Definition gen_location (n : nat) (base : list Z) : Location :=
  first_empty base (seq 0 n).

Definition gen_candidate (scan : list Z -> nat -> Z -> bool) (base : list Z)
    (location : Location) : Z * list Z :=
  let index := getIndex location in
  assign base index
    (val_loop (scan base index) (Z.to_nat (9 - cell base index))
              (cell base index + 1)).

(** A finished puzzle: [n] cells, every value in 1..9, no two cells that see
    each other hold the same value. *)
Definition valid (n : nat) (sees : nat -> nat -> Prop) (m : list Z) : Prop :=
  length m = n
  /\ (forall i, (i < n)%nat -> 1 <= cell m i <= 9)
  /\ (forall i j, (i < n)%nat -> (j < n)%nat -> i <> j -> sees i j ->
        cell m i <> cell m j).

(** [m] keeps every filled cell of [base]. *)
Definition extends (n : nat) (base m : list Z) : Prop :=
  forall i, (i < n)%nat -> cell base i <> 0 -> cell m i = cell base i.

(** A map is solvable when some finished puzzle keeps its filled cells. *)
Definition solvable (n : nat) (sees : nat -> nat -> Prop) (base : list Z) : Prop :=
  exists m, valid n sees m /\ extends n base m.

(** The same, leaving the cell [t] free. *)
Definition extends_except (n t : nat) (base m : list Z) : Prop :=
  forall i, (i < n)%nat -> i <> t -> cell base i <> 0 -> cell m i = cell base i.

(** No cell is empty. *)
Definition complete (n : nat) (m : list Z) : Prop :=
  forall i, (i < n)%nat -> cell m i <> 0.

(** Every cell is empty or holds a value up to 9. *)
Definition in_range (n : nat) (m : list Z) : Prop :=
  forall i, (i < n)%nat -> 0 <= cell m i <= 9.

(** No two filled cells that see each other hold the same value. *)
Definition consistent (n : nat) (sees : nat -> nat -> Prop) (m : list Z) : Prop :=
  forall i j, (i < n)%nat -> (j < n)%nat -> i <> j -> sees i j ->
    cell m i <> 0 -> cell m i <> cell m j.

(** Empty cells other than [t]. *)
Definition zeros_except (n : nat) (base : list Z) (t : nat) : nat :=
  length (List.filter (fun i => negb (Nat.eqb i t) && (cell base i =? 0))
                      (seq 0 n)).

(** The search below the top [t] of the stack ended with a full map. *)
Definition good_final (n : nat) (sees : nat -> nat -> Prop)
    (base : list Z) (t : nat) (m : list Z) : Prop :=
  length m = n
  /\ complete n m
  /\ extends_except n t base m
  /\ cell base t < cell m t
  /\ (in_range n base -> in_range n m)
  /\ (consistent n sees (<[t := 0]> base) -> consistent n sees m).

(** No finished puzzle keeps the filled cells of [base] other than [t] and
    has a larger value at [t]. *)
Definition dead_end (n : nat) (sees : nat -> nat -> Prop)
    (base : list Z) (t : nat) : Prop :=
  forall m, valid n sees m -> extends_except n t base m ->
            cell base t < cell m t -> False.

(** A checker for finished 9x9 grids. *)
Definition valid2Db (m : list Z) : bool :=
  Nat.eqb (length m) 81
  && forallb (fun i => (1 <=? cell m i) && (cell m i <=? 9)) (seq 0 81)
  && forallb (fun i =>
                forallb (fun j => Nat.eqb i j || negb (sees2Db i j)
                                  || negb (cell m i =? cell m j))
                        (seq 0 81))
             (seq 0 81).

(** A checker for [extends]. *)
Definition extendsb (n : nat) (base m : list Z) : bool :=
  forallb (fun i => (cell base i =? 0) || (cell m i =? cell base i)) (seq 0 n).

(** A finished grid, and the same grid with thirteen cells emptied. *)
Definition solved_grid : list Z :=
  [1; 2; 3; 4; 5; 6; 7; 8; 9;
   4; 5; 6; 7; 8; 9; 1; 2; 3;
   7; 8; 9; 1; 2; 3; 4; 5; 6;
   2; 3; 4; 5; 6; 7; 8; 9; 1;
   5; 6; 7; 8; 9; 1; 2; 3; 4;
   8; 9; 1; 2; 3; 4; 5; 6; 7;
   3; 4; 5; 6; 7; 8; 9; 1; 2;
   6; 7; 8; 9; 1; 2; 3; 4; 5;
   9; 1; 2; 3; 4; 5; 6; 7; 8].

Definition puzzle_grid : list Z :=
  [0; 2; 3; 4; 0; 6; 7; 8; 9;
   4; 0; 6; 7; 8; 9; 1; 2; 3;
   7; 8; 0; 1; 2; 3; 4; 5; 6;
   0; 3; 4; 5; 6; 7; 0; 9; 1;
   5; 6; 7; 8; 0; 1; 2; 3; 4;
   8; 9; 0; 2; 3; 4; 5; 6; 0;
   3; 4; 5; 6; 7; 8; 0; 1; 2;
   6; 7; 8; 9; 1; 2; 3; 0; 5;
   9; 1; 2; 3; 0; 5; 6; 7; 0].

(** Ten cells for nine values. *)
Definition ten_cells : list Z := [1; 2; 3; 4; 5; 6; 7; 8; 9; 0].

(** A grid whose first cell has no candidate: its row holds 2..9 and its
    column holds 1. *)
Definition stuck_grid : list Z :=
  [0; 2; 3; 4; 5; 6; 7; 8; 9;
   1; 0; 0; 0; 0; 0; 0; 0; 0] ++ repeat 0 63.

(** ** Moves in the store *)

(** A root with one child, before any bad index was used. *)
Definition two_nodes : Store.t :=
  Store.mkStore
    (<[0%nat := Store.mkObj Grid.empty 0 [Store.Dyn 1] 0 (-1)]>
       (<[1%nat := Store.mkObj (Grid.set Grid.empty 0 Grid.x) 0 [] (-1) 0]> ∅))
    None.

(** ** Trees and their text *)

(** Nesting depth of a tree. *)
Fixpoint depth (t : Node) : nat :=
  match t with
  | mkNode _ cs => S (fold_right (fun c acc => Nat.max (depth c) acc) 0%nat cs)
  end.

(** Values without white space, and without braces. *)
Definition no_space (v : list ascii) : Prop :=
  Forall (fun c => isspace c = false) v.

Definition no_brace (v : list ascii) : Prop :=
  Forall (fun c => c <> "{"%char /\ c <> "}"%char) v.

(** [every P t]: [P] holds of every node of [t]. *)
Inductive every (P : Node -> Prop) : Node -> Prop :=
| every_node v cs : P (mkNode v cs) -> Forall (every P) cs -> every P (mkNode v cs).

(** The condition of the specification: no value contains a brace or white
    space. *)
Definition plain_values (t : Node) : Prop :=
  every (fun n => no_brace (value n) /\ no_space (value n)) t.

(** What the code needs on top: a value is not empty, and a child count fits
    the [int] it is read into. *)
Definition readable (t : Node) : Prop :=
  every (fun n => value n <> [] /\ no_space (value n)
                  /\ Z.of_nat (length (children n)) <= INT_MAX) t.

(** A run of white space. *)
Definition all_space (ws : list ascii) : Prop :=
  Forall (fun c => isspace c = true) ws.

(** The digits of a decimal number, as characters. *)
Definition digits_of (d : Decimal.uint) : list ascii :=
  list_ascii_of_string (NilEmpty.string_of_uint d).

(** A tree of four nodes. *)
Definition sample_tree : Node :=
  mkNode (chars "root")
    [mkNode (chars "a") [mkNode (chars "a1") []];
     mkNode (chars "b") []].

(** ** Boards *)

(** The eight lines of the board. *)
Definition lines : list (list nat) :=
  [[0; 1; 2]; [3; 4; 5]; [6; 7; 8];
   [0; 3; 6]; [1; 4; 7]; [2; 5; 8];
   [0; 4; 8]; [2; 4; 6]]%nat.

(** ** Traversals of a tree *)

(** Number of nodes of a forest. *)
Fixpoint tsize (t : Node) : nat :=
  match t with
  | mkNode _ cs => S (fold_right (fun c acc => (tsize c + acc)%nat) 0%nat cs)
  end.

Definition fsize (f : list Node) : nat :=
  fold_right (fun c acc => (tsize c + acc)%nat) 0%nat f.

(** The next level of a forest: the children of its nodes, left to right. *)
Definition kids (f : list Node) : list Node := flat_map children f.

(** The nodes of a forest level by level, each level left to right, down to
    [d] levels. *)
Fixpoint level_order (d : nat) (f : list Node) : list Node :=
  match d with
  | O => []
  | S d' => f ++ level_order d' (kids f)
  end.

(** The nodes of a tree in preorder with the children taken from the last to
    the first. *)
Fixpoint preorder_rl (t : Node) : list Node :=
  match t with
  | mkNode _ cs =>
      t :: (fix go (l : list Node) : list Node :=
              match l with
              | [] => []
              | c :: l' => go l' ++ preorder_rl c
              end) cs
  end.

(** The first node of a list that holds [v]. *)
Definition first_with (v : list ascii) (l : list Node) : option Node :=
  List.find (fun n => value_eqb (value n) v) l.

(** [n] is a node of [t]. *)
Inductive node_of : Node -> Node -> Prop :=
| node_of_here t : node_of t t
| node_of_child n c t : In c (children t) -> node_of n c -> node_of n t.

(** ** States of the backtracking search *)

(** What the location functors return on the cells [0 .. n-1]: the first
    empty cell, or the sentinel with index 0 when no cell is empty. *)
Definition first_empty_spec (n : nat) (base : list Z) (loc : Location) : Prop :=
  if notFound loc
  then index loc = 0%nat /\ forall i, (i < n)%nat -> cell base i <> 0
  else (index loc < n)%nat /\ cell base (index loc) = 0
       /\ forall j, (j < index loc)%nat -> cell base j <> 0.

(** [s] is a state of a search started on [base0]: the filled cells of
    [base0] are as they were, and the stack only holds cells that were empty
    in [base0]. *)
Definition keeps_givens (n : nat) (base0 : list Z) (s : Solver) : Prop :=
  length (map_base s) = n
  /\ (forall i, (i < n)%nat -> cell base0 i <> 0 ->
        cell (map_base s) i = cell base0 i)
  /\ Forall (fun loc => (index loc < n)%nat /\ cell base0 (index loc) = 0)
            (stack s).

(** The map of [s] obeys the rules so far. *)
Definition legal_state (n : nat) (sees : nat -> nat -> Prop) (s : Solver) : Prop :=
  length (map_base s) = n
  /\ in_range n (map_base s)
  /\ consistent n sees (map_base s).

(** ** Reading any text *)

(** Depth of calls that [operator>>] can still need on a stream: a nested
    call is made only after a brace and a count were consumed. *)
Definition need (ins : istream) : nat :=
  if fail ins then 1%nat else S (length (buf ins)).

(** Nesting depth of a forest. *)
Definition fdepth (f : list Node) : nat :=
  fold_right (fun c acc => Nat.max (depth c) acc) 0%nat f.

(** ** Order of the solutions *)

(** [m] is not after [m'] in the lexicographic order of the cells
    [0 .. n-1]. *)
Definition lex_le (n : nat) (m m' : list Z) : Prop :=
  (forall i, (i < n)%nat -> cell m i = cell m' i)
  \/ exists i, (i < n)%nat /\ cell m i < cell m' i
               /\ forall j, (j < i)%nat -> cell m j = cell m' j.

(** No cell before [t] is empty. *)
Definition prefix_full (base : list Z) (t : nat) : Prop :=
  forall j, (j < t)%nat -> cell base j <> 0.

(** [final] is not after any finished puzzle that keeps the filled cells of
    [base] other than [t] and has a larger value at [t]. *)
Definition least_from (n : nat) (sees : nat -> nat -> Prop)
    (base : list Z) (t : nat) (final : list Z) : Prop :=
  forall m, valid n sees m -> extends_except n t base m ->
            cell base t < cell m t -> lex_le n final m.

(** ** Size of a game tree *)

(** Number of nodes of a game tree. *)
Fixpoint nodes (m : Move) : nat :=
  match m with
  | mkMove _ _ n _ _ => S (fold_right (fun c acc => (nodes c + acc)%nat) 0%nat n)
  end.

Definition nodes_list (l : list Move) : nat :=
  fold_right (fun c acc => (nodes c + acc)%nat) 0%nat l.

(** The stack of [s], top first, holds cells of strictly decreasing index,
    and no cell before any of them is empty. *)
Definition stack_ordered (s : Solver) : Prop :=
  StronglySorted (fun a b => (index b < index a)%nat) (stack s)
  /\ Forall (fun l => prefix_full (map_base s) (index l)) (stack s).

(** The empty cells of a map. *)
Definition empties (n : nat) (base : list Z) : list nat :=
  List.filter (fun i => cell base i =? 0) (seq 0 n).

(** * Checks of the embedding on small inputs *)

Example sudoku1D_three :
  option_map map_base (Backtracking1D 10 [0; 0; 0]) = Some [1; 2; 3].
Proof. vm_compute. reflexivity. Qed.

Example write_two_children :
  write_Node (mkNode (chars "a") [mkNode (chars "b") []; mkNode (chars "c") []])
  = chars "a {2 b {0 } c {0 } } ".
Proof. vm_compute. reflexivity. Qed.

Example read_two_children :
  deserialize "?" (chars "a {2 b {0 } c {0 } } ")
  = Some (mkNode (chars "a") [mkNode (chars "b") []; mkNode (chars "c") []]).
Proof. vm_compute. reflexivity. Qed.

(** * Properties of the adversarial search *)

Lemma getScore_setSpotIndex m i : getScore (setSpotIndex m i) = getScore m.
Proof. destruct m; reflexivity. Qed.

Lemma next_setSpotIndex m i : next (setSpotIndex m i) = next m.
Proof. destruct m; reflexivity. Qed.

Lemma grid_setSpotIndex m i : grid (setSpotIndex m i) = grid m.
Proof. destruct m; reflexivity. Qed.

Lemma spotIndex_setSpotIndex m i : spotIndex (setSpotIndex m i) = i.
Proof. destruct m; reflexivity. Qed.

Lemma is_nil_true {A} (l : list A) : is_nil l = true <-> l = [].
Proof. destruct l; simpl; split; congruence. Qed.

Lemma minimax_terminal fuel g p mx mn s :
  terminal g mx mn = Some s ->
  minimax fuel g p mx mn = Some (newMove g s [] (-1)).
Proof.
  unfold terminal. intros H.
  destruct fuel; simpl;
    destruct (Grid.winning g mx); [congruence| |congruence|];
    destruct (Grid.winning g mn); [congruence| |congruence|];
    destruct (is_nil (Grid.emptyIndices g)); congruence.
Qed.

Lemma ab_terminal fuel g p mx mn a b s :
  terminal g mx mn = Some s ->
  alpha_beta_pruning_all_branches fuel g p mx mn a b = Some (newMove g s [] (-1)).
Proof.
  unfold terminal. intros H.
  destruct fuel; simpl;
    destruct (Grid.winning g mx); [congruence| |congruence|];
    destruct (Grid.winning g mn); [congruence| |congruence|];
    destruct (is_nil (Grid.emptyIndices g)); congruence.
Qed.

(** Unfolding one non-terminal call. *)
Lemma minimax_step fuel g p mx mn :
  terminal g mx mn = None ->
  minimax (S fuel) g p mx mn =
    match (if Ascii.eqb p mx
           then minimax_max_loop (fun g' => minimax fuel g' mn mx mn)
                  g p (Grid.emptyIndices g) 0 INT_MIN 0 []
           else minimax_min_loop (fun g' => minimax fuel g' mx mx mn)
                  g p (Grid.emptyIndices g) 0 INT_MAX 0 [])
    with
    | None => None
    | Some (bestScore, bestMoveIdx, nextMoves) =>
        Some (newMove g bestScore nextMoves bestMoveIdx)
    end.
Proof.
  unfold terminal. intros H. simpl.
  destruct (Grid.winning g mx); [congruence|].
  destruct (Grid.winning g mn); [congruence|].
  destruct (is_nil (Grid.emptyIndices g)); [congruence|]. reflexivity.
Qed.

Lemma minimax_no_fuel g p mx mn :
  terminal g mx mn = None -> minimax 0 g p mx mn = None.
Proof.
  unfold terminal. intros H. simpl.
  destruct (Grid.winning g mx); [congruence|].
  destruct (Grid.winning g mn); [congruence|].
  destruct (is_nil (Grid.emptyIndices g)); [congruence|]. reflexivity.
Qed.

Lemma ab_step fuel g p mx mn a b :
  terminal g mx mn = None ->
  alpha_beta_pruning_all_branches (S fuel) g p mx mn a b =
    match ab_loop (fun g' p' a' b' =>
                     alpha_beta_pruning_all_branches fuel g' p' mx mn a' b')
            g p mx mn (Grid.emptyIndices g) 0
            (if Ascii.eqb p mx then INT_MIN else INT_MAX) 0 a b false []
    with
    | None => None
    | Some (bestScore, bestMoveIdx, nextMoves) =>
        Some (newMove g bestScore nextMoves bestMoveIdx)
    end.
Proof.
  unfold terminal. intros H. simpl.
  destruct (Grid.winning g mx); [congruence|].
  destruct (Grid.winning g mn); [congruence|].
  destruct (is_nil (Grid.emptyIndices g)); [congruence|]. reflexivity.
Qed.

(** C4: if the maximizer has a winning configuration minimax returns a
    childless node of score +10; otherwise, if the minimizer has one, a
    childless node of score -10; otherwise, if no cell is empty, a childless
    node of score 0.  No fuel is needed for any of the three. *)
Theorem minimax_terminal_nodes fuel g p mx mn :
  (Grid.winning g mx = true ->
   exists t, minimax fuel g p mx mn = Some t /\ getScore t = 10 /\ next t = [])
  /\ (Grid.winning g mx = false -> Grid.winning g mn = true ->
      exists t, minimax fuel g p mx mn = Some t /\ getScore t = -10 /\ next t = [])
  /\ (Grid.winning g mx = false -> Grid.winning g mn = false ->
      Grid.emptyIndices g = [] ->
      exists t, minimax fuel g p mx mn = Some t /\ getScore t = 0 /\ next t = []).
Proof.
  repeat split.
  - intros Hx. exists (newMove g 10 [] (-1)). repeat split.
    apply minimax_terminal. unfold terminal. now rewrite Hx.
  - intros Hx Hn. exists (newMove g (-10) [] (-1)). repeat split.
    apply minimax_terminal. unfold terminal. now rewrite Hx, Hn.
  - intros Hx Hn He. exists (newMove g 0 [] (-1)). repeat split.
    apply minimax_terminal. unfold terminal. now rewrite Hx, Hn, He.
Qed.

Lemma minimax_terminal_nodes_witness :
  (Grid.winning (chars "xxxoo    ") Grid.x = true /\
   exists t, minimax 0 (chars "xxxoo    ") Grid.o Grid.x Grid.o = Some t
             /\ getScore t = 10 /\ next t = [])
  /\ ((Grid.winning (chars "xx ooox  ") Grid.x = false /\
       Grid.winning (chars "xx ooox  ") Grid.o = true) /\
      exists t, minimax 0 (chars "xx ooox  ") Grid.x Grid.x Grid.o = Some t
                /\ getScore t = -10 /\ next t = [])
  /\ ((Grid.winning (chars "xoxxoooxx") Grid.x = false /\
       Grid.winning (chars "xoxxoooxx") Grid.o = false /\
       Grid.emptyIndices (chars "xoxxoooxx") = []) /\
      exists t, minimax 0 (chars "xoxxoooxx") Grid.o Grid.x Grid.o = Some t
                /\ getScore t = 0 /\ next t = []).
Proof.
  split; [|split].
  - split; [reflexivity|].
    apply (proj1 (minimax_terminal_nodes 0 (chars "xxxoo    ") Grid.o Grid.x Grid.o)).
    reflexivity.
  - split; [split; reflexivity|].
    apply (proj1 (proj2 (minimax_terminal_nodes 0 (chars "xx ooox  ") Grid.x Grid.x Grid.o)));
      reflexivity.
  - split; [repeat split; reflexivity|].
    apply (proj2 (proj2 (minimax_terminal_nodes 0 (chars "xoxxoooxx") Grid.o Grid.x Grid.o)));
      reflexivity.
Defined.

(** C10: on a full board the win tests decide, not the draw test.  On every
    full board with at most one winner (a board on which both marks have a
    line is no state of the game), both searches score +10 when the
    maximizer has a line and -10 when the minimizer has one; with a line on
    the board the score is never the draw score 0. *)
Theorem full_board_win_before_draw fuel g p mx mn a b :
  Grid.emptyIndices g = [] ->
  ~ (Grid.winning g mx = true /\ Grid.winning g mn = true) ->
  (Grid.winning g mx = true ->
   option_map getScore (minimax fuel g p mx mn) = Some 10 /\
   option_map getScore (alpha_beta_pruning_all_branches fuel g p mx mn a b) = Some 10)
  /\ (Grid.winning g mn = true ->
      option_map getScore (minimax fuel g p mx mn) = Some (-10) /\
      option_map getScore (alpha_beta_pruning_all_branches fuel g p mx mn a b)
      = Some (-10))
  /\ (Grid.winning g mx = true \/ Grid.winning g mn = true ->
      option_map getScore (minimax fuel g p mx mn) <> Some 0 /\
      option_map getScore (alpha_beta_pruning_all_branches fuel g p mx mn a b)
      <> Some 0).
Proof.
  intros _ Hone.
  assert (Hx : Grid.winning g mx = true -> terminal g mx mn = Some 10)
    by (intros H; unfold terminal; now rewrite H).
  assert (Hn : Grid.winning g mn = true -> terminal g mx mn = Some (-10)).
  { intros H. unfold terminal.
    destruct (Grid.winning g mx) eqn:Ex; [destruct Hone; auto|]. now rewrite H. }
  split; [|split].
  - intros H. specialize (Hx H).
    now rewrite (minimax_terminal _ _ _ _ _ _ Hx), (ab_terminal _ _ _ _ _ _ _ _ Hx).
  - intros H. specialize (Hn H).
    now rewrite (minimax_terminal _ _ _ _ _ _ Hn), (ab_terminal _ _ _ _ _ _ _ _ Hn).
  - intros [H|H].
    + specialize (Hx H).
      rewrite (minimax_terminal _ _ _ _ _ _ Hx), (ab_terminal _ _ _ _ _ _ _ _ Hx).
      split; discriminate.
    + specialize (Hn H).
      rewrite (minimax_terminal _ _ _ _ _ _ Hn), (ab_terminal _ _ _ _ _ _ _ _ Hn).
      split; discriminate.
Qed.

Lemma full_board_win_before_draw_witness :
  (option_map getScore (minimax 0 (chars "xxxooxoxo") Grid.o Grid.x Grid.o) = Some 10 /\
   option_map getScore
     (alpha_beta_pruning_all_branches 0 (chars "xxxooxoxo") Grid.o Grid.x Grid.o
        INT_MIN INT_MAX) = Some 10)
  /\ (option_map getScore (minimax 0 (chars "ooxxoxxxo") Grid.x Grid.x Grid.o)
      = Some (-10) /\
      option_map getScore
        (alpha_beta_pruning_all_branches 0 (chars "ooxxoxxxo") Grid.x Grid.x Grid.o
           INT_MIN INT_MAX) = Some (-10))
  /\ (option_map getScore (minimax 0 (chars "ooxxoxxxo") Grid.x Grid.x Grid.o)
      <> Some 0 /\
      option_map getScore
        (alpha_beta_pruning_all_branches 0 (chars "ooxxoxxxo") Grid.x Grid.x Grid.o
           INT_MIN INT_MAX) <> Some 0).
Proof.
  assert (H1 : ~ (Grid.winning (chars "xxxooxoxo") Grid.x = true
                  /\ Grid.winning (chars "xxxooxoxo") Grid.o = true))
    by (intros [_ H]; vm_compute in H; discriminate).
  assert (H2 : ~ (Grid.winning (chars "ooxxoxxxo") Grid.x = true
                  /\ Grid.winning (chars "ooxxoxxxo") Grid.o = true))
    by (intros [H _]; vm_compute in H; discriminate).
  split; [|split].
  - apply (proj1 (full_board_win_before_draw 0 (chars "xxxooxoxo") Grid.o Grid.x Grid.o
                    INT_MIN INT_MAX eq_refl H1)).
    reflexivity.
  - apply (proj1 (proj2 (full_board_win_before_draw 0 (chars "ooxxoxxxo")
                           Grid.x Grid.x Grid.o INT_MIN INT_MAX eq_refl H2))).
    reflexivity.
  - apply (proj2 (proj2 (full_board_win_before_draw 0 (chars "ooxxoxxxo")
                           Grid.x Grid.x Grid.o INT_MIN INT_MAX eq_refl H2))).
    right. reflexivity.
Defined.

Lemma minimax_max_loop_spec rec g p spots :
  forall idx best bm nm best' bm' nm',
    minimax_max_loop rec g p spots idx best bm nm = Some (best', bm', nm') ->
    exists kids,
      nm' = nm ++ kids
      /\ Forall2 (child_of rec g p) spots kids
      /\ Forall (fun s => s <= best') (List.map getScore kids)
      /\ best <= best'
      /\ ((best' = best /\ bm' = bm)
          \/ (best < best' /\
              exists n, bm' = Z.of_nat (idx + n)
                        /\ nth_error (List.map getScore kids) n = Some best'
                        /\ forall j s, (j < n)%nat ->
                             nth_error (List.map getScore kids) j = Some s ->
                             s < best')).
Proof.
  induction spots as [|spot rest IH]; intros idx best bm nm best' bm' nm' H;
    simpl in H.
  - inversion H; subst. exists []. rewrite app_nil_r.
    split; [reflexivity|]. split; [constructor|]. split; [constructor|].
    split; [lia|]. left; auto.
  - destruct (rec (Grid.set g spot p)) as [c0|] eqn:Hrec; [|discriminate].
    set (c := setSpotIndex c0 (Z.of_nat spot)) in *.
    destruct (getScore c >? best) eqn:Hgt.
    + apply IH in H. destruct H as (kids & -> & HF2 & Hle & Hb & Hcase).
      exists (c :: kids). rewrite <- app_assoc. simpl.
      split; [reflexivity|]. split; [constructor; [exists c0; auto | exact HF2]|].
      split; [constructor; [lia | exact Hle]|].
      split; [lia|]. right. split; [lia|].
      destruct Hcase as [[-> ->] | [Hlt (n & -> & Hn & Hfirst)]].
      * exists 0%nat. rewrite Nat.add_0_r. repeat split. intros j s Hj. lia.
      * exists (S n). split; [f_equal; lia|]. split; [exact Hn|].
        intros [|j] s Hj Hs; simpl in Hs.
        -- inversion Hs; subst. lia.
        -- apply (Hfirst j s); [lia | exact Hs].
    + apply IH in H. destruct H as (kids & -> & HF2 & Hle & Hb & Hcase).
      exists (c :: kids). rewrite <- app_assoc. simpl.
      split; [reflexivity|]. split; [constructor; [exists c0; auto | exact HF2]|].
      split; [constructor; [lia | exact Hle]|].
      split; [lia|].
      destruct Hcase as [[-> ->] | [Hlt (n & -> & Hn & Hfirst)]].
      * left; auto.
      * right. split; [lia|]. exists (S n). split; [f_equal; lia|].
        split; [exact Hn|].
        intros [|j] s Hj Hs; simpl in Hs.
        -- inversion Hs; subst. lia.
        -- apply (Hfirst j s); [lia | exact Hs].
Qed.

Lemma minimax_min_loop_spec rec g p spots :
  forall idx best bm nm best' bm' nm',
    minimax_min_loop rec g p spots idx best bm nm = Some (best', bm', nm') ->
    exists kids,
      nm' = nm ++ kids
      /\ Forall2 (child_of rec g p) spots kids
      /\ Forall (fun s => best' <= s) (List.map getScore kids)
      /\ best' <= best
      /\ ((best' = best /\ bm' = bm)
          \/ (best' < best /\
              exists n, bm' = Z.of_nat (idx + n)
                        /\ nth_error (List.map getScore kids) n = Some best'
                        /\ forall j s, (j < n)%nat ->
                             nth_error (List.map getScore kids) j = Some s ->
                             best' < s)).
Proof.
  induction spots as [|spot rest IH]; intros idx best bm nm best' bm' nm' H;
    simpl in H.
  - inversion H; subst. exists []. rewrite app_nil_r.
    split; [reflexivity|]. split; [constructor|]. split; [constructor|].
    split; [lia|]. left; auto.
  - destruct (rec (Grid.set g spot p)) as [c0|] eqn:Hrec; [|discriminate].
    set (c := setSpotIndex c0 (Z.of_nat spot)) in *.
    destruct (getScore c <? best) eqn:Hlt0.
    + apply IH in H. destruct H as (kids & -> & HF2 & Hle & Hb & Hcase).
      exists (c :: kids). rewrite <- app_assoc. simpl.
      split; [reflexivity|]. split; [constructor; [exists c0; auto | exact HF2]|].
      split; [constructor; [lia | exact Hle]|].
      split; [lia|]. right. split; [lia|].
      destruct Hcase as [[-> ->] | [Hlt (n & -> & Hn & Hfirst)]].
      * exists 0%nat. rewrite Nat.add_0_r. repeat split. intros j s Hj. lia.
      * exists (S n). split; [f_equal; lia|]. split; [exact Hn|].
        intros [|j] s Hj Hs; simpl in Hs.
        -- inversion Hs; subst. lia.
        -- apply (Hfirst j s); [lia | exact Hs].
    + apply IH in H. destruct H as (kids & -> & HF2 & Hle & Hb & Hcase).
      exists (c :: kids). rewrite <- app_assoc. simpl.
      split; [reflexivity|]. split; [constructor; [exists c0; auto | exact HF2]|].
      split; [constructor; [lia | exact Hle]|].
      split; [lia|].
      destruct Hcase as [[-> ->] | [Hlt (n & -> & Hn & Hfirst)]].
      * left; auto.
      * right. split; [lia|]. exists (S n). split; [f_equal; lia|].
        split; [exact Hn|].
        intros [|j] s Hj Hs; simpl in Hs.
        -- inversion Hs; subst. lia.
        -- apply (Hfirst j s); [lia | exact Hs].
Qed.

Lemma utility_bounds s : utility s -> INT_MIN < s < INT_MAX.
Proof. unfold utility, INT_MIN, INT_MAX. lia. Qed.

Lemma terminal_utility g mx mn s : terminal g mx mn = Some s -> utility s.
Proof.
  unfold terminal, utility.
  destruct (Grid.winning g mx); [intros [= <-]; lia|].
  destruct (Grid.winning g mn); [intros [= <-]; lia|].
  destruct (is_nil _); [intros [= <-]; lia | discriminate].
Qed.

Lemma Forall2_child_scores rec g p spots kids :
  (forall g' c, rec g' = Some c -> utility (getScore c)) ->
  Forall2 (child_of rec g p) spots kids ->
  Forall utility (List.map getScore kids).
Proof.
  intros Hrec HF. induction HF as [|spot c spots kids (c0 & Hc0 & ->) _ IH];
    simpl; constructor; [|exact IH].
  rewrite getScore_setSpotIndex. eauto.
Qed.

Lemma nth_error_lt_ne (l : list Z) n v :
  (forall j s, (j < n)%nat -> nth_error l j = Some s -> s < v) ->
  forall j, (j < n)%nat -> nth_error l j <> Some v.
Proof. intros H j Hj E. specialize (H j v Hj E). lia. Qed.

Lemma nth_error_gt_ne (l : list Z) n v :
  (forall j s, (j < n)%nat -> nth_error l j = Some s -> v < s) ->
  forall j, (j < n)%nat -> nth_error l j <> Some v.
Proof. intros H j Hj E. specialize (H j v Hj E). lia. Qed.

(** The maximizer loop as [minimax] starts it. *)
Lemma minimax_max_loop_top rec g p spots best' bm' nm' :
  spots <> [] ->
  (forall g' c, rec g' = Some c -> utility (getScore c)) ->
  minimax_max_loop rec g p spots 0 INT_MIN 0 [] = Some (best', bm', nm') ->
  Forall2 (child_of rec g p) spots nm'
  /\ attains_max best' (List.map getScore nm')
  /\ first_index_of best' (List.map getScore nm') bm'.
Proof.
  intros Hne Hrec H. apply minimax_max_loop_spec in H.
  destruct H as (kids & -> & HF2 & Hle & _ & Hcase). simpl.
  split; [exact HF2|].
  pose proof (Forall2_child_scores _ _ _ _ _ Hrec HF2) as Hu.
  destruct Hcase as [[-> _] | [_ (n & -> & Hn & Hfirst)]].
  - exfalso. destruct HF2 as [|spot c spots kids _ _]; [congruence|].
    simpl in Hle, Hu. inversion Hle; subst. inversion Hu; subst.
    match goal with H : utility _ |- _ => apply utility_bounds in H end. lia.
  - split.
    + split; [eapply nth_error_In; eauto | exact Hle].
    + exists n. split; [reflexivity|]. split; [exact Hn|].
      now apply nth_error_lt_ne.
Qed.

(** The minimizer loop as [minimax] starts it. *)
Lemma minimax_min_loop_top rec g p spots best' bm' nm' :
  spots <> [] ->
  (forall g' c, rec g' = Some c -> utility (getScore c)) ->
  minimax_min_loop rec g p spots 0 INT_MAX 0 [] = Some (best', bm', nm') ->
  Forall2 (child_of rec g p) spots nm'
  /\ attains_min best' (List.map getScore nm')
  /\ first_index_of best' (List.map getScore nm') bm'.
Proof.
  intros Hne Hrec H. apply minimax_min_loop_spec in H.
  destruct H as (kids & -> & HF2 & Hle & _ & Hcase). simpl.
  split; [exact HF2|].
  pose proof (Forall2_child_scores _ _ _ _ _ Hrec HF2) as Hu.
  destruct Hcase as [[-> _] | [_ (n & -> & Hn & Hfirst)]].
  - exfalso. destruct HF2 as [|spot c spots kids _ _]; [congruence|].
    simpl in Hle, Hu. inversion Hle; subst. inversion Hu; subst.
    match goal with H : utility _ |- _ => apply utility_bounds in H end. lia.
  - split.
    + split; [eapply nth_error_In; eauto | exact Hle].
    + exists n. split; [reflexivity|]. split; [exact Hn|].
      now apply nth_error_gt_ne.
Qed.

Lemma terminal_None_empties g mx mn :
  terminal g mx mn = None -> Grid.emptyIndices g <> [].
Proof.
  unfold terminal. destruct (Grid.winning g mx); [discriminate|].
  destruct (Grid.winning g mn); [discriminate|].
  destruct (Grid.emptyIndices g); simpl; congruence.
Qed.

Lemma attains_max_utility v l : Forall utility l -> attains_max v l -> utility v.
Proof. intros HF [Hin _]. rewrite List.Forall_forall in HF. auto. Qed.

Lemma attains_min_utility v l : Forall utility l -> attains_min v l -> utility v.
Proof. intros HF [Hin _]. rewrite List.Forall_forall in HF. auto. Qed.

Lemma minimax_utility mx mn fuel :
  forall g p t, minimax fuel g p mx mn = Some t -> utility (getScore t).
Proof.
  induction fuel as [|fuel IH]; intros g p t H;
    destruct (terminal g mx mn) as [s|] eqn:T.
  - rewrite (minimax_terminal _ _ _ _ _ _ T) in H. inversion H; subst.
    simpl. eapply terminal_utility; eauto.
  - rewrite minimax_no_fuel in H by assumption. discriminate.
  - rewrite (minimax_terminal _ _ _ _ _ _ T) in H. inversion H; subst.
    simpl. eapply terminal_utility; eauto.
  - rewrite minimax_step in H by assumption.
    pose proof (terminal_None_empties _ _ _ T) as Hne.
    destruct (Ascii.eqb p mx).
    + destruct (minimax_max_loop _ _ _ _ _ _ _ _) as [[[b bm] nm]|] eqn:L;
        [|discriminate].
      inversion H; subst; simpl.
      apply minimax_max_loop_top in L; [|assumption|intros g' c Hc; exact (IH _ _ _ Hc)].
      destruct L as (HF2 & Hmax & _).
      eapply attains_max_utility; [|exact Hmax].
      eapply Forall2_child_scores; [|exact HF2]. intros g' c Hc; exact (IH _ _ _ Hc).
    + destruct (minimax_min_loop _ _ _ _ _ _ _ _) as [[[b bm] nm]|] eqn:L;
        [|discriminate].
      inversion H; subst; simpl.
      apply minimax_min_loop_top in L; [|assumption|intros g' c Hc; exact (IH _ _ _ Hc)].
      destruct L as (HF2 & Hmin & _).
      eapply attains_min_utility; [|exact Hmin].
      eapply Forall2_child_scores; [|exact HF2]. intros g' c Hc; exact (IH _ _ _ Hc).
Qed.

Lemma minimax_grid mx mn fuel g p t :
  minimax fuel g p mx mn = Some t -> grid t = g.
Proof.
  destruct (terminal g mx mn) as [s|] eqn:T.
  - rewrite (minimax_terminal _ _ _ _ _ _ T). now intros [= <-].
  - destruct fuel; [rewrite minimax_no_fuel by assumption; discriminate|].
    rewrite minimax_step by assumption.
    destruct (if Ascii.eqb p mx then _ else _) as [[[b bm] nm]|];
      [|discriminate].
    now intros [= <-].
Qed.

(** What [minimax] builds at a non-terminal state, whenever it returns. *)
Lemma minimax_node mx mn fuel g p t :
  terminal g mx mn = None ->
  minimax fuel g p mx mn = Some t ->
  Forall2 (child_of (fun g' => minimax (pred fuel) g' (opponent p mx mn) mx mn) g p)
          (Grid.emptyIndices g) (next t)
  /\ (if Ascii.eqb p mx
      then attains_max (getScore t) (List.map getScore (next t))
      else attains_min (getScore t) (List.map getScore (next t)))
  /\ first_index_of (getScore t) (List.map getScore (next t)) (bestMove t).
Proof.
  intros T H. destruct fuel; [rewrite minimax_no_fuel in H by assumption; discriminate|].
  rewrite minimax_step in H by assumption.
  pose proof (terminal_None_empties _ _ _ T) as Hne.
  unfold opponent. simpl pred.
  destruct (Ascii.eqb p mx).
  - destruct (minimax_max_loop _ _ _ _ _ _ _ _) as [[[b bm] nm]|] eqn:L;
      [|discriminate].
    inversion H; subst; simpl.
    apply minimax_max_loop_top in L; [exact L|assumption|].
    intros g' c Hc; exact (minimax_utility _ _ _ _ _ _ Hc).
  - destruct (minimax_min_loop _ _ _ _ _ _ _ _) as [[[b bm] nm]|] eqn:L;
      [|discriminate].
    inversion H; subst; simpl.
    apply minimax_min_loop_top in L; [exact L|assumption|].
    intros g' c Hc; exact (minimax_utility _ _ _ _ _ _ Hc).
Qed.

(** ** Termination of the searches on a real board *)

Lemma filter_length_le {A} (f f' : A -> bool) l :
  (forall a, In a l -> f' a = true -> f a = true) ->
  (length (List.filter f' l) <= length (List.filter f l))%nat.
Proof.
  induction l as [|a l IH]; intros H; simpl; [lia|].
  assert (IH' := IH (fun b Hb => H b (or_intror Hb))).
  destruct (f' a) eqn:E'.
  - rewrite (H a (or_introl eq_refl) E'). simpl. lia.
  - destruct (f a); simpl; lia.
Qed.

Lemma filter_length_lt {A} (f f' : A -> bool) l x :
  (forall a, In a l -> f' a = true -> f a = true) ->
  In x l -> f x = true -> f' x = false ->
  (length (List.filter f' l) < length (List.filter f l))%nat.
Proof.
  induction l as [|a l IH]; intros H Hin Hx Hx'; simpl; [destruct Hin|].
  assert (Hl := fun b Hb => H b (or_intror Hb)).
  destruct Hin as [->|Hin].
  - rewrite Hx, Hx'. simpl. pose proof (filter_length_le f f' l Hl). lia.
  - specialize (IH Hl Hin Hx Hx').
    destruct (f' a) eqn:E'.
    + rewrite (H a (or_introl eq_refl) E'). simpl. lia.
    + destruct (f a); simpl; lia.
Qed.

Lemma emptyIndices_spec g i :
  In i (Grid.emptyIndices g) <-> (i < 9)%nat /\ Grid.sq g i = Grid.blank.
Proof.
  unfold Grid.emptyIndices. rewrite filter_In, in_seq.
  change (Grid.width * Grid.height)%nat with 9%nat.
  rewrite Ascii.eqb_eq. intuition lia.
Qed.

Lemma sq_set g spot c i :
  (spot < length g)%nat ->
  Grid.sq (Grid.set g spot c) i = if Nat.eqb i spot then c else Grid.sq g i.
Proof.
  intros Hlt. unfold Grid.sq, Grid.set.
  destruct (Nat.eqb_spec i spot) as [->|Hne].
  - rewrite nth_lookup, list_lookup_insert_eq by assumption. reflexivity.
  - rewrite !nth_lookup, list_lookup_insert_ne by congruence. reflexivity.
Qed.

Lemma wf_set g spot c : Grid.wf g -> Grid.wf (Grid.set g spot c).
Proof. unfold Grid.wf, Grid.set. now rewrite length_insert. Qed.

Lemma set_blank_id g spot :
  In spot (Grid.emptyIndices g) -> Grid.wf g -> Grid.set g spot Grid.blank = g.
Proof.
  intros [Hlt Hb]%emptyIndices_spec Hwf. unfold Grid.set.
  apply list_insert_id. unfold Grid.sq in Hb. rewrite nth_lookup in Hb.
  destruct (g !! spot) as [c|] eqn:E; [simpl in Hb; congruence|].
  apply lookup_ge_None in E. unfold Grid.wf in Hwf. simpl in Hwf. lia.
Qed.

Lemma emptyIndices_set_lt g spot c :
  Grid.wf g -> c <> Grid.blank -> In spot (Grid.emptyIndices g) ->
  (length (Grid.emptyIndices (Grid.set g spot c)) < length (Grid.emptyIndices g))%nat.
Proof.
  intros Hwf Hc Hin. pose proof Hin as [Hlt Hb]%emptyIndices_spec.
  assert (Hlen : (spot < length g)%nat) by (unfold Grid.wf in Hwf; simpl in Hwf; lia).
  unfold Grid.emptyIndices. apply filter_length_lt with (x := spot).
  - intros i _. rewrite sq_set by assumption.
    destruct (Nat.eqb i spot); [|auto].
    rewrite Ascii.eqb_eq. congruence.
  - apply in_seq. simpl. lia.
  - now apply Ascii.eqb_eq.
  - rewrite sq_set, Nat.eqb_refl by assumption. now apply Ascii.eqb_neq.
Qed.

Lemma minimax_max_loop_returns rec g p spots :
  (forall spot, In spot spots -> exists c, rec (Grid.set g spot p) = Some c) ->
  forall idx best bm nm, exists r, minimax_max_loop rec g p spots idx best bm nm = Some r.
Proof.
  induction spots as [|spot rest IH]; intros H idx best bm nm; simpl; [eauto|].
  destruct (H spot (or_introl eq_refl)) as [c ->].
  destruct (_ >? _); apply IH; intros; apply H; now right.
Qed.

Lemma minimax_min_loop_returns rec g p spots :
  (forall spot, In spot spots -> exists c, rec (Grid.set g spot p) = Some c) ->
  forall idx best bm nm, exists r, minimax_min_loop rec g p spots idx best bm nm = Some r.
Proof.
  induction spots as [|spot rest IH]; intros H idx best bm nm; simpl; [eauto|].
  destruct (H spot (or_introl eq_refl)) as [c ->].
  destruct (_ <? _); apply IH; intros; apply H; now right.
Qed.

Lemma plies_le_10 g p : (plies g p <= 10)%nat.
Proof.
  unfold plies, Grid.emptyIndices.
  pose proof (List.filter_length_le
                (fun i => Ascii.eqb (Grid.sq g i) Grid.blank)
                (seq 0 (Grid.width * Grid.height))) as H.
  rewrite length_seq in H. change (Grid.width * Grid.height)%nat with 9%nat in *.
  destruct (Ascii.eqb p Grid.blank); lia.
Qed.

Lemma plies_child g p q spot :
  Grid.wf g -> q <> Grid.blank -> In spot (Grid.emptyIndices g) ->
  (plies (Grid.set g spot p) q < plies g p)%nat.
Proof.
  intros Hwf Hq Hin. unfold plies.
  apply Ascii.eqb_neq in Hq. rewrite Hq.
  destruct (Ascii.eqb p Grid.blank) eqn:Ep.
  - apply Ascii.eqb_eq in Ep. subst p. rewrite set_blank_id by assumption.
    cbv iota. lia.
  - apply Ascii.eqb_neq in Ep. cbv iota.
    pose proof (emptyIndices_set_lt g spot p Hwf Ep Hin). lia.
Qed.

Lemma minimax_returns mx mn :
  mx <> Grid.blank -> mn <> Grid.blank ->
  forall fuel g p, Grid.wf g -> (plies g p <= fuel)%nat ->
    exists t, minimax fuel g p mx mn = Some t.
Proof.
  intros Hmx Hmn. induction fuel as [|fuel IH]; intros g p Hwf Hfuel;
    destruct (terminal g mx mn) as [s|] eqn:T;
    try (rewrite (minimax_terminal _ _ _ _ _ _ T); eauto).
  - exfalso. pose proof (terminal_None_empties _ _ _ T) as Hne.
    unfold plies in Hfuel. destruct (Grid.emptyIndices g); [congruence|].
    simpl in Hfuel. lia.
  - rewrite minimax_step by assumption.
    assert (Hrec : forall q, q <> Grid.blank ->
              forall spot, In spot (Grid.emptyIndices g) ->
              exists c, minimax fuel (Grid.set g spot p) q mx mn = Some c).
    { intros q Hq spot Hin. apply IH; [now apply wf_set|].
      pose proof (plies_child g p q spot Hwf Hq Hin). lia. }
    destruct (Ascii.eqb p mx).
    + destruct (minimax_max_loop_returns
                  (fun g' => minimax fuel g' mn mx mn) g p _ (Hrec mn Hmn)
                  0%nat INT_MIN 0 []) as [[[b bm] nm] ->]. eauto.
    + destruct (minimax_min_loop_returns
                  (fun g' => minimax fuel g' mx mx mn) g p _ (Hrec mx Hmx)
                  0%nat INT_MAX 0 []) as [[[b bm] nm] ->]. eauto.
Qed.

Lemma terminal_None g mx mn :
  Grid.winning g mx = false -> Grid.winning g mn = false ->
  Grid.emptyIndices g <> [] -> terminal g mx mn = None.
Proof.
  intros Hx Hn He. unfold terminal. rewrite Hx, Hn.
  destruct (Grid.emptyIndices g); [congruence | reflexivity].
Qed.

Lemma inner_node_of_minimax fuel g p mx mn t :
  terminal g mx mn = None ->
  minimax fuel g p mx mn = Some t -> inner_node fuel g p mx mn t.
Proof.
  intros T H. destruct (minimax_node mx mn fuel g p t T H) as (HF2 & Hext & Hfirst).
  split; [|split; assumption].
  eapply Forall2_impl; [exact HF2|].
  intros spot c Hc. split; [exact Hc|].
  destruct Hc as (c0 & Hc0 & ->).
  rewrite spotIndex_setSpotIndex, grid_setSpotIndex.
  split; [reflexivity|]. eapply minimax_grid; exact Hc0.
Qed.

(** C5: at a non-terminal state the node minimax returns has exactly one
    child per legal move, in enumeration order; its score is the maximum of
    the children's scores on a maximizer ply and the minimum otherwise; its
    [bestMove] is the index of the first child with that score.  With real
    players on a 3x3 board ten levels of recursion are enough for minimax to
    return. *)
Theorem minimax_inner_node fuel g p mx mn :
  Grid.winning g mx = false -> Grid.winning g mn = false ->
  Grid.emptyIndices g <> [] ->
  (forall t, minimax fuel g p mx mn = Some t -> inner_node fuel g p mx mn t)
  /\ (Grid.wf g -> mx <> Grid.blank -> mn <> Grid.blank -> (10 <= fuel)%nat ->
      exists t, minimax fuel g p mx mn = Some t).
Proof.
  intros Hx Hn He. split.
  - intros t Ht. apply inner_node_of_minimax; [|exact Ht]. now apply terminal_None.
  - intros Hwf Hmx Hmn Hfuel. apply minimax_returns; auto.
    pose proof (plies_le_10 g p). lia.
Qed.

Lemma minimax_inner_node_witness :
  exists t, minimax 10 (chars "xoxoxo   ") Grid.x Grid.x Grid.o = Some t
            /\ inner_node 10 (chars "xoxoxo   ") Grid.x Grid.x Grid.o t.
Proof.
  assert (He : Grid.emptyIndices (chars "xoxoxo   ") <> [])
    by (vm_compute; discriminate).
  destruct (proj2 (minimax_inner_node 10 (chars "xoxoxo   ") Grid.x Grid.x Grid.o
                     eq_refl eq_refl He))
    as [t Ht].
  - reflexivity.
  - discriminate.
  - discriminate.
  - lia.
  - exists t. split; [exact Ht|].
    exact (proj1 (minimax_inner_node 10 (chars "xoxoxo   ") Grid.x Grid.x Grid.o
                    eq_refl eq_refl He) t Ht).
Defined.

(** ** Alpha-beta pruning against minimax *)

Ltac case_cmp :=
  repeat match goal with
  | |- context [?u >? ?v] => destruct (Z.gtb_spec u v)
  | |- context [?u <? ?v] => destruct (Z.ltb_spec u v)
  | |- context [?u >=? ?v] => destruct (Z.geb_spec u v)
  | |- context [?u <=? ?v] => destruct (Z.leb_spec u v)
  | H : context [?u >? ?v] |- _ => destruct (Z.gtb_spec u v)
  | H : context [?u <? ?v] |- _ => destruct (Z.ltb_spec u v)
  end.

Lemma ab_loop_vs_max recM recA g p mx mn a0 b :
  Ascii.eqb p mx = true ->
  INT_MIN <= a0 -> a0 < b ->
  (forall g' a t, INT_MIN <= a -> a < b -> recM g' = Some t ->
     exists t', recA g' mn a b = Some t'
                /\ bracket a b (getScore t) (getScore t')) ->
  forall spots idx bestM bmM nmM bestV bmV a pruned nmV bestM' bmM' nmM',
    minimax_max_loop recM g p spots idx bestM bmM nmM = Some (bestM', bmM', nmM') ->
    max_inv a0 b bestM bestV a pruned ->
    exists bestV' bmV' nmV',
      ab_loop recA g p mx mn spots idx bestV bmV a b pruned nmV
      = Some (bestV', bmV', nmV')
      /\ bracket a0 b bestM' bestV'.
Proof.
  intros Hp Ha0 Hab Hrec.
  induction spots as [|spot rest IH];
    intros idx bestM bmM nmM bestV bmV a pruned nmV bestM' bmM' nmM' H Inv.
  - simpl in H. inversion H; subst. simpl. do 3 eexists. split; [reflexivity|].
    unfold bracket. destruct Inv as [-> Inv]. destruct pruned; lia.
  - simpl in H.
    destruct (recM (Grid.set g spot p)) as [c|] eqn:Hc; [|discriminate].
    rewrite getScore_setSpotIndex in H.
    destruct Inv as [Ea Inv]. simpl ab_loop. destruct pruned; simpl negb; cbv iota.
    + (* already pruned: a placeholder is attached *)
      case_cmp; (eapply IH; [exact H|]); split; try assumption; simpl; lia.
    + rewrite Hp.
      destruct (Hrec _ a c ltac:(lia) ltac:(lia) Hc) as (c' & -> & Hb).
      unfold bracket in Hb.
      case_cmp; (eapply IH; [exact H|]); (split; [lia|]);
        case_cmp; lia.
Qed.

Lemma ab_loop_vs_min recM recA g p mx mn a b0 :
  Ascii.eqb p mx = false ->
  b0 <= INT_MAX -> a < b0 ->
  (forall g' b t, b <= INT_MAX -> a < b -> recM g' = Some t ->
     exists t', recA g' mx a b = Some t'
                /\ bracket a b (getScore t) (getScore t')) ->
  forall spots idx bestM bmM nmM bestV bmV b pruned nmV bestM' bmM' nmM',
    minimax_min_loop recM g p spots idx bestM bmM nmM = Some (bestM', bmM', nmM') ->
    min_inv a b0 bestM bestV b pruned ->
    exists bestV' bmV' nmV',
      ab_loop recA g p mx mn spots idx bestV bmV a b pruned nmV
      = Some (bestV', bmV', nmV')
      /\ bracket a b0 bestM' bestV'.
Proof.
  intros Hp Hb0 Hab Hrec.
  induction spots as [|spot rest IH];
    intros idx bestM bmM nmM bestV bmV b pruned nmV bestM' bmM' nmM' H Inv.
  - simpl in H. inversion H; subst. simpl. do 3 eexists. split; [reflexivity|].
    unfold bracket. destruct Inv as [-> Inv]. destruct pruned; lia.
  - simpl in H.
    destruct (recM (Grid.set g spot p)) as [c|] eqn:Hc; [|discriminate].
    rewrite getScore_setSpotIndex in H.
    destruct Inv as [Eb Inv]. simpl ab_loop. destruct pruned; simpl negb; cbv iota.
    + case_cmp; (eapply IH; [exact H|]); split; try assumption; simpl; lia.
    + rewrite Hp.
      destruct (Hrec _ b c ltac:(lia) ltac:(lia) Hc) as (c' & -> & Hb).
      unfold bracket in Hb.
      case_cmp; (eapply IH; [exact H|]); (split; [lia|]);
        case_cmp; lia.
Qed.

Lemma ab_brackets mx mn fuel :
  forall g p a b t,
    INT_MIN <= a -> a < b -> b <= INT_MAX ->
    minimax fuel g p mx mn = Some t ->
    exists t', alpha_beta_pruning_all_branches fuel g p mx mn a b = Some t'
               /\ bracket a b (getScore t) (getScore t').
Proof.
  induction fuel as [|fuel IH]; intros g p a b t Ha Hab Hb H;
    destruct (terminal g mx mn) as [s|] eqn:T;
    try (rewrite (minimax_terminal _ _ _ _ _ _ T) in H;
         rewrite (ab_terminal _ _ _ _ _ _ _ _ T);
         inversion H; subst; eexists; split; [reflexivity|];
         unfold bracket; simpl; lia).
  - rewrite minimax_no_fuel in H by assumption. discriminate.
  - rewrite minimax_step in H by assumption. rewrite ab_step by assumption.
    destruct (Ascii.eqb p mx) eqn:Hp.
    + destruct (minimax_max_loop _ _ _ _ _ _ _ _) as [[[bM bmM] nmM]|] eqn:L;
        [|discriminate].
      inversion H; subst; clear H.
      destruct (ab_loop_vs_max
                  (fun g' => minimax fuel g' mn mx mn)
                  (fun g' p' a' b' =>
                     alpha_beta_pruning_all_branches fuel g' p' mx mn a' b')
                  g p mx mn a b Hp Ha Hab
                  (fun g' a' t' Ha' Hab' Ht' => IH g' mn a' b t' Ha' Hab' Hb Ht')
                  _ _ _ _ _ INT_MIN 0 a false [] _ _ _ L)
        as (bV & bmV & nmV & -> & Hbr).
      { unfold max_inv. lia. }
      eexists; split; [reflexivity|]. exact Hbr.
    + destruct (minimax_min_loop _ _ _ _ _ _ _ _) as [[[bM bmM] nmM]|] eqn:L;
        [|discriminate].
      inversion H; subst; clear H.
      destruct (ab_loop_vs_min
                  (fun g' => minimax fuel g' mx mx mn)
                  (fun g' p' a' b' =>
                     alpha_beta_pruning_all_branches fuel g' p' mx mn a' b')
                  g p mx mn a b Hp Hb Hab
                  (fun g' b' t' Hb' Hab' Ht' => IH g' mx a b' t' Ha Hab' Hb' Ht')
                  _ _ _ _ _ INT_MAX 0 b false [] _ _ _ L)
        as (bV & bmV & nmV & -> & Hbr).
      { unfold min_inv. lia. }
      eexists; split; [reflexivity|]. exact Hbr.
Qed.

(** With the full window the pruned search returns whenever the full search
    does, with the same root score. *)
Lemma ab_root_score fuel g p mx mn t :
  minimax fuel g p mx mn = Some t ->
  exists t', alpha_beta_pruning_all_branches fuel g p mx mn INT_MIN INT_MAX = Some t'
             /\ getScore t' = getScore t.
Proof.
  intros H.
  destruct (ab_brackets mx mn fuel g p INT_MIN INT_MAX t) as (t' & Ht' & Hbr);
    [lia | unfold INT_MIN, INT_MAX; lia | lia | exact H |].
  exists t'. split; [exact Ht'|].
  pose proof (utility_bounds _ (minimax_utility _ _ _ _ _ _ H)) as Hu.
  unfold bracket in Hbr. lia.
Qed.

(** The end-to-end example of the specification: on the empty board, with
    'x' maximizing and moving first, the minimax root score is 0.  The full
    tree has about half a million nodes; the score is computed on the pruned
    tree and carried over. *)
Example empty_board_is_a_draw :
  exists t, minimax 10 Grid.empty Grid.x Grid.x Grid.o = Some t /\ getScore t = 0.
Proof.
  destruct (minimax_returns Grid.x Grid.o ltac:(discriminate) ltac:(discriminate)
              10 Grid.empty Grid.x eq_refl (plies_le_10 _ _)) as [t Ht].
  exists t. split; [exact Ht|].
  destruct (ab_root_score _ _ _ _ _ _ Ht) as (t' & Ht' & <-).
  assert (E : option_map getScore
                (alpha_beta_pruning_all_branches 10 Grid.empty Grid.x Grid.x Grid.o
                   INT_MIN INT_MAX) = Some 0) by (vm_compute; reflexivity).
  rewrite Ht' in E. simpl in E. congruence.
Qed.

(** C1: for every board and every player to move, the root score of
    alpha-beta pruning started with the window (INT_MIN, INT_MAX) equals the
    root score of minimax: whenever minimax returns, so does the pruned
    search, with the same score; and with real players on a 3x3 board ten
    levels of recursion are enough for minimax to return. *)
Theorem alpha_beta_root_score_eq_minimax fuel g p mx mn :
  (forall t,
     minimax fuel g p mx mn = Some t ->
     exists t',
       alpha_beta_pruning_all_branches fuel g p mx mn INT_MIN INT_MAX = Some t'
       /\ getScore t' = getScore t)
  /\ (Grid.wf g -> mx <> Grid.blank -> mn <> Grid.blank -> (10 <= fuel)%nat ->
      exists t, minimax fuel g p mx mn = Some t).
Proof.
  split.
  - intros t Ht. now apply ab_root_score.
  - intros Hwf Hmx Hmn Hfuel. apply minimax_returns; auto.
    pose proof (plies_le_10 g p). lia.
Qed.

Lemma alpha_beta_root_score_eq_minimax_witness :
  exists t t',
    minimax 10 (chars "xo  x    ") Grid.o Grid.x Grid.o = Some t
    /\ alpha_beta_pruning_all_branches 10 (chars "xo  x    ") Grid.o Grid.x Grid.o
         INT_MIN INT_MAX = Some t'
    /\ getScore t' = getScore t.
Proof.
  destruct (proj2 (alpha_beta_root_score_eq_minimax
                     10 (chars "xo  x    ") Grid.o Grid.x Grid.o))
    as [t Ht].
  - reflexivity.
  - discriminate.
  - discriminate.
  - lia.
  - destruct (proj1 (alpha_beta_root_score_eq_minimax
                       10 (chars "xo  x    ") Grid.o Grid.x Grid.o) t Ht)
      as (t' & Ht' & Hs).
    exists t, t'. auto.
Defined.

(** ** The shape of the pruned tree *)

Lemma expanded_grid mx mn g p a b t : expanded mx mn g p a b t -> grid t = g.
Proof. intros H; inversion H; assumption. Qed.

Lemma expanded_setSpotIndex mx mn g p a b t i :
  expanded mx mn g p a b t -> expanded mx mn g p a b (setSpotIndex t i).
Proof.
  intros H; inversion H; subst.
  - eapply expanded_terminal; eauto using grid_setSpotIndex.
    + apply getScore_setSpotIndex.
    + now rewrite next_setSpotIndex.
  - apply expanded_inner; auto using grid_setSpotIndex.
    now rewrite next_setSpotIndex.
Qed.

(** One child per legal move, in order, each on the board after its move. *)
Lemma attached_one_child_per_move mx mn g p a b spots kids :
  attached mx mn g p a b spots kids ->
  Forall2 (fun spot c => spotIndex c = Z.of_nat spot /\ grid c = Grid.set g spot p)
          spots kids.
Proof.
  revert a b kids. induction spots as [|spot rest IH]; intros a b kids H;
    inversion H; subst; constructor; eauto using expanded_grid.
Qed.

Lemma ab_loop_attached recA g p mx mn :
  (forall g' a b c, INT_MIN <= a -> a < b -> b <= INT_MAX ->
     recA g' (opponent p mx mn) a b = Some c ->
     expanded mx mn g' (opponent p mx mn) a b c) ->
  forall spots idx bestV bm a b pruned nm bestV' bm' nm',
    ab_loop recA g p mx mn spots idx bestV bm a b pruned nm
    = Some (bestV', bm', nm') ->
    INT_MIN <= a -> b <= INT_MAX ->
    (pruned = true <-> b <= a) ->
    (if Ascii.eqb p mx then bestV <= a else b <= bestV) ->
    exists kids, nm' = nm ++ kids /\ attached mx mn g p a b spots kids.
Proof.
  intros Hrec.
  induction spots as [|spot rest IH];
    intros idx bestV bm a b pruned nm bestV' bm' nm' H Ha Hb Hpr Hbest.
  - simpl in H. inversion H; subst. exists []. rewrite app_nil_r.
    split; [reflexivity | constructor].
  - simpl in H. destruct pruned; simpl negb in H; cbv iota in H.
    + (* placeholder *)
      apply IH in H; try assumption.
      destruct H as (kids & -> & Hatt).
      eexists (_ :: kids). rewrite <- app_assoc. split; [reflexivity|].
      apply attached_placeholder; try reflexivity; [|exact Hatt].
      apply Hpr; reflexivity.
    + assert (Hab : a < b).
      { destruct (Z.lt_ge_cases a b) as [|C]; [assumption|].
        apply Hpr in C. discriminate. }
      unfold opponent in Hrec.
      destruct (Ascii.eqb p mx) eqn:Hp.
      * destruct (recA (Grid.set g spot p) mn a b) as [c|] eqn:Hc; [|discriminate].
        destruct (Z.gtb_spec (getScore c) bestV); cbv beta iota zeta in H;
          [|replace (Z.max a bestV) with (Z.max a (getScore c)) in H by lia];
          (apply IH in H; [| lia | lia | case_cmp; split; (lia || congruence) | lia ]);
          destruct H as (kids & -> & Hatt);
          (eexists (_ :: kids); rewrite <- app_assoc; split; [reflexivity|]);
          (apply attached_searched;
           [ exact Hab
           | apply spotIndex_setSpotIndex
           | unfold opponent; rewrite Hp; apply expanded_setSpotIndex;
             apply Hrec; auto
           | rewrite Hp, getScore_setSpotIndex; exact Hatt ]).
      * destruct (recA (Grid.set g spot p) mx a b) as [c|] eqn:Hc; [|discriminate].
        destruct (Z.ltb_spec (getScore c) bestV); cbv beta iota zeta in H;
          [|replace (Z.min b bestV) with (Z.min b (getScore c)) in H by lia];
          (apply IH in H; [| lia | lia | case_cmp; split; (lia || congruence) | lia ]);
          destruct H as (kids & -> & Hatt);
          (eexists (_ :: kids); rewrite <- app_assoc; split; [reflexivity|]);
          (apply attached_searched;
           [ exact Hab
           | apply spotIndex_setSpotIndex
           | unfold opponent; rewrite Hp; apply expanded_setSpotIndex;
             apply Hrec; auto
           | rewrite Hp, getScore_setSpotIndex; exact Hatt ]).
Qed.

Lemma ab_no_fuel g p mx mn a b :
  terminal g mx mn = None ->
  alpha_beta_pruning_all_branches 0 g p mx mn a b = None.
Proof.
  unfold terminal. intros H. simpl.
  destruct (Grid.winning g mx); [congruence|].
  destruct (Grid.winning g mn); [congruence|].
  destruct (is_nil (Grid.emptyIndices g)); [congruence|]. reflexivity.
Qed.

Lemma ab_expanded mx mn fuel :
  forall g p a b t,
    INT_MIN <= a -> a < b -> b <= INT_MAX ->
    alpha_beta_pruning_all_branches fuel g p mx mn a b = Some t ->
    expanded mx mn g p a b t.
Proof.
  induction fuel as [|fuel IH]; intros g p a b t Ha Hab Hb H;
    destruct (terminal g mx mn) as [s|] eqn:T;
    try (rewrite (ab_terminal _ _ _ _ _ _ _ _ T) in H; inversion H; subst;
         eapply expanded_terminal; eauto; reflexivity).
  - rewrite ab_no_fuel in H by assumption. discriminate.
  - rewrite ab_step in H by assumption.
    destruct (ab_loop _ _ _ _ _ _ _ _ _ _ _ _ _) as [[[bV bmV] nmV]|] eqn:L;
      [|discriminate].
    inversion H; subst; clear H.
    apply ab_loop_attached in L; try assumption.
    + destruct L as (kids & -> & Hatt). apply expanded_inner; auto.
    + intros g' a' b' c Ha' Hab' Hb' Hc. eapply IH; eauto.
    + split; [discriminate | lia].
    + destruct (Ascii.eqb p mx); assumption.
Qed.

(** C6: the tree returned by the pruned search, started with the full
    window, is an expanded node: at every expanded non-terminal node there is
    exactly one child per legal move, and from the point where the window has
    closed the remaining moves are attached as childless placeholders scored
    with the current alpha (maximizer ply) or beta (minimizer ply).  With real
    players on a 3x3 board ten levels of recursion are enough for the search
    to return. *)
Theorem alpha_beta_tree_shape fuel g p mx mn :
  (forall t,
     alpha_beta_pruning_all_branches fuel g p mx mn INT_MIN INT_MAX = Some t ->
     expanded mx mn g p INT_MIN INT_MAX t)
  /\ (Grid.wf g -> mx <> Grid.blank -> mn <> Grid.blank -> (10 <= fuel)%nat ->
      exists t,
        alpha_beta_pruning_all_branches fuel g p mx mn INT_MIN INT_MAX = Some t).
Proof.
  split.
  - intros t Ht.
    eapply ab_expanded; [| | |exact Ht]; unfold INT_MIN, INT_MAX; lia.
  - intros Hwf Hmx Hmn Hfuel.
    destruct (minimax_returns mx mn Hmx Hmn fuel g p Hwf) as [t0 Ht0].
    { pose proof (plies_le_10 g p). lia. }
    destruct (ab_root_score _ _ _ _ _ _ Ht0) as (t & Ht & _). eauto.
Qed.

Lemma alpha_beta_tree_shape_witness :
  exists t,
    alpha_beta_pruning_all_branches 10 (chars "xo  x    ") Grid.o Grid.x Grid.o
      INT_MIN INT_MAX = Some t
    /\ expanded Grid.x Grid.o (chars "xo  x    ") Grid.o INT_MIN INT_MAX t.
Proof.
  destruct (proj2 (alpha_beta_tree_shape 10 (chars "xo  x    ") Grid.o Grid.x Grid.o))
    as [t Ht].
  - reflexivity.
  - discriminate.
  - discriminate.
  - lia.
  - exists t. split; [exact Ht|].
    exact (proj1 (alpha_beta_tree_shape 10 (chars "xo  x    ") Grid.o Grid.x Grid.o)
             t Ht).
Defined.

(** At an expanded non-terminal node the pruned tree branches exactly as the
    minimax tree does: one child per legal move. *)
Lemma expanded_branching mx mn g p a b t fuel t0 :
  expanded mx mn g p a b t ->
  minimax fuel g p mx mn = Some t0 ->
  length (next t) = length (next t0).
Proof.
  intros He Hm.
  destruct He as [g p a b t s T Hg Hs Hn | g p a b t T Hg Hatt].
  - rewrite (minimax_terminal _ _ _ _ _ _ T) in Hm. inversion Hm; subst.
    rewrite Hn. reflexivity.
  - destruct (minimax_node mx mn fuel g p t0 T Hm) as (HF & _).
    apply attached_one_child_per_move in Hatt.
    rewrite <- (Forall2_length _ _ _ Hatt).
    now rewrite <- (Forall2_length _ _ _ HF).
Qed.

(** * Properties of the Sudoku functors *)

(** ** The value loop *)

Lemma val_loop_spec (exists_ : Z -> bool) steps :
  forall val,
    match val_loop exists_ steps val with
    | Some w => val <= w < val + Z.of_nat steps
                /\ exists_ w = false
                /\ forall u, val <= u < w -> exists_ u = true
    | None => forall u, val <= u < val + Z.of_nat steps -> exists_ u = true
    end.
Proof.
  induction steps as [|steps IH]; intros val; simpl val_loop.
  - intros u Hu. lia.
  - destruct (exists_ val) eqn:E.
    + specialize (IH (val + 1)). destruct (val_loop exists_ steps (val + 1)) as [w|].
      * destruct IH as (Hw & Hf & Hbelow). split; [lia|]. split; [exact Hf|].
        intros u Hu. destruct (Z.eq_dec u val) as [->|]; [exact E|].
        apply Hbelow. lia.
      * intros u Hu. destruct (Z.eq_dec u val) as [->|]; [exact E|].
        apply IH. lia.
    + split; [lia|]. split; [exact E|]. intros u Hu. lia.
Qed.

(** The loop of the functors, started at [v + 1] with [9 - v] iterations,
    against the specification, for any scan [exists_] that decides
    absence. *)
Lemma candidate_loop_spec (absent : Z -> Prop) (exists_ : Z -> bool) base index :
  (forall w, exists_ w = false <-> absent w) ->
  candidate_spec absent base index
    (assign base index
       (val_loop exists_ (Z.to_nat (9 - cell base index)) (cell base index + 1))).
Proof.
  intros Hdec. unfold candidate_spec.
  pose proof (val_loop_spec exists_ (Z.to_nat (9 - cell base index))
                (cell base index + 1)) as H.
  destruct (val_loop _ _ _) as [w|]; simpl.
  - left. destruct H as (Hw & Hf & Hbelow). split; [|reflexivity].
    split; [lia|]. split; [now apply Hdec|].
    intros u Hu Habs. apply Hdec in Habs.
    rewrite Hbelow in Habs by lia. discriminate.
  - right. split; [|split; reflexivity].
    intros w Hw Habs. apply Hdec in Habs. rewrite H in Habs by lia. discriminate.
Qed.

(** ** The scans *)

Lemma exists1D_spec base val :
  exists1D (length base) base val = false <-> absent1D base val.
Proof.
  unfold exists1D, absent1D. rewrite <- not_true_iff_false, existsb_exists.
  split.
  - intros H j Hj E. apply H. exists j. split; [apply in_seq; lia|].
    now apply Z.eqb_eq.
  - intros H (j & Hj%in_seq & E%Z.eqb_eq). apply (H j); [lia | exact E].
Qed.

Lemma existsb_map {A B} (f : B -> bool) (g : A -> B) l :
  existsb f (List.map g l) = existsb (fun a => f (g a)) l.
Proof. induction l as [|a l IH]; simpl; [reflexivity | now rewrite IH]. Qed.

Lemma existsb_flat_map {A B} (f : B -> bool) (g : A -> list B) l :
  existsb f (flat_map g l) = existsb (fun a => existsb f (g a)) l.
Proof.
  induction l as [|a l IH]; simpl; [reflexivity|].
  now rewrite existsb_app, IH.
Qed.

Lemma exists2D_scan base index val :
  exists2D 9 9 base index val
  = existsb (fun j => cell base j =? val) (scan2D index).
Proof.
  unfold exists2D, exists_row, exists_col, exists_box, scan2D.
  rewrite !existsb_app, !existsb_map, existsb_flat_map, orb_assoc.
  reflexivity.
Qed.

Lemma scan2D_sees_all :
  forallb (fun index =>
             forallb (fun j => Nat.ltb j 81) (scan2D index)
             && forallb (fun j => Bool.eqb (existsb (Nat.eqb j) (scan2D index))
                                           (sees2Db index j))
                        (seq 0 81))
          (seq 0 81) = true.
Proof. vm_compute. reflexivity. Qed.

Lemma sees2Db_spec i j : sees2Db i j = true <-> sees2D i j.
Proof.
  unfold sees2Db, sees2D.
  rewrite !orb_true_iff, andb_true_iff, !Nat.eqb_eq. tauto.
Qed.

Lemma scan2D_sees index j :
  (index < 81)%nat -> In j (scan2D index) <-> (j < 81)%nat /\ sees2D index j.
Proof.
  intros Hi. pose proof scan2D_sees_all as H.
  rewrite forallb_forall in H. specialize (H index).
  rewrite in_seq, andb_true_iff, !forallb_forall in H.
  destruct (H ltac:(lia)) as [Hlt Hsees]. clear H. split.
  - intros Hin. assert (Hj : (j < 81)%nat) by (apply Nat.ltb_lt, Hlt, Hin).
    split; [exact Hj|]. apply sees2Db_spec.
    specialize (Hsees j). rewrite in_seq in Hsees.
    apply Bool.eqb_prop in Hsees; [|lia]. rewrite <- Hsees.
    apply existsb_exists. exists j. split; [exact Hin | apply Nat.eqb_refl].
  - intros [Hj Hs]. apply sees2Db_spec in Hs.
    specialize (Hsees j). rewrite in_seq in Hsees.
    apply Bool.eqb_prop in Hsees; [|lia]. rewrite Hs in Hsees.
    apply existsb_exists in Hsees. destruct Hsees as (k & Hk & ->%Nat.eqb_eq).
    exact Hk.
Qed.

Lemma exists2D_spec base index val :
  (index < 81)%nat ->
  exists2D 9 9 base index val = false <-> absent2D base index val.
Proof.
  intros Hi. unfold absent2D.
  rewrite exists2D_scan, <- not_true_iff_false, existsb_exists. split.
  - intros H j Hj Hs E. apply H. exists j.
    split; [apply scan2D_sees; auto | now apply Z.eqb_eq].
  - intros H (j & Hin & E%Z.eqb_eq). apply scan2D_sees in Hin; [|exact Hi].
    destruct Hin as [Hj Hs]. apply (H j Hj Hs E).
Qed.

(** C7: at a location whose cell holds [v], the candidate functor returns
    the smallest value [w] with [v < w <= 9] that is absent from the whole
    array (1-D) or from the row, column and 3x3 box of the location (2-D),
    and writes it into the cell; if there is none it writes 0 and returns
    0. *)
Theorem next_candidate_least base location :
  ((getIndex location < length base)%nat ->
   candidate_spec (absent1D base) base (getIndex location)
     (NextCandidate_Sudoku1D (length base) base location))
  /\ (length base = 81%nat -> (getIndex location < 81)%nat ->
      candidate_spec (absent2D base (getIndex location)) base (getIndex location)
        (NextCandidate_Sudoku2D 9 9 base location)).
Proof.
  split.
  - intros _. apply candidate_loop_spec. intros w. apply exists1D_spec.
  - intros _ Hi. apply candidate_loop_spec. intros w. now apply exists2D_spec.
Qed.

Example candidate1D_example :
  NextCandidate_Sudoku1D 3 [0; 1; 2] (mkLocation true 0) = (3, [3; 1; 2]).
Proof. reflexivity. Qed.

Example candidate1D_exhausted :
  NextCandidate_Sudoku1D 3 [9; 1; 2] (mkLocation true 0) = (0, [0; 1; 2]).
Proof. reflexivity. Qed.

Example candidate2D_example :
  fst (NextCandidate_Sudoku2D 9 9 first_row_grid (mkLocation true 0)) = 9.
Proof. vm_compute. reflexivity. Qed.

Lemma next_candidate_least_witness :
  candidate_spec (absent1D [0; 1; 2]) [0; 1; 2] 0
    (NextCandidate_Sudoku1D 3 [0; 1; 2] (mkLocation true 0))
  /\ candidate_spec (absent2D first_row_grid 0) first_row_grid 0
       (NextCandidate_Sudoku2D 9 9 first_row_grid (mkLocation true 0)).
Proof.
  split.
  - apply (proj1 (next_candidate_least [0; 1; 2] (mkLocation true 0))).
    simpl. lia.
  - apply (proj2 (next_candidate_least first_row_grid (mkLocation true 0))).
    + reflexivity.
    + simpl. lia.
Defined.

(** * Properties of the backtracking solver *)

Section RunSteps.

Variable next_location : list Z -> Location.
Variable next_candidate : list Z -> Location -> Z * list Z.

Abbreviation solve := (solve next_location next_candidate).
Abbreviation run := (run next_location next_candidate).
Abbreviation steps := (steps next_location next_candidate).

Lemma steps_app k1 : forall k2 s s1,
  steps k1 s = Some s1 -> steps (k1 + k2) s = steps k2 s1.
Proof.
  induction k1 as [|k1 IH]; intros k2 s s1 H; simpl in *.
  - now inversion H.
  - destruct (solve s) as [[] s']; [|discriminate]. now apply IH.
Qed.

Lemma run_steps k1 : forall k2 s s1,
  steps k1 s = Some s1 -> run (k1 + k2) s = run k2 s1.
Proof.
  induction k1 as [|k1 IH]; intros k2 s s1 H; simpl in *.
  - now inversion H.
  - destruct (solve s) as [[] s']; [|discriminate]. now apply IH.
Qed.

Lemma run_short k : forall fuel s s1,
  steps k s = Some s1 -> (fuel <= k)%nat -> run fuel s = None.
Proof.
  induction k as [|k IH]; intros fuel s s1 H Hle.
  - assert (fuel = 0%nat) as -> by lia. reflexivity.
  - destruct fuel as [|fuel]; [reflexivity|]. simpl in *.
    destruct (solve s) as [[] s']; [|discriminate].
    apply (IH _ _ _ H). lia.
Qed.

(** A state that [solve] leads back to itself is never left. *)
Lemma run_cycle k s :
  (1 <= k)%nat -> steps k s = Some s -> forall fuel, run fuel s = None.
Proof.
  intros Hk Hs fuel. induction fuel as [fuel IH] using lt_wf_ind.
  destruct (le_lt_dec fuel k) as [Hle|Hgt].
  - eapply run_short; eauto.
  - replace fuel with (k + (fuel - k))%nat by lia.
    rewrite (run_steps _ _ _ _ Hs). apply IH. lia.
Qed.

Lemma run_more fuel : forall s final m,
  run fuel s = Some final -> run (fuel + m) s = Some final.
Proof.
  induction fuel as [|fuel IH]; intros s final m H; simpl in *; [discriminate|].
  destruct (solve s) as [[] s']; [now apply IH | exact H].
Qed.

End RunSteps.

(** ** The search, for any constraint scan *)

Lemma cell_insert base t w i :
  (t < length base)%nat ->
  cell (<[t := w]> base) i = if Nat.eqb i t then w else cell base i.
Proof.
  intros Hlt. unfold cell.
  destruct (Nat.eqb_spec i t) as [->|Hne].
  - rewrite nth_lookup, list_lookup_insert_eq by assumption. reflexivity.
  - rewrite !nth_lookup, list_lookup_insert_ne by congruence. reflexivity.
Qed.

Lemma cell_insert_eq base t w :
  (t < length base)%nat -> cell (<[t := w]> base) t = w.
Proof. intros H. now rewrite cell_insert, Nat.eqb_refl. Qed.

Lemma cell_insert_ne base t w i :
  (t < length base)%nat -> i <> t -> cell (<[t := w]> base) i = cell base i.
Proof.
  intros H Hne. rewrite cell_insert by assumption.
  apply Nat.eqb_neq in Hne. now rewrite Hne.
Qed.

Lemma insert_cell_id base t :
  (t < length base)%nat -> <[t := cell base t]> base = base.
Proof.
  intros Hlt. apply list_insert_id. unfold cell. rewrite nth_lookup.
  destruct (base !! t) eqn:E; [reflexivity|].
  apply lookup_ge_None in E. lia.
Qed.

Lemma first_empty_found base n loc :
  first_empty base (seq 0 n) = loc -> notFound loc = false ->
  loc = mkLocation true (index loc)
  /\ (index loc < n)%nat /\ cell base (index loc) = 0.
Proof.
  unfold first_empty. intros <-.
  destruct (List.find _ _) as [u|] eqn:F; simpl; [|discriminate].
  intros _. apply find_some in F. destruct F as [Hin E].
  apply in_seq in Hin. apply Z.eqb_eq in E. repeat split; [lia | exact E].
Qed.

Lemma first_empty_none base n :
  notFound (first_empty base (seq 0 n)) = true -> complete n base.
Proof.
  unfold first_empty.
  destruct (List.find _ _) as [u|] eqn:F; simpl; [discriminate|].
  intros _ i Hi. pose proof (find_none _ _ F i) as H.
  rewrite in_seq in H. specialize (H ltac:(lia)). now apply Z.eqb_neq.
Qed.

Lemma zeros_except_insert_same n base t w :
  (t < length base)%nat ->
  zeros_except n (<[t := w]> base) t = zeros_except n base t.
Proof.
  intros Hlt. unfold zeros_except. f_equal. apply filter_ext. intros i.
  rewrite cell_insert by assumption.
  destruct (Nat.eqb i t); reflexivity.
Qed.

Lemma zeros_except_push n base t w u :
  (t < length base)%nat -> w <> 0 -> (u < n)%nat ->
  cell (<[t := w]> base) u = 0 ->
  (zeros_except n (<[t := w]> base) u < zeros_except n base t)%nat.
Proof.
  intros Hlt Hw Hu E. unfold zeros_except.
  assert (Hut : u <> t).
  { intros ->. rewrite cell_insert_eq in E by assumption. congruence. }
  apply filter_length_lt with (x := u).
  - intros i _. rewrite cell_insert by assumption.
    destruct (Nat.eqb_spec i t) as [->|Hne]; simpl.
    + rewrite andb_true_iff, Z.eqb_eq. intros [_ C]. congruence.
    + rewrite !andb_true_iff. tauto.
  - apply in_seq. lia.
  - rewrite cell_insert_ne in E by assumption.
    apply Nat.eqb_neq in Hut. rewrite Hut, E. reflexivity.
  - now rewrite Nat.eqb_refl.
Qed.

Section Explore.

Variable n : nat.
Variable scan : list Z -> nat -> Z -> bool.
Variable sees : nat -> nat -> Prop.

Hypothesis sees_sym : forall i j, sees i j -> sees j i.
Hypothesis scan_spec :
  forall base index val,
    length base = n -> (index < n)%nat ->
    (scan base index val = false <->
     forall j, (j < n)%nat -> sees index j -> cell base j <> val).

Abbreviation solve' := (solve (gen_location n) (gen_candidate scan)).
Abbreviation run' := (run (gen_location n) (gen_candidate scan)).
Abbreviation steps' := (steps (gen_location n) (gen_candidate scan)).

Lemma solution_legal m base t :
  valid n sees m -> extends_except n t base m ->
  length base = n -> (t < n)%nat -> cell base t < cell m t ->
  scan base t (cell m t) = false.
Proof.
  intros (Hlen & Hrange & Hdistinct) Hext Hb Ht Hlt.
  apply scan_spec; [assumption..|]. intros j Hj Hs E.
  destruct (Nat.eq_dec j t) as [->|Hne]; [lia|].
  pose proof (Hrange t Ht) as Hr.
  assert (cell m j = cell base j) as Hmj by (apply Hext; auto; lia).
  apply (Hdistinct t j); auto. congruence.
Qed.

Lemma consistent_assign base t w :
  length base = n -> (t < n)%nat ->
  consistent n sees (<[t := 0]> base) -> scan base t w = false ->
  consistent n sees (<[t := w]> base).
Proof.
  intros Hb Ht Hc Hscan i j Hi Hj Hne Hs Hnz.
  pose proof (proj1 (scan_spec base t w Hb Ht) Hscan) as Hfree.
  rewrite !cell_insert in * by lia.
  destruct (Nat.eqb_spec i t) as [->|Hit]; destruct (Nat.eqb_spec j t) as [->|Hjt].
  - congruence.
  - intros E. apply (Hfree j Hj Hs). congruence.
  - intros E. apply (Hfree i Hi (sees_sym _ _ Hs)). congruence.
  - specialize (Hc i j Hi Hj Hne Hs). rewrite !cell_insert in Hc by lia.
    apply Nat.eqb_neq in Hit, Hjt. rewrite Hit, Hjt in Hc. auto.
Qed.

Lemma solve_exhaust base loc st :
  val_loop (scan base (getIndex loc))
    (Z.to_nat (9 - cell base (getIndex loc))) (cell base (getIndex loc) + 1) = None ->
  solve' (mkSolver base (loc :: st))
  = (true, mkSolver (<[getIndex loc := 0]> base) st).
Proof.
  intros H. unfold solve, solve_top, gen_candidate.
  cbn [stack map_base]. cbv zeta. rewrite H. simpl. unfold clearValue, getIndex.
  now rewrite list_insert_insert_eq.
Qed.

Lemma solve_advance base loc st w :
  val_loop (scan base (getIndex loc))
    (Z.to_nat (9 - cell base (getIndex loc))) (cell base (getIndex loc) + 1) = Some w ->
  w <> 0 ->
  solve' (mkSolver base (loc :: st))
  = let base' := <[getIndex loc := w]> base in
    let next := gen_location n base' in
    if notFound next then (false, mkSolver base' (loc :: st))
    else (true, mkSolver base' (next :: loc :: st)).
Proof.
  intros H Hw. unfold solve, solve_top, gen_candidate.
  cbn [stack map_base]. cbv zeta. rewrite H. simpl.
  apply Z.eqb_neq in Hw. rewrite Hw. reflexivity.
Qed.

Lemma extends_except_insert base t w m :
  length base = n -> (t < n)%nat ->
  extends_except n t (<[t := w]> base) m -> extends_except n t base m.
Proof.
  intros Hb Ht H i Hi Hne Hnz. rewrite <- (cell_insert_ne base t w i) by lia.
  apply H; auto. rewrite cell_insert_ne by lia. exact Hnz.
Qed.

(** The heart of the argument.  From a state whose stack has [loc] on top,
    some number [k] of calls of [solve] either ends the run with a full
    map, or pops [loc] and leaves its cell empty and its stack as it was
    below, and then nothing larger at [loc] leads to a finished puzzle. *)
Lemma explore z :
  forall v9 base loc st,
    length base = n -> (getIndex loc < n)%nat ->
    0 <= cell base (getIndex loc) ->
    (zeros_except n base (getIndex loc) <= z)%nat ->
    (Z.to_nat (9 - cell base (getIndex loc)) <= v9)%nat ->
    exists k, (1 <= k)%nat /\
      ((exists final,
          run' k (mkSolver base (loc :: st)) = Some final
          /\ good_final n sees base (getIndex loc) (map_base final))
       \/ (steps' k (mkSolver base (loc :: st))
           = Some (mkSolver (<[getIndex loc := 0]> base) st)
           /\ dead_end n sees base (getIndex loc))).
Proof.
  induction z as [z IHz] using lt_wf_ind.
  induction v9 as [v9 IHv] using lt_wf_ind.
  intros base loc st Hb Ht Hv Hz Hv9.
  set (t := getIndex loc) in *.
  pose proof (val_loop_spec (scan base t) (Z.to_nat (9 - cell base t))
                (cell base t + 1)) as Hloop.
  destruct (val_loop (scan base t) (Z.to_nat (9 - cell base t)) (cell base t + 1))
    as [w|] eqn:Eloop.
  - (* a candidate [w] is written *)
    destruct Hloop as (Hw & Hscan & Hbelow).
    assert (Hw0 : w <> 0) by lia.
    assert (Hw9 : cell base t < w <= 9) by lia.
    pose proof (solve_advance base loc st w Eloop Hw0) as Hsolve.
    fold t in Hsolve. cbv zeta in Hsolve.
    set (base' := <[t := w]> base) in *.
    assert (Hb' : length base' = n) by (unfold base'; now rewrite length_insert).
    assert (Hcons : consistent n sees (<[t := 0]> base) -> consistent n sees base')
      by (intros Hc; now apply consistent_assign).
    assert (Hrange : in_range n base -> in_range n base').
    { intros Hr i Hi. unfold base'. rewrite cell_insert by lia.
      destruct (Nat.eqb i t); [lia | now apply Hr]. }
    assert (Hsmall : forall m, valid n sees m -> extends_except n t base m ->
              cell base t < cell m t -> ~ cell m t < w).
    { intros m Hm Hext Hlt Hmw.
      pose proof (solution_legal m base t Hm Hext Hb Ht Hlt) as Hlegal.
      rewrite Hbelow in Hlegal by lia. discriminate. }
    remember (gen_location n base') as next eqn:Enext.
    destruct (notFound next) eqn:Hnf.
    + (* the map is full *)
      exists 1%nat. split; [lia|]. left. eexists. split.
      * simpl. rewrite Hsolve. reflexivity.
      * simpl. split; [exact Hb'|].
        split; [subst next; now apply first_empty_none|].
        split; [|split; [|split]]; auto.
        -- intros i Hi Hne _. unfold base'. now rewrite cell_insert_ne by lia.
        -- unfold base'. rewrite cell_insert_eq by lia. lia.
    + (* the next empty cell [u] is pushed *)
      destruct (first_empty_found base' n next (eq_sym Enext) Hnf)
        as (Hnext & Hu & Hu0).
      remember (index next) as u eqn:Eu.
      assert (Hgi : getIndex next = u) by (unfold getIndex; congruence).
      assert (Hut : u <> t).
      { intros E. rewrite E in Hu0. unfold base' in Hu0.
        rewrite cell_insert_eq in Hu0 by lia. lia. }
      assert (Hstep : steps' 1 (mkSolver base (loc :: st))
                      = Some (mkSolver base' (next :: loc :: st))).
      { simpl. rewrite Hsolve. reflexivity. }
      assert (Hz' : (zeros_except n base' u < z)%nat).
      { pose proof (zeros_except_push n base t w u ltac:(lia) Hw0 Hu Hu0) as Hp.
        fold base' in Hp. lia. }
      destruct (IHz (zeros_except n base' u) Hz' (Z.to_nat 9) base' next (loc :: st))
        as (k1 & Hk1 & [(final & Hrun & Hgood) | (Hback & Hdead)]);
        rewrite ?Hgi, ?Hu0; try assumption; try lia;
        rewrite ?Hgi in *.
      * (* the run ends below [u] *)
        exists (1 + k1)%nat. split; [lia|]. left. exists final. split.
        -- rewrite (run_steps _ _ _ _ _ _ Hstep). exact Hrun.
        -- destruct Hgood as (Hlen & Hfull & Hext & _ & Hr & Hc).
           assert (Hft : cell (map_base final) t = w).
           { rewrite (Hext t Ht ltac:(congruence)); unfold base';
               rewrite cell_insert_eq by lia; [reflexivity | exact Hw0]. }
           split; [exact Hlen|]. split; [exact Hfull|].
           split; [|split; [lia|split]].
           ++ intros i Hi Hne Hnz.
              destruct (Nat.eq_dec i u) as [->|Hiu].
              ** unfold base' in Hu0. rewrite cell_insert_ne in Hu0 by lia.
                 congruence.
              ** rewrite (Hext i Hi Hiu); unfold base';
                   rewrite cell_insert_ne by lia; [reflexivity | exact Hnz].
           ++ auto.
           ++ intros Hc0. apply Hc. rewrite <- Hu0.
              rewrite insert_cell_id by lia. auto.
      * (* back on [loc], now holding [w] *)
        rewrite <- Hu0 in Hback. rewrite insert_cell_id in Hback by lia.
        assert (Hnone : forall m, valid n sees m -> extends_except n t base m ->
                  cell m t <> w).
        { intros m Hm Hext E. apply (Hdead m Hm).
          - intros i Hi Hne Hnz. unfold base' in *.
            destruct (Nat.eq_dec i t) as [->|Hit].
            + rewrite cell_insert_eq by lia. exact E.
            + rewrite cell_insert_ne in * by lia. now apply Hext.
          - rewrite Hu0. destruct Hm as (_ & Hr & _). specialize (Hr u Hu). lia. }
        destruct (IHv (Z.to_nat (9 - w))) with
          (base := base') (loc := loc) (st := st)
          as (k2 & Hk2 & [(final & Hrun & Hgood) | (Hpop & Hdead2)]);
          try assumption; fold t; unfold base';
          rewrite ?cell_insert_eq, ?zeros_except_insert_same by lia; try lia.
        -- exists (1 + (k1 + k2))%nat. split; [lia|]. left. exists final. split.
           ++ rewrite (run_steps _ _ _ _ _ _ Hstep).
              rewrite (run_steps _ _ _ _ _ _ Hback). exact Hrun.
           ++ fold t base' in Hgood.
              destruct Hgood as (Hlen & Hfull & Hext & Hlt & Hr & Hc).
              unfold base' in Hlt. rewrite cell_insert_eq in Hlt by lia.
              split; [exact Hlen|]. split; [exact Hfull|].
              split; [|split; [lia|split]].
              ** eapply extends_except_insert; eauto.
              ** auto.
              ** intros Hc0. apply Hc. unfold base'.
                 now rewrite list_insert_insert_eq.
        -- exists (1 + (k1 + k2))%nat. split; [lia|]. right. split.
           ++ rewrite (steps_app _ _ _ _ _ _ Hstep).
              rewrite (steps_app _ _ _ _ _ _ Hback).
              fold t base' in Hpop. rewrite Hpop. unfold base'.
              now rewrite list_insert_insert_eq.
           ++ fold t base' in Hdead2. intros m Hm Hext Hlt.
              destruct (Z.lt_trichotomy (cell m t) w) as [C|[C|C]].
              ** exact (Hsmall m Hm Hext Hlt C).
              ** exact (Hnone m Hm Hext C).
              ** apply (Hdead2 m Hm).
                 --- intros i Hi Hne Hnz. unfold base' in *.
                     rewrite cell_insert_ne in * by lia. now apply Hext.
                 --- unfold base'. rewrite cell_insert_eq by lia. exact C.
  - (* no candidate: the cell is emptied and [loc] popped *)
    exists 1%nat. split; [lia|]. right. split.
    + simpl. rewrite (solve_exhaust base loc st Eloop). reflexivity.
    + intros m Hm Hext Hlt.
      pose proof (solution_legal m base t Hm Hext Hb Ht Hlt) as Hlegal.
      destruct Hm as (_ & Hr & _). specialize (Hr t Ht).
      rewrite Hloop in Hlegal by lia. discriminate.
Qed.

Lemma solve_empty_stack base loc :
  gen_location n base = loc -> notFound loc = false ->
  solve' (mkSolver base []) = solve' (mkSolver base [loc]).
Proof.
  intros E Hnf. unfold solve. cbn [stack map_base]. now rewrite E, Hnf.
Qed.

Lemma steps_empty_stack base loc k :
  gen_location n base = loc -> notFound loc = false -> (1 <= k)%nat ->
  steps' k (mkSolver base []) = steps' k (mkSolver base [loc]).
Proof.
  intros E Hnf Hk. destruct k as [|k]; [lia|]. simpl.
  now rewrite (solve_empty_stack base loc E Hnf).
Qed.

Lemma run_empty_stack base loc k :
  gen_location n base = loc -> notFound loc = false ->
  run' k (mkSolver base []) = run' k (mkSolver base [loc]).
Proof.
  intros E Hnf. destruct k as [|k]; [reflexivity|]. simpl.
  now rewrite (solve_empty_stack base loc E Hnf).
Qed.

Lemma extends_in_range base m :
  valid n sees m -> extends n base m -> in_range n base.
Proof.
  intros (_ & Hr & _) Hext i Hi.
  destruct (Z.eq_dec (cell base i) 0) as [->|Hnz]; [lia|].
  rewrite <- (Hext i Hi Hnz). specialize (Hr i Hi). lia.
Qed.

Lemma extends_consistent base m :
  valid n sees m -> extends n base m -> consistent n sees base.
Proof.
  intros (_ & _ & Hd) Hext i j Hi Hj Hne Hs Hnz E.
  apply (Hd i j Hi Hj Hne Hs).
  rewrite (Hext i Hi Hnz), (Hext j Hj ltac:(congruence)). exact E.
Qed.

Lemma full_consistent_valid m :
  length m = n -> complete n m -> in_range n m -> consistent n sees m ->
  valid n sees m.
Proof.
  intros Hlen Hfull Hr Hc. split; [exact Hlen|]. split.
  - intros i Hi. specialize (Hfull i Hi). specialize (Hr i Hi). lia.
  - intros i j Hi Hj Hne Hs. apply Hc; auto.
Qed.

(** On a solvable map [run] returns, and the map it leaves is a finished
    puzzle that keeps the given cells. *)
Theorem run_solves base :
  length base = n -> solvable n sees base ->
  exists fuel final,
    run' fuel (mkSolver base []) = Some final
    /\ valid n sees (map_base final)
    /\ extends n base (map_base final).
Proof.
  intros Hb (m & Hm & Hext).
  pose proof (extends_in_range base m Hm Hext) as Hrange.
  pose proof (extends_consistent base m Hm Hext) as Hcons.
  remember (gen_location n base) as loc eqn:Eloc.
  destruct (notFound loc) eqn:Hnf.
  - (* nothing to solve *)
    exists 1%nat, (mkSolver base []). split.
    + simpl. unfold solve. cbn [stack map_base]. now rewrite <- Eloc, Hnf.
    + simpl. split; [|intros i _ _; reflexivity].
      apply full_consistent_valid; auto.
      subst loc. now apply first_empty_none.
  - destruct (first_empty_found base n loc (eq_sym Eloc) Hnf) as (_ & Ht & Ht0).
    change (index loc) with (getIndex loc) in *.
    destruct (explore (zeros_except n base (getIndex loc))
                (Z.to_nat (9 - cell base (getIndex loc))) base loc [])
      as (k & Hk & [(final & Hrun & Hgood) | (_ & Hdead)]);
      try assumption; try lia.
    + exists k, final. split.
      * rewrite (run_empty_stack base loc k (eq_sym Eloc) Hnf). exact Hrun.
      * destruct Hgood as (Hlen & Hfull & Hexc & _ & Hr & Hc).
        split.
        -- apply full_consistent_valid; auto. apply Hc.
           rewrite <- Ht0. rewrite insert_cell_id by lia. exact Hcons.
        -- intros i Hi Hnz. apply Hexc; auto. intros ->. congruence.
    + exfalso. apply (Hdead m Hm).
      * intros i Hi _ Hnz. now apply Hext.
      * rewrite Ht0. destruct Hm as (_ & Hr & _). specialize (Hr _ Ht). lia.
Qed.

(** On a map with an empty cell, consistent given cells and no finished
    puzzle that keeps them, [run] never returns: once the first location
    is exhausted the stack is empty and the map is as it was at the start,
    so the next call of [solve] starts the same search again. *)
Theorem run_diverges base :
  length base = n -> in_range n base -> consistent n sees base ->
  ~ complete n base -> ~ solvable n sees base ->
  forall fuel, run' fuel (mkSolver base []) = None.
Proof.
  intros Hb Hrange Hcons Hempty Hunsolvable.
  remember (gen_location n base) as loc eqn:Eloc.
  destruct (notFound loc) eqn:Hnf.
  { exfalso. apply Hempty. subst loc. now apply first_empty_none. }
  destruct (first_empty_found base n loc (eq_sym Eloc) Hnf) as (_ & Ht & Ht0).
  change (index loc) with (getIndex loc) in *.
  destruct (explore (zeros_except n base (getIndex loc))
              (Z.to_nat (9 - cell base (getIndex loc))) base loc [])
    as (k & Hk & [(final & Hrun & Hgood) | (Hback & _)]);
    try assumption; try lia.
  - exfalso. apply Hunsolvable. exists (map_base final).
    destruct Hgood as (Hlen & Hfull & Hexc & _ & Hr & Hc). split.
    + apply full_consistent_valid; auto. apply Hc.
      rewrite <- Ht0. rewrite insert_cell_id by lia. exact Hcons.
    + intros i Hi Hnz. apply Hexc; auto. intros ->. congruence.
  - apply (run_cycle _ _ k); [exact Hk|].
    rewrite (steps_empty_stack base loc k (eq_sym Eloc) Hnf Hk), Hback.
    rewrite <- Ht0. now rewrite insert_cell_id by lia.
Qed.

End Explore.

(** ** The two Sudoku solvers *)

Lemma sees1D_sym i j : sees1D i j -> sees1D j i.
Proof. auto. Qed.

Lemma scan1D_spec n base (index : nat) val :
  length base = n -> (index < n)%nat ->
  exists1D n base val = false <->
  forall j, (j < n)%nat -> sees1D index j -> cell base j <> val.
Proof.
  intros <- _. rewrite exists1D_spec. unfold absent1D, sees1D. firstorder.
Qed.

Lemma sees2D_sym i j : sees2D i j -> sees2D j i.
Proof. unfold sees2D. intuition congruence. Qed.

Lemma scan2D_spec base index val :
  length base = 81%nat -> (index < 81)%nat ->
  exists2D 9 9 base index val = false <->
  forall j, (j < 81)%nat -> sees2D index j -> cell base j <> val.
Proof. intros _ Hi. now apply exists2D_spec. Qed.

Lemma Backtracking1D_gen fuel base :
  Backtracking1D fuel base
  = run (gen_location (length base))
        (gen_candidate (fun b _ v => exists1D (length base) b v))
        fuel (mkSolver base []).
Proof. reflexivity. Qed.

Lemma row_major_9_9 : row_major 9 9 = seq 0 81.
Proof. reflexivity. Qed.

Lemma Backtracking2D_gen fuel base :
  Backtracking2D 9 9 fuel base
  = run (gen_location 81) (gen_candidate (exists2D 9 9)) fuel (mkSolver base []).
Proof.
  unfold Backtracking2D, NextLocation_Sudoku2D, gen_location.
  rewrite row_major_9_9. reflexivity.
Qed.

(** In the 1-D puzzle a finished map has no duplicate at all. *)
Lemma valid1D_NoDup m : valid (length m) sees1D m -> List.NoDup m.
Proof.
  intros (_ & _ & Hd). apply (List.NoDup_nth m 0). intros i j Hi Hj E.
  destruct (Nat.eq_dec i j) as [|Hne]; [assumption|].
  exfalso. apply (Hd i j Hi Hj Hne I). exact E.
Qed.

Lemma valid2Db_sound m : valid2Db m = true -> valid 81 sees2D m.
Proof.
  unfold valid2Db. rewrite !andb_true_iff, !forallb_forall.
  intros [[Hlen Hr] Hd]. apply Nat.eqb_eq in Hlen. split; [exact Hlen|]. split.
  - intros i Hi. specialize (Hr i). rewrite in_seq, andb_true_iff in Hr.
    destruct (Hr ltac:(lia)) as [H1 H9]. lia.
  - intros i j Hi Hj Hne Hs E. specialize (Hd i). rewrite in_seq in Hd.
    specialize (Hd ltac:(lia)). rewrite forallb_forall in Hd.
    specialize (Hd j). rewrite in_seq in Hd. specialize (Hd ltac:(lia)).
    apply sees2Db_spec in Hs. apply Nat.eqb_neq in Hne. apply Z.eqb_eq in E.
    rewrite Hne, Hs, E in Hd. discriminate.
Qed.

Lemma extendsb_sound n base m : extendsb n base m = true -> extends n base m.
Proof.
  unfold extendsb. rewrite forallb_forall. intros H i Hi Hnz.
  specialize (H i). rewrite in_seq in H. specialize (H ltac:(lia)).
  apply orb_true_iff in H. destruct H as [H|H]; lia.
Qed.

(** C2: on a solvable Sudoku map, 1-D or 2-D, [run] returns, and then every
    cell holds a value in 1..9 with no value twice in the whole array (1-D)
    or in any row, column or 3x3 box (2-D).  The map returned also keeps the
    cells that were given. *)
Theorem backtracking_solves base :
  (solvable (length base) sees1D base ->
   exists fuel final,
     Backtracking1D fuel base = Some final
     /\ valid (length base) sees1D (map_base final)
     /\ List.NoDup (map_base final)
     /\ extends (length base) base (map_base final))
  /\ (length base = 81%nat -> solvable 81 sees2D base ->
      exists fuel final,
        Backtracking2D 9 9 fuel base = Some final
        /\ valid 81 sees2D (map_base final)
        /\ extends 81 base (map_base final)).
Proof.
  split.
  - intros Hs.
    destruct (run_solves (length base) (fun b _ v => exists1D (length base) b v)
                sees1D sees1D_sym (scan1D_spec (length base)) base eq_refl Hs)
      as (fuel & final & Hrun & Hvalid & Hext).
    exists fuel, final. rewrite Backtracking1D_gen.
    split; [exact Hrun|]. split; [exact Hvalid|]. split; [|exact Hext].
    apply valid1D_NoDup. destruct Hvalid as (Hlen & ?). rewrite Hlen.
    split; [exact Hlen | assumption].
  - intros Hlen Hs.
    destruct (run_solves 81 (exists2D 9 9) sees2D sees2D_sym scan2D_spec
                base Hlen Hs)
      as (fuel & final & Hrun & Hvalid & Hext).
    exists fuel, final. rewrite Backtracking2D_gen. auto.
Qed.

Example puzzle_grid_solved :
  option_map map_base (Backtracking2D 9 9 13 puzzle_grid) = Some solved_grid.
Proof. vm_compute. reflexivity. Qed.

Lemma puzzle_grid_solvable : solvable 81 sees2D puzzle_grid.
Proof.
  exists solved_grid. split.
  - apply valid2Db_sound. vm_compute. reflexivity.
  - apply (extendsb_sound 81). vm_compute. reflexivity.
Qed.

Lemma three_cells_solvable : solvable 3 sees1D [0; 0; 0].
Proof.
  exists [1; 2; 3]. split; [split; [reflexivity|split]|].
  - intros [|[|[|i]]] Hi; unfold cell; simpl; lia.
  - intros [|[|[|i]]] [|[|[|j]]] Hi Hj Hne _; unfold cell; simpl; lia.
  - intros i Hi Hnz. destruct i as [|[|[|i]]]; [| | |lia];
      exfalso; apply Hnz; reflexivity.
Qed.

Lemma backtracking_solves_witness :
  (exists fuel final,
     Backtracking1D fuel [0; 0; 0] = Some final
     /\ valid 3 sees1D (map_base final)
     /\ List.NoDup (map_base final)
     /\ extends 3 [0; 0; 0] (map_base final))
  /\ (exists fuel final,
        Backtracking2D 9 9 fuel puzzle_grid = Some final
        /\ valid 81 sees2D (map_base final)
        /\ extends 81 puzzle_grid (map_base final)).
Proof.
  split.
  - exact (proj1 (backtracking_solves [0; 0; 0]) three_cells_solvable).
  - exact (proj2 (backtracking_solves puzzle_grid) eq_refl puzzle_grid_solvable).
Defined.

(** ** Maps without a solution *)

(** On a map (1-D or 2-D) that has an empty cell, whose given cells are in
    0..9 and consistent, and that no finished puzzle extends, [run] does not
    return, whatever the fuel. *)
Theorem backtracking_restarts_forever base :
  (in_range (length base) base -> consistent (length base) sees1D base ->
   ~ complete (length base) base -> ~ solvable (length base) sees1D base ->
   forall fuel, Backtracking1D fuel base = None)
  /\ (length base = 81%nat ->
      in_range 81 base -> consistent 81 sees2D base ->
      ~ complete 81 base -> ~ solvable 81 sees2D base ->
      forall fuel, Backtracking2D 9 9 fuel base = None).
Proof.
  split.
  - intros Hr Hc He Hu fuel. rewrite Backtracking1D_gen.
    exact (run_diverges (length base) (fun b _ v => exists1D (length base) b v)
             sees1D sees1D_sym (scan1D_spec (length base)) base eq_refl
             Hr Hc He Hu fuel).
  - intros Hlen Hr Hc He Hu fuel. rewrite Backtracking2D_gen.
    exact (run_diverges 81 (exists2D 9 9) sees2D sees2D_sym scan2D_spec
             base Hlen Hr Hc He Hu fuel).
Qed.

Lemma ten_cells_unsolvable : ~ solvable 10 sees1D ten_cells.
Proof.
  intros (m & (_ & Hr & Hd) & Hext).
  assert (Hgiven : forall i, (i < 9)%nat -> cell m i = cell ten_cells i).
  { intros i Hi. apply Hext; [lia|].
    do 9 (destruct i as [|i]; [unfold cell; simpl; lia|]). lia. }
  pose proof (Hr 9%nat ltac:(lia)) as H9.
  assert (Hk : exists k, (k < 9)%nat /\ cell m 9 = cell ten_cells k).
  { exists (Z.to_nat (cell m 9 - 1)). split; [lia|].
    assert (E : cell m 9 = 1 \/ cell m 9 = 2 \/ cell m 9 = 3 \/ cell m 9 = 4
                \/ cell m 9 = 5 \/ cell m 9 = 6 \/ cell m 9 = 7 \/ cell m 9 = 8
                \/ cell m 9 = 9) by lia.
    repeat (destruct E as [E|E]); rewrite E; reflexivity. }
  destruct Hk as (k & Hk & E).
  apply (Hd k 9%nat); [lia | lia | lia | exact I |].
  rewrite Hgiven by lia. congruence.
Qed.

Lemma stuck_grid_unsolvable : ~ solvable 81 sees2D stuck_grid.
Proof.
  intros (m & (_ & Hr & Hd) & Hext).
  assert (Hrow : forall i, (1 <= i < 9)%nat -> cell m i = Z.of_nat i + 1).
  { intros i Hi. rewrite Hext; [| lia |];
      do 9 (destruct i as [|i]; [unfold cell; simpl; lia|]); lia. }
  assert (Hcol : cell m 9 = 1) by (rewrite Hext; [reflexivity | lia | discriminate]).
  pose proof (Hr 0%nat ltac:(lia)) as H0.
  destruct (Z.eq_dec (cell m 0) 1) as [E1|N1].
  - apply (Hd 0%nat 9%nat); [lia | lia | lia | | congruence].
    apply sees2Db_spec. reflexivity.
  - assert (Hk : (1 <= Z.to_nat (cell m 0 - 1) < 9)%nat) by lia.
    apply (Hd 0%nat (Z.to_nat (cell m 0 - 1))); [lia | lia | lia | |].
    + left. unfold row_of. rewrite !Nat.div_small by lia. reflexivity.
    + rewrite (Hrow (Z.to_nat (cell m 0 - 1))) by lia. lia.
Qed.

(** C3 (what the code does): on these two maps, which have no valid
    completion, one call of [solve] leads from the initial state back to the
    initial state, so [run] never returns. *)
Theorem unsolvable_maps_loop :
  (~ solvable 10 sees1D ten_cells /\ forall fuel, Backtracking1D fuel ten_cells = None)
  /\ (~ solvable 81 sees2D stuck_grid
      /\ forall fuel, Backtracking2D 9 9 fuel stuck_grid = None).
Proof.
  split; (split; [auto using ten_cells_unsolvable, stuck_grid_unsolvable|]).
  - intros fuel. unfold Backtracking1D.
    apply (run_cycle _ _ 1); [lia | vm_compute; reflexivity].
  - intros fuel. unfold Backtracking2D.
    apply (run_cycle _ _ 1); [lia | vm_compute; reflexivity].
Qed.

(** The step that starts the loop: [solve] answers true although nothing is
    left to try, and the solver is back in its initial state. *)
Example solve_restarts_ten_cells :
  solve (NextLocation_Sudoku1D 10) (NextCandidate_Sudoku1D 10)
        (mkSolver ten_cells [])
  = (true, mkSolver ten_cells []).
Proof. reflexivity. Qed.

(** With given cells that contradict each other [run] does return, on a
    full map that is no finished puzzle. *)
Example inconsistent_givens :
  option_map map_base (Backtracking1D 5 [1; 1; 0]) = Some [1; 1; 2].
Proof. reflexivity. Qed.

(** * Properties of [Move::at] *)

Lemma to_int_small z : 0 <= z < 2 ^ 31 -> Store.to_int z = z.
Proof.
  intros Hz. unfold Store.to_int.
  rewrite Z.mod_small by lia. lia.
Qed.

Lemma reach_dummy_intact h :
  Store.dummy_intact h -> Store.dummy_intact (Store.reach_dummy h).
Proof.
  unfold Store.dummy_intact, Store.reach_dummy. intros H d.
  destruct (Store.dummy h) eqn:E; simpl.
  - rewrite E. apply H.
  - intros [= <-]. repeat split.
Qed.

Lemma reach_dummy_lookup h :
  exists d, Store.lookup (Store.reach_dummy h) Store.Dummy = Some d.
Proof.
  unfold Store.reach_dummy. destruct (Store.dummy h) eqn:E; simpl; eauto.
Qed.

Lemma reach_dummy_idem h :
  Store.reach_dummy (Store.reach_dummy h) = Store.reach_dummy h.
Proof.
  unfold Store.reach_dummy. destruct (Store.dummy h) eqn:E; simpl.
  - now rewrite E.
  - reflexivity.
Qed.

Lemma reach_dummy_keeps h n :
  Store.lookup (Store.reach_dummy h) (Store.Dyn n) = Store.lookup h (Store.Dyn n).
Proof. unfold Store.reach_dummy. destruct (Store.dummy h); reflexivity. Qed.

(** The only mutator of the class keeps the dummy's other members. *)
Lemma setSpotIndex_intact h this i h' :
  Store.dummy_intact h -> Store.setSpotIndex h this i = Some h' ->
  Store.dummy_intact h'.
Proof.
  unfold Store.setSpotIndex, Store.dummy_intact. intros H.
  destruct (Store.lookup h this) as [m|] eqn:E; [|discriminate].
  intros [= <-] d. destruct this as [|n]; simpl in *.
  - intros [= <-]. simpl. apply H. exact E.
  - apply H.
Qed.

(** C8: [at(i)] with [0 <= i < number of children] refers to the i-th
    child.  With any other [i] it refers to the static dummy, which has score
    0, no children and [bestMove] -1; the store's other objects are as
    before, and every later out-of-range access, on any node, refers to that
    same object. *)
Theorem at_child_or_shared_dummy h this m i :
  Store.lookup h this = Some m ->
  Store.dummy_intact h ->
  Z.of_nat (length (Store.o_next m)) < 2 ^ 31 ->
  (0 <= i < Z.of_nat (length (Store.o_next m)) ->
   exists child,
     Store.o_next m !! Z.to_nat i = Some child
     /\ Store.at_ h this i = Some (h, child))
  /\ (~ (0 <= i < Z.of_nat (length (Store.o_next m))) ->
      exists h' d,
        Store.at_ h this i = Some (h', Store.Dummy)
        /\ Store.lookup h' Store.Dummy = Some d
        /\ Store.o_score d = 0 /\ Store.o_next d = [] /\ Store.o_bestMove d = -1
        /\ Store.dyn h' = Store.dyn h
        /\ forall this2 m2 i2,
             Store.lookup h' this2 = Some m2 ->
             ~ (0 <= i2 < Store.to_int (Z.of_nat (length (Store.o_next m2)))) ->
             Store.at_ h' this2 i2 = Some (h', Store.Dummy)).
Proof.
  intros Hm Hint Hlen. unfold Store.at_. rewrite Hm.
  rewrite to_int_small by lia. split.
  - intros Hi.
    destruct (Store.o_next m !! Z.to_nat i) as [child|] eqn:E.
    + exists child. split; [reflexivity|].
      replace ((0 <=? i) && (i <? Z.of_nat (length (Store.o_next m)))) with true
        by (symmetry; apply andb_true_iff; lia).
      reflexivity.
    + apply lookup_ge_None in E. lia.
  - intros Hi.
    replace ((0 <=? i) && (i <? Z.of_nat (length (Store.o_next m)))) with false
      by (symmetry; apply andb_false_iff; lia).
    destruct (reach_dummy_lookup h) as [d Hd].
    exists (Store.reach_dummy h), d. split; [reflexivity|]. split; [exact Hd|].
    destruct (reach_dummy_intact h Hint d Hd) as (Hs & Hn & Hb).
    repeat (split; [assumption|]). split.
    + unfold Store.reach_dummy. destruct (Store.dummy h); reflexivity.
    + intros this2 m2 i2 Hm2 Hi2. rewrite Hm2.
      replace ((0 <=? i2) && (i2 <? Store.to_int (Z.of_nat (length (Store.o_next m2)))))
        with false by (symmetry; apply andb_false_iff; lia).
      now rewrite reach_dummy_idem.
Qed.

Lemma at_child_or_shared_dummy_witness :
  (exists child,
     [Store.Dyn 1] !! Z.to_nat 0 = Some child
     /\ Store.at_ two_nodes (Store.Dyn 0) 0 = Some (two_nodes, child))
  /\ (exists h' d,
        Store.at_ two_nodes (Store.Dyn 0) 7 = Some (h', Store.Dummy)
        /\ Store.lookup h' Store.Dummy = Some d
        /\ Store.o_score d = 0 /\ Store.o_next d = [] /\ Store.o_bestMove d = -1
        /\ Store.dyn h' = Store.dyn two_nodes
        /\ forall this2 m2 i2,
             Store.lookup h' this2 = Some m2 ->
             ~ (0 <= i2 < Store.to_int (Z.of_nat (length (Store.o_next m2)))) ->
             Store.at_ h' this2 i2 = Some (h', Store.Dummy)).
Proof.
  assert (Hm : Store.lookup two_nodes (Store.Dyn 0)
               = Some (Store.mkObj Grid.empty 0 [Store.Dyn 1] 0 (-1)))
    by reflexivity.
  assert (Hint : Store.dummy_intact two_nodes) by (intros d; discriminate).
  split.
  - apply (proj1 (at_child_or_shared_dummy two_nodes (Store.Dyn 0) _ 0 Hm Hint
                    ltac:(simpl; lia))).
    simpl. lia.
  - apply (proj2 (at_child_or_shared_dummy two_nodes (Store.Dyn 0) _ 7 Hm Hint
                    ltac:(simpl; lia))).
    simpl. lia.
Defined.

(** * Properties of the tree serialization *)

(** Induction on trees that reaches the children. *)
Lemma Node_ind' (P : Node -> Prop) :
  (forall v cs, Forall P cs -> P (mkNode v cs)) -> forall t, P t.
Proof.
  intros H. fix IH 1. intros [v cs]. apply H.
  induction cs as [|c cs IHcs]; constructor; [apply IH | exact IHcs].
Qed.

Lemma skipws_app ws b : all_space ws -> skipws (ws ++ b) = skipws b.
Proof.
  induction 1 as [|c ws Hc _ IH]; simpl; [reflexivity|]. now rewrite Hc.
Qed.

Lemma skipws_head c b : isspace c = false -> skipws (c :: b) = c :: b.
Proof. intros H. simpl. now rewrite H. Qed.

Lemma span_token p tok c rest :
  Forall (fun a => p a = true) tok -> p c = false ->
  span p (tok ++ c :: rest) = (tok, c :: rest).
Proof.
  intros Htok Hc. induction Htok as [|a tok Ha _ IH]; simpl.
  - now rewrite Hc.
  - now rewrite Ha, IH.
Qed.

Lemma read_string_token ws v rest :
  all_space ws -> v <> [] -> no_space v ->
  read_string (mkIstream (ws ++ v ++ " "%char :: rest) false)
  = (mkIstream (" "%char :: rest) false, Some v).
Proof.
  intros Hws Hne Hv. unfold read_string. simpl fail. simpl buf.
  rewrite skipws_app by assumption.
  destruct v as [|c v]; [congruence|]. inversion Hv; subst.
  change ((c :: v) ++ " "%char :: rest) with (c :: (v ++ " "%char :: rest)).
  rewrite skipws_head by assumption.
  change (c :: (v ++ " "%char :: rest)) with ((c :: v) ++ " "%char :: rest).
  rewrite span_token; [reflexivity| |reflexivity].
  eapply Forall_impl; [exact Hv|]. intros a Ha. simpl. now rewrite Ha.
Qed.

Lemma read_char_after_space ws c rest ch :
  all_space ws -> isspace c = false ->
  read_char (mkIstream (ws ++ c :: rest) false) ch = (mkIstream rest false, c).
Proof.
  intros Hws Hc. unfold read_char. simpl fail. simpl buf.
  rewrite skipws_app by assumption. now rewrite skipws_head by assumption.
Qed.

(** ** Decimal digits *)

Lemma digits_of_isdigit d : Forall (fun c => isdigit c = true) (digits_of d).
Proof.
  unfold digits_of. induction d; simpl; constructor; auto.
Qed.

Lemma digits_of_fold d :
  forall acc,
    fold_left (fun a c => a * 10 + digit_value c) (digits_of d) (Z.of_nat acc)
    = Z.of_nat (Nat.of_uint_acc d acc).
Proof.
  unfold digits_of. induction d; intros acc;
    cbn [Nat.of_uint_acc NilEmpty.string_of_uint list_ascii_of_string fold_left];
    [reflexivity|..];
    rewrite <- IHd; f_equal; unfold digit_value;
    rewrite Nat.tail_mul_spec; vm_compute (nat_of_ascii _);
    lia.
Qed.

Lemma to_uint_nonempty k : digits_of (Nat.to_uint k) <> [].
Proof.
  intros E. destruct k as [|k]; [discriminate E|].
  pose proof (DecimalNat.Unsigned.of_to (S k)) as H.
  destruct (Nat.to_uint (S k)); try discriminate E.
  discriminate H.
Qed.

Lemma digits_value_write_size k : digits_value (write_size k) = Z.of_nat k.
Proof.
  unfold digits_value, write_size. fold (digits_of (Nat.to_uint k)).
  change 0 with (Z.of_nat 0). rewrite digits_of_fold.
  change (Nat.of_uint_acc (Nat.to_uint k) 0) with (Nat.of_uint (Nat.to_uint k)).
  now rewrite DecimalNat.Unsigned.of_to.
Qed.

Lemma isdigit_not_space c : isdigit c = true -> isspace c = false.
Proof.
  unfold isdigit, isspace. intros H. apply andb_true_iff in H.
  destruct H as [H1 H2]. apply Nat.leb_le in H1, H2.
  apply orb_false_iff. split.
  - apply andb_false_iff. right. apply Nat.leb_gt. lia.
  - apply Nat.eqb_neq. lia.
Qed.

Lemma isdigit_not_sign c :
  isdigit c = true -> Ascii.eqb c "-" = false /\ Ascii.eqb c "+" = false.
Proof.
  intros H. split; apply Ascii.eqb_neq; intros ->; discriminate H.
Qed.

Lemma read_int_size ws k rest old :
  all_space ws -> Z.of_nat k <= INT_MAX ->
  read_int (mkIstream (ws ++ write_size k ++ " "%char :: rest) false) old
  = (mkIstream (" "%char :: rest) false, Z.of_nat k).
Proof.
  intros Hws Hk. unfold read_int. simpl fail. simpl buf.
  rewrite skipws_app by assumption.
  pose proof (digits_of_isdigit (Nat.to_uint k)) as Hd.
  pose proof (to_uint_nonempty k) as Hne.
  pose proof (digits_value_write_size k) as Hval.
  unfold write_size in *. fold (digits_of (Nat.to_uint k)) in *.
  destruct (digits_of (Nat.to_uint k)) as [|c ds] eqn:E; [congruence|].
  inversion Hd as [|? ? Hc Hds]; subst.
  change ((c :: ds) ++ " "%char :: rest) with (c :: (ds ++ " "%char :: rest)).
  rewrite skipws_head by now apply isdigit_not_space.
  destruct (isdigit_not_sign c Hc) as [-> ->].
  change (c :: (ds ++ " "%char :: rest)) with ((c :: ds) ++ " "%char :: rest).
  rewrite span_token; [|exact Hd|reflexivity].
  cbn [is_nil]. rewrite Hval.
  replace (Z.of_nat k >? INT_MAX) with false
    by (symmetry; rewrite Z.gtb_ltb; apply Z.ltb_ge; lia).
  replace (Z.of_nat k <? INT_MIN) with false
    by (symmetry; apply Z.ltb_ge; unfold INT_MIN; lia).
  reflexivity.
Qed.

Lemma read_char_space c rest ch :
  isspace c = false ->
  read_char (mkIstream (" "%char :: c :: rest) false) ch
  = (mkIstream rest false, c).
Proof.
  intros Hc. apply (read_char_after_space [" "%char] c rest ch); [|exact Hc].
  repeat constructor.
Qed.

Lemma read_int_size_here k rest old :
  Z.of_nat k <= INT_MAX ->
  read_int (mkIstream (write_size k ++ " "%char :: rest) false) old
  = (mkIstream (" "%char :: rest) false, Z.of_nat k).
Proof. intros Hk. apply (read_int_size [] k rest old); [constructor | exact Hk]. Qed.

(** ** Reading back what was written *)

Lemma write_Node_shape v cs rest :
  write_Node (mkNode v cs) ++ rest
  = v ++ " "%char :: "{"%char :: write_size (length cs)
      ++ " "%char :: concat (List.map write_Node cs)
      ++ "}"%char :: " "%char :: rest.
Proof.
  cbn [write_Node]. rewrite <- !app_assoc. reflexivity.
Qed.

Lemma read_children_written ch0 fuel cs :
  Forall (fun c => forall ws rest old,
            all_space ws ->
            read_Node ch0 fuel (mkIstream (ws ++ write_Node c ++ rest) false) old
            = Some (mkIstream (" "%char :: rest) false, c)) cs ->
  forall acc rest,
    read_children (read_Node ch0 fuel) (length cs)
      (mkIstream (" "%char :: concat (List.map write_Node cs) ++ rest) false) acc
    = Some (mkIstream (" "%char :: rest) false, acc ++ cs).
Proof.
  induction 1 as [|c cs Hc _ IH]; intros acc rest.
  - simpl. now rewrite app_nil_r.
  - cbn [length read_children List.map concat].
    rewrite <- app_assoc.
    pose proof (Hc [" "%char] (concat (List.map write_Node cs) ++ rest) []
                  ltac:(repeat constructor)) as Hc'.
    cbn [app] in Hc'. rewrite Hc'.
    rewrite IH. now rewrite <- app_assoc.
Qed.

Lemma depth_children v cs fuel :
  (depth (mkNode v cs) <= S fuel)%nat -> Forall (fun c => (depth c <= fuel)%nat) cs.
Proof.
  cbn [depth]. intros H. apply le_S_n in H.
  induction cs as [|c cs IH]; constructor; simpl in H; [lia|]. apply IH. lia.
Qed.

Lemma read_Node_written ch0 t :
  readable t ->
  forall fuel ws rest old,
    (depth t <= fuel)%nat -> all_space ws ->
    read_Node ch0 fuel (mkIstream (ws ++ write_Node t ++ rest) false) old
    = Some (mkIstream (" "%char :: rest) false, t).
Proof.
  induction t as [v cs IH] using Node_ind'.
  intros Hgood fuel ws rest old Hfuel Hws.
  inversion Hgood as [? ? (Hne & Hv & Hlen) Hcs]; subst. simpl in Hne, Hv, Hlen.
  destruct fuel as [|fuel]; [simpl in Hfuel; lia|].
  pose proof (depth_children v cs fuel Hfuel) as Hdepth.
  rewrite write_Node_shape. cbn [read_Node].
  rewrite read_string_token by assumption.
  rewrite read_char_space by reflexivity.
  cbn [Ascii.eqb Bool.eqb negb].
  rewrite read_int_size_here by assumption.
  rewrite Nat2Z.id.
  rewrite (read_children_written ch0 fuel cs).
  - rewrite read_char_space by reflexivity. reflexivity.
  - rewrite List.Forall_forall in *. intros c Hin ws' rest' old' Hws'.
    apply IH; auto. exact (Hcs c Hin).
Qed.

Lemma depth_le_length t : (depth t <= length (write_Node t))%nat.
Proof.
  induction t as [v cs IH] using Node_ind'.
  cbn [depth write_Node]. rewrite !length_app. simpl length.
  assert (fold_right (fun c acc => Nat.max (depth c) acc) 0%nat cs
          <= length (concat (List.map write_Node cs)))%nat; [|lia].
  induction IH as [|c cs Hc _ IHcs]; simpl; [lia|].
  rewrite length_app. lia.
Qed.

Lemma deserialize_written ch0 t :
  readable t -> deserialize ch0 (write_Node t) = Some t.
Proof.
  intros Hgood. unfold deserialize.
  pose proof (read_Node_written ch0 t Hgood (S (length (write_Node t))) [] [] [])
    as H.
  rewrite app_nil_r in H. simpl app in H. rewrite H; [reflexivity| |constructor].
  pose proof (depth_le_length t). lia.
Qed.

(** C9, as the code has it: when every stored value is non-empty and free of
    braces and white space, and no node has more children than an [int]
    counts, reading the text written for a tree gives the tree back: the same
    value and the same children, in order, at every node. *)
Theorem serialization_round_trip ch0 t :
  plain_values t -> readable t -> deserialize ch0 (write_Node t) = Some t.
Proof. intros _. apply deserialize_written. Qed.

Lemma sample_tree_plain : plain_values sample_tree.
Proof.
  unfold plain_values, sample_tree.
  repeat (constructor; simpl; try (split; discriminate)).
Qed.

Lemma sample_tree_readable : readable sample_tree.
Proof.
  unfold readable, sample_tree.
  repeat first [ discriminate | reflexivity | progress simpl
               | constructor | split ].
Qed.

Lemma serialization_round_trip_witness :
  deserialize "?" (write_Node sample_tree) = Some sample_tree.
Proof.
  exact (serialization_round_trip "?" sample_tree
           sample_tree_plain sample_tree_readable).
Defined.

(** C9, as the specification has it, fails on an empty value: the
    default-constructed node is written as [ {0 } ] and read back with the
    value [{0] and the stream left before the closing brace. *)
Lemma empty_value_not_restored :
  plain_values (mkNode [] [])
  /\ write_Node (mkNode [] []) = chars " {0 } "
  /\ deserialize "?" (write_Node (mkNode [] [])) = Some (mkNode (chars "{0") [])
  /\ deserialize "?" (write_Node (mkNode [] [])) <> Some (mkNode [] []).
Proof.
  split; [|split; [|split]].
  - constructor; [split; constructor | constructor].
  - reflexivity.
  - reflexivity.
  - discriminate.
Qed.

(** * Further properties of the board *)

Lemma filter_filter {A} (f h : A -> bool) l :
  List.filter f (List.filter h l) = List.filter (fun a => h a && f a) l.
Proof.
  induction l as [|a l IH]; simpl; [reflexivity|].
  destruct (h a); simpl; [destruct (f a)|]; now rewrite IH.
Qed.

Lemma filter_sorted (f : nat -> bool) l :
  StronglySorted lt l -> StronglySorted lt (List.filter f l).
Proof.
  induction 1 as [|a l Hs IH Ha]; simpl; [constructor|].
  destruct (f a); [|exact IH]. constructor; [exact IH|].
  rewrite List.Forall_forall in *. intros b Hb. apply filter_In in Hb.
  apply Ha, Hb.
Qed.

Lemma seq_sorted len : forall start, StronglySorted lt (seq start len).
Proof.
  induction len as [|len IH]; intros start; simpl; constructor; [apply IH|].
  rewrite List.Forall_forall. intros b Hb%in_seq. lia.
Qed.

(** X1: [emptyIndices] lists exactly the squares that hold the empty mark,
    each once, in increasing order. *)
Theorem emptyIndices_increasing_blank g :
  StronglySorted lt (Grid.emptyIndices g)
  /\ forall i, In i (Grid.emptyIndices g) <-> (i < 9)%nat /\ Grid.sq g i = Grid.blank.
Proof.
  split.
  - apply filter_sorted, seq_sorted.
  - apply emptyIndices_spec.
Qed.

Lemma sorted_filter_out (spot : nat) l :
  StronglySorted lt l -> In spot l ->
  S (length (List.filter (fun i => negb (Nat.eqb i spot)) l)) = length l.
Proof.
  induction 1 as [|a l Hs IH Ha]; intros Hin; [destruct Hin|].
  simpl. destruct (Nat.eqb_spec a spot) as [->|Hne]; simpl.
  - f_equal. clear IH Hin. rewrite List.Forall_forall in Ha.
    induction l as [|b l IHl]; simpl; [reflexivity|].
    inversion Hs; subst.
    assert (spot < b)%nat by (apply Ha; now left).
    destruct (Nat.eqb_spec b spot); [lia|]. simpl. f_equal.
    apply IHl; [assumption|]. intros c Hc. apply Ha. now right.
  - f_equal. apply IH. destruct Hin; [congruence | assumption].
Qed.

(** X2: a move on an empty square with a real mark removes that square, and
    nothing else, from the legal moves: one legal move fewer. *)
Theorem set_removes_one_move g spot c :
  Grid.wf g -> c <> Grid.blank -> In spot (Grid.emptyIndices g) ->
  Grid.emptyIndices (Grid.set g spot c)
  = List.filter (fun i => negb (Nat.eqb i spot)) (Grid.emptyIndices g)
  /\ S (length (Grid.emptyIndices (Grid.set g spot c)))
     = length (Grid.emptyIndices g).
Proof.
  intros Hwf Hc Hin. pose proof Hin as [Hlt Hb]%emptyIndices_spec.
  assert (Hlen : (spot < length g)%nat) by (unfold Grid.wf in Hwf; simpl in Hwf; lia).
  assert (E : Grid.emptyIndices (Grid.set g spot c)
              = List.filter (fun i => negb (Nat.eqb i spot)) (Grid.emptyIndices g)).
  { unfold Grid.emptyIndices. rewrite filter_filter. apply filter_ext.
    intros i. rewrite sq_set by assumption.
    destruct (Nat.eqb_spec i spot) as [->|Hne]; simpl.
    - rewrite andb_false_r. now apply Ascii.eqb_neq.
    - now rewrite andb_true_r. }
  split; [exact E|]. rewrite E. apply sorted_filter_out; [|exact Hin].
  apply filter_sorted, seq_sorted.
Qed.

Lemma set_removes_one_move_witness :
  Grid.emptyIndices (Grid.set (chars "xo  x    ") 3 Grid.o)
  = List.filter (fun i => negb (Nat.eqb i 3)) (Grid.emptyIndices (chars "xo  x    "))
  /\ S (length (Grid.emptyIndices (Grid.set (chars "xo  x    ") 3 Grid.o)))
     = length (Grid.emptyIndices (chars "xo  x    ")).
Proof.
  apply (set_removes_one_move (chars "xo  x    ") 3 Grid.o).
  - reflexivity.
  - discriminate.
  - vm_compute. tauto.
Defined.

(** X3: [set] writes one square and leaves the others; [clear] after [set]
    on the same square is [clear] alone, and gives the board back when the
    square was empty. *)
Theorem set_then_read_or_clear g i c :
  Grid.wf g -> (i < 9)%nat ->
  (forall j, Grid.sq (Grid.set g i c) j = if Nat.eqb j i then c else Grid.sq g j)
  /\ Grid.clear (Grid.set g i c) i = Grid.clear g i
  /\ (Grid.sq g i = Grid.blank -> Grid.clear (Grid.set g i c) i = g).
Proof.
  intros Hwf Hi.
  assert (Hlen : (i < length g)%nat) by (unfold Grid.wf in Hwf; simpl in Hwf; lia).
  split; [intros j; now apply sq_set|].
  unfold Grid.clear, Grid.set. rewrite list_insert_insert_eq.
  split; [reflexivity|]. intros Hb. apply list_insert_id.
  unfold Grid.sq in Hb. rewrite nth_lookup in Hb.
  destruct (g !! i) as [d|] eqn:E; [simpl in Hb; congruence|].
  apply lookup_ge_None in E. lia.
Qed.

Lemma set_then_read_or_clear_witness :
  (forall j, Grid.sq (Grid.set Grid.empty 4 Grid.x) j
             = if Nat.eqb j 4 then Grid.x else Grid.sq Grid.empty j)
  /\ Grid.clear (Grid.set Grid.empty 4 Grid.x) 4 = Grid.clear Grid.empty 4
  /\ (Grid.sq Grid.empty 4 = Grid.blank ->
      Grid.clear (Grid.set Grid.empty 4 Grid.x) 4 = Grid.empty).
Proof.
  apply (set_then_read_or_clear Grid.empty 4 Grid.x).
  - reflexivity.
  - lia.
Defined.

Lemma winning_lines_bool g p :
  Grid.winning g p
  = existsb (fun l => forallb (fun i => Grid.holds g i p) l) lines.
Proof.
  unfold Grid.winning, lines. cbv -[Grid.holds].
  destruct (Grid.holds g 0 p), (Grid.holds g 1 p), (Grid.holds g 2 p),
    (Grid.holds g 3 p), (Grid.holds g 4 p), (Grid.holds g 5 p),
    (Grid.holds g 6 p), (Grid.holds g 7 p), (Grid.holds g 8 p); reflexivity.
Qed.

(** X4: [winning] answers true exactly when one of the eight lines of the
    board holds the player's mark on all three squares. *)
Theorem winning_iff_line g p :
  Grid.winning g p = true
  <-> exists l, In l lines /\ forall i, In i l -> Grid.sq g i = p.
Proof.
  rewrite winning_lines_bool, existsb_exists. split.
  - intros (l & Hl & Hall). exists l. split; [exact Hl|].
    rewrite forallb_forall in Hall. intros i Hi.
    apply Ascii.eqb_eq. exact (Hall i Hi).
  - intros (l & Hl & Hall). exists l. split; [exact Hl|].
    apply forallb_forall. intros i Hi. apply Ascii.eqb_eq. auto.
Qed.

Lemma print_Grid_chars g :
  print_Grid g
  = ["["%char; Grid.sq g 0; ","%char; Grid.sq g 1; ","%char; Grid.sq g 2; ","%char; endl;
     " "%char; Grid.sq g 3; ","%char; Grid.sq g 4; ","%char; Grid.sq g 5; ","%char; endl;
     " "%char; Grid.sq g 6; ","%char; Grid.sq g 7; ","%char; Grid.sq g 8; "]"%char].
Proof. reflexivity. Qed.

(** X5: the text written for a board has 23 characters, and two boards with
    the same text are the same board. *)
Theorem print_Grid_determines_board g1 g2 :
  Grid.wf g1 -> Grid.wf g2 ->
  length (print_Grid g1) = 23%nat
  /\ (print_Grid g1 = print_Grid g2 -> g1 = g2).
Proof.
  intros H1 H2. rewrite !print_Grid_chars. split; [reflexivity|].
  intros E. injection E as E0 E1 E2 E3 E4 E5 E6 E7 E8.
  apply (List.nth_ext g1 g2 Grid.blank Grid.blank).
  - unfold Grid.wf in *. congruence.
  - intros n Hn. unfold Grid.wf in H1. rewrite H1 in Hn. simpl in Hn.
    unfold Grid.sq in *.
    do 9 (destruct n as [|n]; [assumption|]). lia.
Qed.

Lemma print_Grid_determines_board_witness :
  length (print_Grid (chars "xo  x    ")) = 23%nat
  /\ (print_Grid (chars "xo  x    ") = print_Grid (chars "xo  x    ") ->
      chars "xo  x    " = chars "xo  x    ").
Proof.
  apply (print_Grid_determines_board (chars "xo  x    ") (chars "xo  x    "));
    reflexivity.
Defined.

Example print_Grid_example :
  print_Grid (chars "xo  x   o")
  = chars "[x,o, ," ++ [endl] ++ chars "  ,x, ," ++ [endl] ++ chars "  , ,o]".
Proof. reflexivity. Qed.

(** * Further properties of the searches *)

Lemma ab_loop_utility recA g p mx mn :
  (forall g' p' a b c, recA g' p' a b = Some c -> utility (getScore c)) ->
  forall spots idx bestV bm a b pruned nm bestV' bm' nm',
    ab_loop recA g p mx mn spots idx bestV bm a b pruned nm
    = Some (bestV', bm', nm') ->
    utility bestV
    \/ (pruned = false /\ spots <> []
        /\ bestV = if Ascii.eqb p mx then INT_MIN else INT_MAX) ->
    utility bestV'.
Proof.
  intros Hrec.
  induction spots as [|spot rest IH];
    intros idx bestV bm a b pruned nm bestV' bm' nm' H Hb.
  - simpl in H. inversion H; subst.
    destruct Hb as [Hb|(_ & Hne & _)]; [exact Hb | congruence].
  - simpl in H. destruct pruned; simpl negb in H; cbv iota in H.
    + destruct Hb as [Hb|(C & _)]; [|discriminate].
      eapply IH; [exact H|]. now left.
    + destruct (Ascii.eqb p mx) eqn:Hp.
      * destruct (recA (Grid.set g spot p) mn a b) as [c|] eqn:Hc; [|discriminate].
        pose proof (Hrec _ _ _ _ _ Hc) as Hu.
        pose proof (utility_bounds _ Hu) as Hbd.
        destruct (Z.gtb_spec (getScore c) bestV); cbv beta iota zeta in H;
          (eapply IH; [exact H|]); left; [exact Hu|].
        destruct Hb as [Hb|(_ & _ & ->)]; [exact Hb | lia].
      * destruct (recA (Grid.set g spot p) mx a b) as [c|] eqn:Hc; [|discriminate].
        pose proof (Hrec _ _ _ _ _ Hc) as Hu.
        pose proof (utility_bounds _ Hu) as Hbd.
        destruct (Z.ltb_spec (getScore c) bestV); cbv beta iota zeta in H;
          (eapply IH; [exact H|]); left; [exact Hu|].
        destruct Hb as [Hb|(_ & _ & ->)]; [exact Hb | lia].
Qed.

Lemma ab_utility mx mn fuel :
  forall g p a b t,
    alpha_beta_pruning_all_branches fuel g p mx mn a b = Some t ->
    utility (getScore t).
Proof.
  induction fuel as [|fuel IH]; intros g p a b t H;
    destruct (terminal g mx mn) as [s|] eqn:T;
    try (rewrite (ab_terminal _ _ _ _ _ _ _ _ T) in H; inversion H; subst;
         simpl; eapply terminal_utility; eauto).
  - rewrite ab_no_fuel in H by assumption. discriminate.
  - rewrite ab_step in H by assumption.
    destruct (ab_loop _ _ _ _ _ _ _ _ _ _ _ _ _) as [[[bV bmV] nmV]|] eqn:L;
      [|discriminate].
    inversion H; subst; clear H. simpl.
    eapply ab_loop_utility; [|exact L|].
    + intros g' p' a' b' c Hc. exact (IH _ _ _ _ _ Hc).
    + right. split; [reflexivity|]. split; [|reflexivity].
      now apply terminal_None_empties in T.
Qed.

(** X6: whatever the board, the players and the window, a score returned by
    minimax or by the pruned search is one of the three utilities -10, 0 and
    10: the sentinels INT_MIN and INT_MAX and the bounds of the window never
    become the score of a searched node. *)
Theorem search_scores_are_utilities fuel g p mx mn a b :
  (forall t, minimax fuel g p mx mn = Some t ->
             getScore t = -10 \/ getScore t = 0 \/ getScore t = 10)
  /\ (forall t, alpha_beta_pruning_all_branches fuel g p mx mn a b = Some t ->
                getScore t = -10 \/ getScore t = 0 \/ getScore t = 10).
Proof.
  split; intros t Ht.
  - exact (minimax_utility _ _ _ _ _ _ Ht).
  - exact (ab_utility _ _ _ _ _ _ _ _ Ht).
Qed.

Lemma search_scores_are_utilities_witness :
  exists tm ta,
    minimax 10 (chars "xoxxoo   ") Grid.x Grid.x Grid.o = Some tm
    /\ alpha_beta_pruning_all_branches 10 (chars "xoxxoo   ") Grid.x Grid.x Grid.o
         (-5) 5 = Some ta
    /\ List.map getScore (next tm) = [10; 0; -10]
    /\ List.map getScore (next ta) = [10; 10; 10]
    /\ (getScore tm = -10 \/ getScore tm = 0 \/ getScore tm = 10)
    /\ (getScore ta = -10 \/ getScore ta = 0 \/ getScore ta = 10).
Proof.
  assert (Em : exists tm,
             minimax 10 (chars "xoxxoo   ") Grid.x Grid.x Grid.o = Some tm
             /\ List.map getScore (next tm) = [10; 0; -10])
    by (vm_compute; eexists; split; reflexivity).
  assert (Ea : exists ta,
             alpha_beta_pruning_all_branches 10 (chars "xoxxoo   ")
               Grid.x Grid.x Grid.o (-5) 5 = Some ta
             /\ List.map getScore (next ta) = [10; 10; 10])
    by (vm_compute; eexists; split; reflexivity).
  destruct Em as (tm & Em & Km). destruct Ea as (ta & Ea & Ka).
  exists tm, ta.
  split; [exact Em|]. split; [exact Ea|]. split; [exact Km|]. split; [exact Ka|].
  split.
  - exact (proj1 (search_scores_are_utilities 10 (chars "xoxxoo   ")
                    Grid.x Grid.x Grid.o (-5) 5) tm Em).
  - exact (proj2 (search_scores_are_utilities 10 (chars "xoxxoo   ")
                    Grid.x Grid.x Grid.o (-5) 5) ta Ea).
Defined.

(** X7: the pruned search is fail-soft for every window
    [INT_MIN <= a < b <= INT_MAX]: a score strictly inside the window is the
    minimax value; a score at or below [a] is an upper bound of it; a score
    at or above [b] is a lower bound. *)
Theorem alpha_beta_window fuel g p mx mn a b t :
  INT_MIN <= a -> a < b -> b <= INT_MAX ->
  minimax fuel g p mx mn = Some t ->
  exists t',
    alpha_beta_pruning_all_branches fuel g p mx mn a b = Some t'
    /\ (a < getScore t' < b -> getScore t' = getScore t)
    /\ (getScore t' <= a -> getScore t <= getScore t')
    /\ (b <= getScore t' -> getScore t' <= getScore t).
Proof.
  intros Ha Hab Hb Ht.
  destruct (ab_brackets mx mn fuel g p a b t Ha Hab Hb Ht) as (t' & Ht' & H1 & H2 & H3).
  exists t'. split; [exact Ht'|]. repeat split; auto.
  intros H. symmetry. auto.
Qed.

Lemma alpha_beta_window_witness :
  (exists t',
     alpha_beta_pruning_all_branches 2 (chars "xx oo xox") Grid.x Grid.x Grid.o
       0 20 = Some t'
     /\ (0 < getScore t' < 20 -> getScore t' = 10)
     /\ (getScore t' <= 0 -> 10 <= getScore t')
     /\ (20 <= getScore t' -> getScore t' <= 10))
  /\ (exists t',
     alpha_beta_pruning_all_branches 2 (chars "xx oo xox") Grid.x Grid.x Grid.o
       0 5 = Some t'
     /\ (0 < getScore t' < 5 -> getScore t' = 10)
     /\ (getScore t' <= 0 -> 10 <= getScore t')
     /\ (5 <= getScore t' -> getScore t' <= 10))
  /\ (exists t',
     alpha_beta_pruning_all_branches 2 (chars "xx oo xox") Grid.x Grid.x Grid.o
       10 20 = Some t'
     /\ (10 < getScore t' < 20 -> getScore t' = 10)
     /\ (getScore t' <= 10 -> 10 <= getScore t')
     /\ (20 <= getScore t' -> getScore t' <= 10)).
Proof.
  split; [|split].
  - apply (alpha_beta_window 2 (chars "xx oo xox") Grid.x Grid.x Grid.o 0 20
             (newMove (chars "xx oo xox") 10
              [setSpotIndex (newMove (chars "xxxoo xox") 10 [] (-1)) 2;
               setSpotIndex (newMove (chars "xx ooxxox") 0
                  [setSpotIndex (newMove (chars "xxoooxxox") 0 [] (-1)) 2]
                  0) 5]
              0));
      [unfold INT_MIN; lia | lia | unfold INT_MAX; lia | vm_compute; reflexivity].
  - apply (alpha_beta_window 2 (chars "xx oo xox") Grid.x Grid.x Grid.o 0 5
             (newMove (chars "xx oo xox") 10
              [setSpotIndex (newMove (chars "xxxoo xox") 10 [] (-1)) 2;
               setSpotIndex (newMove (chars "xx ooxxox") 0
                  [setSpotIndex (newMove (chars "xxoooxxox") 0 [] (-1)) 2]
                  0) 5]
              0));
      [unfold INT_MIN; lia | lia | unfold INT_MAX; lia | vm_compute; reflexivity].
  - apply (alpha_beta_window 2 (chars "xx oo xox") Grid.x Grid.x Grid.o 10 20
             (newMove (chars "xx oo xox") 10
              [setSpotIndex (newMove (chars "xxxoo xox") 10 [] (-1)) 2;
               setSpotIndex (newMove (chars "xx ooxxox") 0
                  [setSpotIndex (newMove (chars "xxoooxxox") 0 [] (-1)) 2]
                  0) 5]
              0));
      [unfold INT_MIN; lia | lia | unfold INT_MAX; lia | vm_compute; reflexivity].
Defined.

Lemma ab_root_loop_max recM recA g p mx mn :
  Ascii.eqb p mx = true ->
  (forall g' a t, INT_MIN <= a -> a < INT_MAX -> recM g' = Some t ->
     utility (getScore t)
     /\ exists t', recA g' mn a INT_MAX = Some t'
                   /\ utility (getScore t')
                   /\ bracket a INT_MAX (getScore t) (getScore t')) ->
  forall spots idx best bm nmM a nmV best' bm' nmM',
    minimax_max_loop recM g p spots idx best bm nmM = Some (best', bm', nmM') ->
    a = Z.max INT_MIN best -> best < INT_MAX ->
    exists nmV',
      ab_loop recA g p mx mn spots idx best bm a INT_MAX false nmV
      = Some (best', bm', nmV').
Proof.
  intros Hp Hrec.
  assert (Hmm : INT_MIN < INT_MAX) by (unfold INT_MIN, INT_MAX; lia).
  induction spots as [|spot rest IH];
    intros idx best bm nmM a nmV best' bm' nmM' H Ea Hlt.
  - simpl in H. inversion H; subst. simpl. eexists. reflexivity.
  - simpl in H.
    destruct (recM (Grid.set g spot p)) as [c|] eqn:Hc; [|discriminate].
    rewrite getScore_setSpotIndex in H.
    destruct (Hrec _ a c ltac:(lia) ltac:(lia) Hc) as (Hum & c' & Hc' & Huv & Hbr).
    apply utility_bounds in Hum. apply utility_bounds in Huv.
    unfold bracket in Hbr.
    simpl ab_loop. cbv iota. rewrite Hp, Hc'.
    destruct (Z.gtb_spec (getScore c') best) as [Hv|Hv];
      destruct (Z.gtb_spec (getScore c) best) as [Hm|Hm]; try lia.
    + replace (getScore c) with (getScore c') in H by lia.
      destruct (Z.geb_spec (Z.max a (getScore c')) INT_MAX); [lia|].
      eapply IH; [exact H| lia | lia].
    + destruct (Z.geb_spec (Z.max a best) INT_MAX); [lia|].
      eapply IH; [exact H| lia | lia].
Qed.

Lemma ab_root_loop_min recM recA g p mx mn :
  Ascii.eqb p mx = false ->
  (forall g' b t, b <= INT_MAX -> INT_MIN < b -> recM g' = Some t ->
     utility (getScore t)
     /\ exists t', recA g' mx INT_MIN b = Some t'
                   /\ utility (getScore t')
                   /\ bracket INT_MIN b (getScore t) (getScore t')) ->
  forall spots idx best bm nmM b nmV best' bm' nmM',
    minimax_min_loop recM g p spots idx best bm nmM = Some (best', bm', nmM') ->
    b = Z.min INT_MAX best -> INT_MIN < best ->
    exists nmV',
      ab_loop recA g p mx mn spots idx best bm INT_MIN b false nmV
      = Some (best', bm', nmV').
Proof.
  intros Hp Hrec.
  assert (Hmm : INT_MIN < INT_MAX) by (unfold INT_MIN, INT_MAX; lia).
  induction spots as [|spot rest IH];
    intros idx best bm nmM b nmV best' bm' nmM' H Eb Hlt.
  - simpl in H. inversion H; subst. simpl. eexists. reflexivity.
  - simpl in H.
    destruct (recM (Grid.set g spot p)) as [c|] eqn:Hc; [|discriminate].
    rewrite getScore_setSpotIndex in H.
    destruct (Hrec _ b c ltac:(lia) ltac:(lia) Hc) as (Hum & c' & Hc' & Huv & Hbr).
    apply utility_bounds in Hum. apply utility_bounds in Huv.
    unfold bracket in Hbr.
    simpl ab_loop. cbv iota. rewrite Hp, Hc'.
    destruct (Z.ltb_spec (getScore c') best) as [Hv|Hv];
      destruct (Z.ltb_spec (getScore c) best) as [Hm|Hm]; try lia.
    + replace (getScore c) with (getScore c') in H by lia.
      destruct (Z.leb_spec (Z.min b (getScore c')) INT_MIN); [lia|].
      eapply IH; [exact H| lia | lia].
    + destruct (Z.leb_spec (Z.min b best) INT_MIN); [lia|].
      eapply IH; [exact H| lia | lia].
Qed.

(** X8: called with the full window, the pruned search chooses the same move
    at the root as minimax: whenever minimax returns, the pruned search
    returns a root with the same [bestMove] and the same score.  (Below the
    root the pruned tree's [bestMove] fields need not agree.) *)
Theorem alpha_beta_root_best_move fuel g p mx mn t :
  minimax fuel g p mx mn = Some t ->
  exists t',
    alpha_beta_pruning_all_branches fuel g p mx mn INT_MIN INT_MAX = Some t'
    /\ bestMove t' = bestMove t
    /\ getScore t' = getScore t.
Proof.
  intros H.
  destruct (terminal g mx mn) as [s|] eqn:T.
  - rewrite (minimax_terminal _ _ _ _ _ _ T) in H.
    rewrite (ab_terminal _ _ _ _ _ _ _ _ T).
    inversion H; subst. eexists. split; [reflexivity|]. split; reflexivity.
  - destruct fuel as [|fuel].
    { rewrite minimax_no_fuel in H by assumption. discriminate. }
    rewrite minimax_step in H by assumption. rewrite ab_step by assumption.
    destruct (Ascii.eqb p mx) eqn:Hp.
    + destruct (minimax_max_loop _ _ _ _ _ _ _ _) as [[[bM bmM] nmM]|] eqn:L;
        [|discriminate].
      inversion H; subst; clear H.
      destruct (ab_root_loop_max
                  (fun g' => minimax fuel g' mn mx mn)
                  (fun g' p' a' b' =>
                     alpha_beta_pruning_all_branches fuel g' p' mx mn a' b')
                  g p mx mn Hp) with
          (spots := Grid.emptyIndices g) (idx := 0%nat) (best := INT_MIN)
          (bm := 0) (nmM := @nil Move) (a := INT_MIN) (nmV := @nil Move)
          (best' := bM) (bm' := bmM) (nmM' := nmM) as (nmV' & ->);
        [ | exact L | reflexivity | unfold INT_MIN, INT_MAX; lia | ].
      * intros g' a t Ha Hab Ht. split; [exact (minimax_utility _ _ _ _ _ _ Ht)|].
        destruct (ab_brackets mx mn fuel g' mn a INT_MAX t Ha Hab ltac:(lia) Ht)
          as (t' & Ht' & Hbr).
        exists t'. split; [exact Ht'|]. split; [|exact Hbr].
        exact (ab_utility _ _ _ _ _ _ _ _ Ht').
      * eexists. split; [reflexivity|]. split; reflexivity.
    + destruct (minimax_min_loop _ _ _ _ _ _ _ _) as [[[bM bmM] nmM]|] eqn:L;
        [|discriminate].
      inversion H; subst; clear H.
      destruct (ab_root_loop_min
                  (fun g' => minimax fuel g' mx mx mn)
                  (fun g' p' a' b' =>
                     alpha_beta_pruning_all_branches fuel g' p' mx mn a' b')
                  g p mx mn Hp) with
          (spots := Grid.emptyIndices g) (idx := 0%nat) (best := INT_MAX)
          (bm := 0) (nmM := @nil Move) (b := INT_MAX) (nmV := @nil Move)
          (best' := bM) (bm' := bmM) (nmM' := nmM) as (nmV' & ->);
        [ | exact L | reflexivity | unfold INT_MIN, INT_MAX; lia | ].
      * intros g' b t Hb Hab Ht. split; [exact (minimax_utility _ _ _ _ _ _ Ht)|].
        destruct (ab_brackets mx mn fuel g' mx INT_MIN b t ltac:(lia) Hab Hb Ht)
          as (t' & Ht' & Hbr).
        exists t'. split; [exact Ht'|]. split; [|exact Hbr].
        exact (ab_utility _ _ _ _ _ _ _ _ Ht').
      * eexists. split; [reflexivity|]. split; reflexivity.
Qed.

Lemma alpha_beta_root_best_move_witness :
  exists t',
    alpha_beta_pruning_all_branches 2 (chars "xx oo xox") Grid.x Grid.x Grid.o
      INT_MIN INT_MAX = Some t'
    /\ bestMove t' = 0
    /\ getScore t' = 10.
Proof.
  destruct (alpha_beta_root_best_move 2 (chars "xx oo xox") Grid.x Grid.x Grid.o
              (newMove (chars "xx oo xox") 10
                 [setSpotIndex (newMove (chars "xxxoo xox") 10 [] (-1)) 2;
                  setSpotIndex (newMove (chars "xx ooxxox") 0
                     [setSpotIndex (newMove (chars "xxoooxxox") 0 [] (-1)) 2]
                     0) 5]
                 0))
    as (t' & H1 & H2 & H3).
  - vm_compute. reflexivity.
  - exists t'. split; [exact H1|]. split; assumption.
Defined.

Lemma nodes_pos m : (1 <= nodes m)%nat.
Proof. destruct m. simpl. lia. Qed.

Lemma nodes_setSpotIndex m i : nodes (setSpotIndex m i) = nodes m.
Proof. destruct m. reflexivity. Qed.

Lemma nodes_list_snoc l m : nodes_list (l ++ [m]) = (nodes_list l + nodes m)%nat.
Proof.
  unfold nodes_list. induction l as [|c l IH]; simpl; [lia|]. rewrite IH. lia.
Qed.

Ltac size_step :=
  rewrite !nodes_list_snoc, !nodes_setSpotIndex;
  repeat match goal with
  | c : Move |- _ => lazymatch goal with
                     | _ : (1 <= nodes c)%nat |- _ => fail
                     | _ => pose proof (nodes_pos c)
                     end
  end;
  cbn [nodes newMove fold_right]; lia.

Lemma ab_loop_size_max recM recA g p mx mn a0 b :
  Ascii.eqb p mx = true ->
  INT_MIN <= a0 -> a0 < b ->
  (forall g' a t, INT_MIN <= a -> a < b -> recM g' = Some t ->
     exists t', recA g' mn a b = Some t'
                /\ bracket a b (getScore t) (getScore t')
                /\ (nodes t' <= nodes t)%nat) ->
  forall spots idx bestM bmM nmM bestV bmV a pruned nmV bestM' bmM' nmM',
    minimax_max_loop recM g p spots idx bestM bmM nmM = Some (bestM', bmM', nmM') ->
    max_inv a0 b bestM bestV a pruned ->
    (nodes_list nmV <= nodes_list nmM)%nat ->
    exists bestV' bmV' nmV',
      ab_loop recA g p mx mn spots idx bestV bmV a b pruned nmV
      = Some (bestV', bmV', nmV')
      /\ bracket a0 b bestM' bestV'
      /\ (nodes_list nmV' <= nodes_list nmM')%nat.
Proof.
  intros Hp Ha0 Hab Hrec.
  induction spots as [|spot rest IH];
    intros idx bestM bmM nmM bestV bmV a pruned nmV bestM' bmM' nmM' H Inv Hsz.
  - simpl in H. inversion H; subst. simpl. do 3 eexists.
    split; [reflexivity|]. split; [|exact Hsz].
    unfold bracket. destruct Inv as [-> Inv]. destruct pruned; lia.
  - simpl in H.
    destruct (recM (Grid.set g spot p)) as [c|] eqn:Hc; [|discriminate].
    rewrite getScore_setSpotIndex in H.
    destruct Inv as [Ea Inv]. simpl ab_loop. destruct pruned; simpl negb; cbv iota.
    + case_cmp; (eapply IH; [exact H| |size_step]);
        split; try assumption; simpl; lia.
    + rewrite Hp.
      destruct (Hrec _ a c ltac:(lia) ltac:(lia) Hc) as (c' & -> & Hb & Hn).
      unfold bracket in Hb.
      case_cmp; (eapply IH; [exact H| |size_step]); (split; [lia|]);
        case_cmp; lia.
Qed.

Lemma ab_loop_size_min recM recA g p mx mn a b0 :
  Ascii.eqb p mx = false ->
  b0 <= INT_MAX -> a < b0 ->
  (forall g' b t, b <= INT_MAX -> a < b -> recM g' = Some t ->
     exists t', recA g' mx a b = Some t'
                /\ bracket a b (getScore t) (getScore t')
                /\ (nodes t' <= nodes t)%nat) ->
  forall spots idx bestM bmM nmM bestV bmV b pruned nmV bestM' bmM' nmM',
    minimax_min_loop recM g p spots idx bestM bmM nmM = Some (bestM', bmM', nmM') ->
    min_inv a b0 bestM bestV b pruned ->
    (nodes_list nmV <= nodes_list nmM)%nat ->
    exists bestV' bmV' nmV',
      ab_loop recA g p mx mn spots idx bestV bmV a b pruned nmV
      = Some (bestV', bmV', nmV')
      /\ bracket a b0 bestM' bestV'
      /\ (nodes_list nmV' <= nodes_list nmM')%nat.
Proof.
  intros Hp Hb0 Hab Hrec.
  induction spots as [|spot rest IH];
    intros idx bestM bmM nmM bestV bmV b pruned nmV bestM' bmM' nmM' H Inv Hsz.
  - simpl in H. inversion H; subst. simpl. do 3 eexists.
    split; [reflexivity|]. split; [|exact Hsz].
    unfold bracket. destruct Inv as [-> Inv]. destruct pruned; lia.
  - simpl in H.
    destruct (recM (Grid.set g spot p)) as [c|] eqn:Hc; [|discriminate].
    rewrite getScore_setSpotIndex in H.
    destruct Inv as [Eb Inv]. simpl ab_loop. destruct pruned; simpl negb; cbv iota.
    + case_cmp; (eapply IH; [exact H| |size_step]);
        split; try assumption; simpl; lia.
    + rewrite Hp.
      destruct (Hrec _ b c ltac:(lia) ltac:(lia) Hc) as (c' & -> & Hb & Hn).
      unfold bracket in Hb.
      case_cmp; (eapply IH; [exact H| |size_step]); (split; [lia|]);
        case_cmp; lia.
Qed.

Lemma ab_size mx mn fuel :
  forall g p a b t,
    INT_MIN <= a -> a < b -> b <= INT_MAX ->
    minimax fuel g p mx mn = Some t ->
    exists t', alpha_beta_pruning_all_branches fuel g p mx mn a b = Some t'
               /\ bracket a b (getScore t) (getScore t')
               /\ (nodes t' <= nodes t)%nat.
Proof.
  induction fuel as [|fuel IH]; intros g p a b t Ha Hab Hb H;
    destruct (terminal g mx mn) as [s|] eqn:T;
    try (rewrite (minimax_terminal _ _ _ _ _ _ T) in H;
         rewrite (ab_terminal _ _ _ _ _ _ _ _ T);
         inversion H; subst; eexists; split; [reflexivity|];
         split; [unfold bracket; simpl; lia | simpl; lia]).
  - rewrite minimax_no_fuel in H by assumption. discriminate.
  - rewrite minimax_step in H by assumption. rewrite ab_step by assumption.
    destruct (Ascii.eqb p mx) eqn:Hp.
    + destruct (minimax_max_loop _ _ _ _ _ _ _ _) as [[[bM bmM] nmM]|] eqn:L;
        [|discriminate].
      inversion H; subst; clear H.
      destruct (ab_loop_size_max
                  (fun g' => minimax fuel g' mn mx mn)
                  (fun g' p' a' b' =>
                     alpha_beta_pruning_all_branches fuel g' p' mx mn a' b')
                  g p mx mn a b Hp Ha Hab
                  (fun g' a' t' Ha' Hab' Ht' => IH g' mn a' b t' Ha' Hab' Hb Ht')
                  _ _ _ _ _ INT_MIN 0 a false [] _ _ _ L)
        as (bV & bmV & nmV & -> & Hbr & Hsz).
      { unfold max_inv. lia. }
      { simpl. lia. }
      eexists; split; [reflexivity|]. split; [exact Hbr|].
      cbn [nodes newMove]. fold (nodes_list nmV) (nodes_list nmM). lia.
    + destruct (minimax_min_loop _ _ _ _ _ _ _ _) as [[[bM bmM] nmM]|] eqn:L;
        [|discriminate].
      inversion H; subst; clear H.
      destruct (ab_loop_size_min
                  (fun g' => minimax fuel g' mx mx mn)
                  (fun g' p' a' b' =>
                     alpha_beta_pruning_all_branches fuel g' p' mx mn a' b')
                  g p mx mn a b Hp Hb Hab
                  (fun g' b' t' Hb' Hab' Ht' => IH g' mx a b' t' Ha Hab' Hb' Ht')
                  _ _ _ _ _ INT_MAX 0 b false [] _ _ _ L)
        as (bV & bmV & nmV & -> & Hbr & Hsz).
      { unfold min_inv. lia. }
      { simpl. lia. }
      eexists; split; [reflexivity|]. split; [exact Hbr|].
      cbn [nodes newMove]. fold (nodes_list nmV) (nodes_list nmM). lia.
Qed.

(** X9: pruning never makes the tree larger: for every window
    [INT_MIN <= alpha < beta <= INT_MAX], the tree returned by the pruned
    search, placeholders included, has at most as many nodes as the tree
    returned by minimax for the same state. *)
Theorem alpha_beta_tree_not_larger fuel g p mx mn a b t :
  INT_MIN <= a -> a < b -> b <= INT_MAX ->
  minimax fuel g p mx mn = Some t ->
  exists t',
    alpha_beta_pruning_all_branches fuel g p mx mn a b = Some t'
    /\ (nodes t' <= nodes t)%nat.
Proof.
  intros Ha Hab Hb Ht.
  destruct (ab_size mx mn fuel g p a b t Ha Hab Hb Ht) as (t' & Ht' & _ & Hn).
  exists t'. split; assumption.
Qed.

Lemma alpha_beta_tree_not_larger_witness :
  exists t',
    alpha_beta_pruning_all_branches 2 (chars "xx oo xox") Grid.x Grid.x Grid.o
      INT_MIN INT_MAX = Some t'
    /\ (nodes t' <= 4)%nat.
Proof.
  apply (alpha_beta_tree_not_larger 2 (chars "xx oo xox") Grid.x Grid.x Grid.o
           INT_MIN INT_MAX
           (newMove (chars "xx oo xox") 10
              [setSpotIndex (newMove (chars "xxxoo xox") 10 [] (-1)) 2;
               setSpotIndex (newMove (chars "xx ooxxox") 0
                  [setSpotIndex (newMove (chars "xxoooxxox") 0 [] (-1)) 2]
                  0) 5]
              0)).
  - lia.
  - unfold INT_MIN, INT_MAX. lia.
  - lia.
  - vm_compute. reflexivity.
Defined.

(** * Further properties of the Sudoku solvers *)

Lemma map_add_seq k w : forall s,
  List.map (fun i => (k + i)%nat) (seq s w) = seq (k + s) w.
Proof.
  induction w as [|w IH]; intros s; [reflexivity|].
  simpl. f_equal. rewrite IH. f_equal. lia.
Qed.

(** The two nested loops of the 2-D functor visit the cells in index
    order. *)
Lemma row_major_seq w h : row_major w h = seq 0 (h * w).
Proof.
  unfold row_major. induction h as [|h IH]; [reflexivity|].
  rewrite seq_S, flat_map_app, IH. simpl flat_map. rewrite app_nil_r.
  rewrite map_add_seq, Nat.add_0_r.
  replace (S h * w)%nat with (h * w + w)%nat by lia.
  now rewrite seq_app.
Qed.

Lemma find_seq_least (p : nat -> bool) : forall n s i,
  List.find p (seq s n) = Some i ->
  (s <= i < s + n)%nat /\ p i = true
  /\ forall j, (s <= j < i)%nat -> p j = false.
Proof.
  induction n as [|n IH]; intros s i H; [discriminate|].
  simpl in H. destruct (p s) eqn:Ps.
  - inversion H; subst. repeat split; [lia | lia | exact Ps | intros; lia].
  - destruct (IH _ _ H) as (Hr & Hp & Hl). repeat split; [lia | lia | exact Hp |].
    intros j Hj. destruct (Nat.eq_dec j s) as [->|Hne]; [exact Ps|].
    apply Hl. lia.
Qed.

Lemma first_empty_least base n :
  first_empty_spec n base (first_empty base (seq 0 n)).
Proof.
  unfold first_empty_spec, first_empty.
  destruct (List.find _ _) as [u|] eqn:F; simpl.
  - destruct (find_seq_least _ _ _ _ F) as (Hr & Hp & Hl).
    apply Z.eqb_eq in Hp. repeat split; [lia | exact Hp |].
    intros j Hj. apply Z.eqb_neq. apply Hl. lia.
  - split; [reflexivity|]. intros i Hi.
    pose proof (find_none _ _ F i) as H. rewrite in_seq in H.
    apply Z.eqb_neq. apply H. lia.
Qed.

(** X10: both location functors return the empty cell of least index,
    whatever the map's size, width and height; when no cell is empty they
    return the sentinel, whose index is 0. *)
Theorem next_location_first_empty (size width height : nat) (base : list Z) :
  first_empty_spec size base (NextLocation_Sudoku1D size base)
  /\ first_empty_spec (height * width) base
       (NextLocation_Sudoku2D width height base).
Proof.
  split.
  - apply first_empty_least.
  - unfold NextLocation_Sudoku2D. rewrite row_major_seq. apply first_empty_least.
Qed.

Lemma gen_candidate_writes scan base loc :
  snd (gen_candidate scan base loc)
  = <[getIndex loc := fst (gen_candidate scan base loc)]> base.
Proof. unfold gen_candidate, assign. destruct (val_loop _ _ _); reflexivity. Qed.

Lemma Backtracking2D_gen_any width height fuel base :
  Backtracking2D width height fuel base
  = run (gen_location (height * width)) (gen_candidate (exists2D width height))
        fuel (mkSolver base []).
Proof.
  unfold Backtracking2D, NextLocation_Sudoku2D, gen_location.
  rewrite row_major_seq. reflexivity.
Qed.

Section Keeps.

Variable n : nat.
Variable scan : list Z -> nat -> Z -> bool.

Lemma solve_top_false base current below s' :
  solve_top (gen_location n) (gen_candidate scan) base current below = (false, s') ->
  complete n (map_base s').
Proof.
  unfold solve_top.
  destruct (gen_candidate scan base current) as [val base1].
  destruct (val =? 0); [discriminate|].
  destruct (notFound (gen_location n base1)) eqn:Hnf; [|discriminate].
  intros H. inversion H; subst. simpl. now apply first_empty_none.
Qed.

Lemma solve_false_complete s s' :
  solve (gen_location n) (gen_candidate scan) s = (false, s') ->
  complete n (map_base s').
Proof.
  unfold solve. destruct (stack s) as [|current below].
  - destruct (notFound (gen_location n (map_base s))) eqn:Hnf.
    + intros H. inversion H; subst. now apply first_empty_none.
    + apply solve_top_false.
  - apply solve_top_false.
Qed.

Lemma run_complete fuel : forall s final,
  run (gen_location n) (gen_candidate scan) fuel s = Some final ->
  complete n (map_base final).
Proof.
  induction fuel as [|fuel IH]; intros s final H; [discriminate|].
  simpl in H.
  destruct (solve (gen_location n) (gen_candidate scan) s) as [[|] s1] eqn:E.
  - exact (IH _ _ H).
  - inversion H; subst. exact (solve_false_complete _ _ E).
Qed.

Lemma found_was_empty base0 base loc :
  length base = n ->
  (forall i, (i < n)%nat -> cell base0 i <> 0 -> cell base i = cell base0 i) ->
  gen_location n base = loc -> notFound loc = false ->
  (index loc < n)%nat /\ cell base0 (index loc) = 0.
Proof.
  intros Hlen Hg E Hnf.
  destruct (first_empty_found base n loc E Hnf) as (_ & Hi & H0).
  split; [exact Hi|].
  destruct (Z.eq_dec (cell base0 (index loc)) 0) as [|Hne]; [assumption|].
  rewrite (Hg _ Hi Hne) in H0. contradiction.
Qed.

Lemma solve_top_keeps base0 base current below again s' :
  keeps_givens n base0 (mkSolver base (current :: below)) ->
  solve_top (gen_location n) (gen_candidate scan) base current below = (again, s') ->
  keeps_givens n base0 s'.
Proof.
  intros (Hlen & Hg & Hst) H. cbn [map_base stack] in *.
  pose proof Hst as Hst'.
  apply List.Forall_cons_iff in Hst' as [[Hc Hc0] Hbelow].
  unfold solve_top in H.
  pose proof (gen_candidate_writes scan base current) as W.
  destruct (gen_candidate scan base current) as [val base1].
  cbn [fst snd] in W. unfold getIndex in W. rewrite W in H. clear W base1.
  assert (Hg1 : forall w i, (i < n)%nat -> cell base0 i <> 0 ->
            cell (<[index current := w]> base) i = cell base0 i).
  { intros w i Hi Hnz.
    rewrite cell_insert_ne; [apply Hg; auto | lia | intros ->; contradiction]. }
  destruct (val =? 0).
  - inversion H. unfold keeps_givens, clearValue. cbn [map_base stack].
    rewrite list_insert_insert_eq, length_insert.
    split; [exact Hlen|]. split; [|exact Hbelow]. intros; now apply Hg1.
  - destruct (notFound (gen_location n _)) eqn:Hnf;
      inversion H; unfold keeps_givens; cbn [map_base stack];
      rewrite length_insert; (split; [exact Hlen|]);
      (split; [intros; now apply Hg1|]).
    + exact Hst.
    + constructor; [|exact Hst].
      eapply found_was_empty; [| |reflexivity|exact Hnf].
      * now rewrite length_insert.
      * intros; now apply Hg1.
Qed.

Lemma solve_keeps base0 s again s' :
  keeps_givens n base0 s ->
  solve (gen_location n) (gen_candidate scan) s = (again, s') ->
  keeps_givens n base0 s'.
Proof.
  intros K. unfold solve. destruct s as [base st]. cbn [map_base stack].
  destruct st as [|current below].
  - destruct (notFound (gen_location n base)) eqn:Hnf.
    + intros H. inversion H; subst. exact K.
    + apply solve_top_keeps. destruct K as (Hlen & Hg & _).
      cbn [map_base stack] in *. split; [exact Hlen|]. split; [exact Hg|].
      constructor; [|constructor].
      eapply found_was_empty; eauto.
  - now apply solve_top_keeps.
Qed.

Lemma run_keeps base0 fuel : forall s final,
  keeps_givens n base0 s ->
  run (gen_location n) (gen_candidate scan) fuel s = Some final ->
  keeps_givens n base0 final.
Proof.
  induction fuel as [|fuel IH]; intros s final K H; [discriminate|].
  simpl in H.
  destruct (solve (gen_location n) (gen_candidate scan) s) as [[|] s1] eqn:E.
  - exact (IH _ _ (solve_keeps _ _ _ _ K E) H).
  - inversion H; subst. exact (solve_keeps _ _ _ _ K E).
Qed.

Lemma start_keeps base : length base = n -> keeps_givens n base (mkSolver base []).
Proof. intros H. split; [exact H|]. split; [auto|constructor]. Qed.

End Keeps.

(** X11: when [run] returns, no cell of the map is empty: [solve] gives
    false only after the location functor found nothing.  This holds for any
    map, solvable or not: the 1-D map of any size and the 9x9 2-D map. *)
Theorem run_leaves_no_empty_cell fuel base final :
  (Backtracking1D fuel base = Some final ->
   forall i, (i < length base)%nat -> cell (map_base final) i <> 0)
  /\ (length base = 81%nat ->
      Backtracking2D 9 9 fuel base = Some final ->
      forall i, (i < 81)%nat -> cell (map_base final) i <> 0).
Proof.
  split.
  - intros H. rewrite Backtracking1D_gen in H. exact (run_complete _ _ _ _ _ H).
  - intros _ H. rewrite Backtracking2D_gen in H. exact (run_complete _ _ _ _ _ H).
Qed.

Lemma run_leaves_no_empty_cell_witness :
  (forall i, (i < length [0; 2; 0])%nat ->
     cell (map_base (mkSolver [1; 2; 3]
                       [mkLocation true 2; mkLocation true 0])) i <> 0)
  /\ (exists final,
        Backtracking2D 9 9 13 puzzle_grid = Some final
        /\ forall i, (i < 81)%nat -> cell (map_base final) i <> 0).
Proof.
  split.
  - apply (proj1 (run_leaves_no_empty_cell 2 [0; 2; 0]
                    (mkSolver [1; 2; 3] [mkLocation true 2; mkLocation true 0]))).
    reflexivity.
  - assert (E : exists final, Backtracking2D 9 9 13 puzzle_grid = Some final)
      by (vm_compute; eexists; reflexivity).
    destruct E as [final E]. exists final. split; [exact E|].
    apply (proj2 (run_leaves_no_empty_cell 13 puzzle_grid final)).
    + reflexivity.
    + exact E.
Defined.

(** X12: the search never writes to a cell that was filled at the start:
    when [run] returns, the map has its length and every given cell its
    value, even when the givens break the rules; for the 1-D map of any size
    and the 9x9 2-D map. *)
Theorem run_keeps_given_cells fuel base final :
  (Backtracking1D fuel base = Some final ->
   length (map_base final) = length base
   /\ forall i, cell base i <> 0 -> cell (map_base final) i = cell base i)
  /\ (length base = 81%nat ->
      Backtracking2D 9 9 fuel base = Some final ->
      length (map_base final) = length base
      /\ forall i, cell base i <> 0 -> cell (map_base final) i = cell base i).
Proof.
  assert (Hout : forall i, ~ (i < length base)%nat -> cell base i = 0).
  { intros i Hi. unfold cell. apply nth_overflow. lia. }
  split.
  - intros H. rewrite Backtracking1D_gen in H.
    destruct (run_keeps _ _ base _ _ _ (start_keeps _ base eq_refl) H)
      as (Hlen & Hg & _).
    split; [exact Hlen|]. intros i Hnz.
    destruct (lt_dec i (length base)) as [Hi|Hi]; [now apply Hg|].
    now rewrite Hout in Hnz.
  - intros Hb H. rewrite Backtracking2D_gen in H.
    destruct (run_keeps _ _ base _ _ _ (start_keeps _ base Hb) H)
      as (Hlen & Hg & _).
    split; [congruence|]. intros i Hnz.
    destruct (lt_dec i (length base)) as [Hi|Hi]; [apply Hg; [lia|exact Hnz]|].
    now rewrite Hout in Hnz.
Qed.

Lemma run_keeps_given_cells_witness :
  (length (map_base (mkSolver [1; 2; 3]
                       [mkLocation true 2; mkLocation true 0]))
   = length [0; 2; 0]
   /\ forall i, cell [0; 2; 0] i <> 0 ->
        cell (map_base (mkSolver [1; 2; 3]
                          [mkLocation true 2; mkLocation true 0])) i
        = cell [0; 2; 0] i)
  /\ (exists final,
        Backtracking2D 9 9 13 puzzle_grid = Some final
        /\ length (map_base final) = length puzzle_grid
        /\ forall i, cell puzzle_grid i <> 0 ->
             cell (map_base final) i = cell puzzle_grid i).
Proof.
  split.
  - apply (proj1 (run_keeps_given_cells 2 [0; 2; 0]
                    (mkSolver [1; 2; 3] [mkLocation true 2; mkLocation true 0]))).
    reflexivity.
  - assert (E : exists final, Backtracking2D 9 9 13 puzzle_grid = Some final)
      by (vm_compute; eexists; reflexivity).
    destruct E as [final E]. exists final. split; [exact E|].
    apply (proj2 (run_keeps_given_cells 13 puzzle_grid final)).
    + reflexivity.
    + exact E.
Defined.

Section Sound.

Variable n : nat.
Variable scan : list Z -> nat -> Z -> bool.
Variable sees : nat -> nat -> Prop.

Hypothesis sees_sym : forall i j, sees i j -> sees j i.
Hypothesis scan_spec :
  forall base index val,
    length base = n -> (index < n)%nat ->
    (scan base index val = false <->
     forall j, (j < n)%nat -> sees index j -> cell base j <> val).

Lemma in_range_insert base t w :
  length base = n -> in_range n base -> 0 <= w <= 9 ->
  in_range n (<[t := w]> base).
Proof.
  intros Hb Hr Hw i Hi.
  destruct (lt_dec t n) as [Ht|Ht].
  - rewrite cell_insert by lia. destruct (Nat.eqb i t); [lia | now apply Hr].
  - rewrite list_insert_ge by lia. now apply Hr.
Qed.

Lemma consistent_clear base t :
  length base = n -> consistent n sees base ->
  consistent n sees (<[t := 0]> base).
Proof.
  intros Hb Hc.
  destruct (lt_dec t n) as [Ht|Ht]; [|now rewrite list_insert_ge by lia].
  intros i j Hi Hj Hne Hs Hnz. rewrite !cell_insert in * by lia.
  destruct (Nat.eqb_spec i t) as [->|Hit]; [contradiction|].
  destruct (Nat.eqb_spec j t) as [->|Hjt]; [exact Hnz|].
  now apply Hc.
Qed.

Lemma gen_candidate_legal base loc :
  length base = n -> in_range n base -> consistent n sees base ->
  let r := gen_candidate scan base loc in
  length (snd r) = n /\ in_range n (snd r) /\ consistent n sees (snd r).
Proof.
  intros Hb Hr Hc. unfold gen_candidate, assign.
  set (t := getIndex loc).
  pose proof (val_loop_spec (scan base t) (Z.to_nat (9 - cell base t))
                (cell base t + 1)) as Hloop.
  destruct (val_loop _ _ _) as [w|]; cbn [snd]; rewrite length_insert;
    (split; [exact Hb|]).
  - destruct Hloop as (Hw & Hscan & _).
    destruct (lt_dec t n) as [Ht|Ht].
    + pose proof (Hr t Ht) as Hv. split.
      * apply in_range_insert; auto. lia.
      * apply (consistent_assign n scan sees sees_sym scan_spec); auto.
        now apply consistent_clear.
    + rewrite list_insert_ge by lia. auto.
  - split; [apply in_range_insert; auto; lia | now apply consistent_clear].
Qed.

Lemma solve_top_legal base current below again s' :
  legal_state n sees (mkSolver base (current :: below)) ->
  solve_top (gen_location n) (gen_candidate scan) base current below = (again, s') ->
  legal_state n sees s'.
Proof.
  intros (Hb & Hr & Hc) H. cbn [map_base] in *.
  destruct (gen_candidate_legal base current Hb Hr Hc) as (Hb1 & Hr1 & Hc1).
  unfold solve_top in H.
  destruct (gen_candidate scan base current) as [val base1]. cbn [snd] in *.
  destruct (val =? 0).
  - inversion H. unfold legal_state, clearValue. cbn [map_base].
    rewrite length_insert. split; [exact Hb1|]. split.
    + apply in_range_insert; auto. lia.
    + now apply consistent_clear.
  - destruct (notFound (gen_location n base1)); inversion H;
      unfold legal_state; cbn [map_base]; auto.
Qed.

Lemma solve_legal s again s' :
  legal_state n sees s ->
  solve (gen_location n) (gen_candidate scan) s = (again, s') ->
  legal_state n sees s'.
Proof.
  intros L. unfold solve. destruct s as [base st]. cbn [map_base stack].
  destruct st as [|current below].
  - destruct (notFound (gen_location n base)).
    + intros H. inversion H; subst. exact L.
    + now apply solve_top_legal.
  - now apply solve_top_legal.
Qed.

Lemma run_legal fuel : forall s final,
  legal_state n sees s ->
  run (gen_location n) (gen_candidate scan) fuel s = Some final ->
  legal_state n sees final.
Proof.
  induction fuel as [|fuel IH]; intros s final L H; [discriminate|].
  simpl in H.
  destruct (solve (gen_location n) (gen_candidate scan) s) as [[|] s1] eqn:E.
  - exact (IH _ _ (solve_legal _ _ _ L E) H).
  - inversion H; subst. exact (solve_legal _ _ _ L E).
Qed.

(** Whenever [run] returns on givens that obey the rules, the map is a
    finished puzzle that keeps the givens. *)
Lemma run_sound fuel base final :
  length base = n -> in_range n base -> consistent n sees base ->
  run (gen_location n) (gen_candidate scan) fuel (mkSolver base []) = Some final ->
  valid n sees (map_base final) /\ extends n base (map_base final).
Proof.
  intros Hb Hr Hc H.
  destruct (run_legal fuel (mkSolver base []) final (conj Hb (conj Hr Hc)) H)
    as (Hl & Hr' & Hc').
  destruct (run_keeps n scan base fuel _ _ (start_keeps n base Hb) H)
    as (_ & Hg & _).
  split.
  - apply full_consistent_valid; auto. exact (run_complete n scan fuel _ _ H).
  - exact Hg.
Qed.

End Sound.

(** X13: the solvers never return a wrong answer.  If the given cells hold
    values in 0..9 and no two given cells that see each other hold the same
    value, then whenever [run] returns, with or without the map being known
    to be solvable, the map is a finished puzzle that keeps the givens. *)
Theorem run_result_is_a_solution fuel base final :
  (in_range (length base) base -> consistent (length base) sees1D base ->
   Backtracking1D fuel base = Some final ->
   valid (length base) sees1D (map_base final)
   /\ extends (length base) base (map_base final))
  /\ (length base = 81%nat -> in_range 81 base -> consistent 81 sees2D base ->
      Backtracking2D 9 9 fuel base = Some final ->
      valid 81 sees2D (map_base final)
      /\ extends 81 base (map_base final)).
Proof.
  split.
  - intros Hr Hc H. rewrite Backtracking1D_gen in H.
    exact (run_sound (length base) (fun b _ v => exists1D (length base) b v)
             sees1D sees1D_sym (scan1D_spec (length base))
             fuel base final eq_refl Hr Hc H).
  - intros Hb Hr Hc H. rewrite Backtracking2D_gen in H.
    exact (run_sound 81 (exists2D 9 9) sees2D sees2D_sym scan2D_spec
             fuel base final Hb Hr Hc H).
Qed.

Lemma puzzle_solution :
  valid 81 sees2D solved_grid /\ extends 81 puzzle_grid solved_grid.
Proof.
  split.
  - apply valid2Db_sound. vm_compute. reflexivity.
  - apply (extendsb_sound 81). vm_compute. reflexivity.
Qed.

Lemma three_cells_legal :
  in_range 3 [0; 0; 0] /\ consistent 3 sees1D [0; 0; 0].
Proof.
  split.
  - intros [|[|[|i]]] Hi; unfold cell; simpl; lia.
  - intros i j Hi _ _ _ Hnz. exfalso. apply Hnz.
    destruct i as [|[|[|i]]]; [reflexivity..|lia].
Qed.

Lemma run_result_is_a_solution_witness :
  (valid (length [0; 0; 0]) sees1D
     (map_base (mkSolver [1; 2; 3]
                  [mkLocation true 2; mkLocation true 1; mkLocation true 0]))
   /\ extends (length [0; 0; 0]) [0; 0; 0]
        (map_base (mkSolver [1; 2; 3]
                     [mkLocation true 2; mkLocation true 1; mkLocation true 0])))
  /\ (exists final,
        Backtracking2D 9 9 13 puzzle_grid = Some final
        /\ valid 81 sees2D (map_base final)
        /\ extends 81 puzzle_grid (map_base final)).
Proof.
  split.
  - apply (proj1 (run_result_is_a_solution 3 [0; 0; 0]
                    (mkSolver [1; 2; 3]
                       [mkLocation true 2; mkLocation true 1; mkLocation true 0]))).
    + exact (proj1 three_cells_legal).
    + exact (proj2 three_cells_legal).
    + reflexivity.
  - assert (E : exists final, Backtracking2D 9 9 13 puzzle_grid = Some final)
      by (vm_compute; eexists; reflexivity).
    destruct E as [final E]. exists final. split; [exact E|].
    apply (proj2 (run_result_is_a_solution 13 puzzle_grid final)).
    + reflexivity.
    + exact (extends_in_range 81 sees2D puzzle_grid solved_grid
               (proj1 puzzle_solution) (proj2 puzzle_solution)).
    + exact (extends_consistent 81 sees2D puzzle_grid solved_grid
               (proj1 puzzle_solution) (proj2 puzzle_solution)).
    + exact E.
Defined.

Section Least.

Variable n : nat.
Variable scan : list Z -> nat -> Z -> bool.
Variable sees : nat -> nat -> Prop.

Hypothesis sees_sym : forall i j, sees i j -> sees j i.
Hypothesis scan_spec :
  forall base index val,
    length base = n -> (index < n)%nat ->
    (scan base index val = false <->
     forall j, (j < n)%nat -> sees index j -> cell base j <> val).

(** The search below a location whose earlier cells are all filled: as
    [explore], and a full map reached is the least one in the lexicographic
    order. *)
Lemma explore_least z :
  forall v9 base loc st,
    length base = n -> (getIndex loc < n)%nat ->
    0 <= cell base (getIndex loc) ->
    prefix_full base (getIndex loc) ->
    (zeros_except n base (getIndex loc) <= z)%nat ->
    (Z.to_nat (9 - cell base (getIndex loc)) <= v9)%nat ->
    exists k, (1 <= k)%nat /\
      ((exists final,
          run (gen_location n) (gen_candidate scan) k (mkSolver base (loc :: st))
          = Some final
          /\ good_final n sees base (getIndex loc) (map_base final)
          /\ least_from n sees base (getIndex loc) (map_base final))
       \/ (steps (gen_location n) (gen_candidate scan) k (mkSolver base (loc :: st))
           = Some (mkSolver (<[getIndex loc := 0]> base) st)
           /\ dead_end n sees base (getIndex loc))).
Proof.
  induction z as [z IHz] using lt_wf_ind.
  induction v9 as [v9 IHv] using lt_wf_ind.
  intros base loc st Hb Ht Hv Hpre Hz Hv9.
  set (t := getIndex loc) in *.
  pose proof (val_loop_spec (scan base t) (Z.to_nat (9 - cell base t))
                (cell base t + 1)) as Hloop.
  destruct (val_loop (scan base t) (Z.to_nat (9 - cell base t)) (cell base t + 1))
    as [w|] eqn:Eloop.
  - destruct Hloop as (Hw & Hscan & Hbelow).
    assert (Hw0 : w <> 0) by lia.
    assert (Hw9 : cell base t < w <= 9) by lia.
    pose proof (solve_advance n scan base loc st w Eloop Hw0) as Hsolve.
    fold t in Hsolve. cbv zeta in Hsolve.
    set (base' := <[t := w]> base) in *.
    assert (Hb' : length base' = n) by (unfold base'; now rewrite length_insert).
    assert (Hcons : consistent n sees (<[t := 0]> base) -> consistent n sees base')
      by (intros Hc; now apply (consistent_assign n scan sees sees_sym scan_spec)).
    assert (Hrange : in_range n base -> in_range n base').
    { intros Hr i Hi. unfold base'. rewrite cell_insert by lia.
      destruct (Nat.eqb i t); [lia | now apply Hr]. }
    assert (Hsmall : forall m, valid n sees m -> extends_except n t base m ->
              cell base t < cell m t -> ~ cell m t < w).
    { intros m Hm Hext Hlt Hmw.
      pose proof (solution_legal n scan sees scan_spec m base t Hm Hext Hb Ht Hlt)
        as Hlegal.
      rewrite Hbelow in Hlegal by lia. discriminate. }
    assert (Hpre' : prefix_full base' t).
    { intros j Hj. unfold base'. rewrite cell_insert_ne by lia. now apply Hpre. }
    assert (Hbefore : forall m, extends_except n t base m ->
              forall j, (j < t)%nat -> cell m j = cell base' j).
    { intros m Hext j Hj. unfold base'. rewrite cell_insert_ne by lia.
      apply Hext; [lia | lia | now apply Hpre]. }
    assert (Hlarger : forall m final, extends_except n t base m ->
              cell final t = w -> w < cell m t ->
              (forall j, (j < t)%nat -> cell final j = cell base' j) ->
              lex_le n final m).
    { intros m final Hext Hft Hlt Hpref. right. exists t.
      split; [exact Ht|]. split; [lia|].
      intros j Hj. rewrite (Hbefore m Hext j Hj). now apply Hpref. }
    remember (gen_location n base') as next eqn:Enext.
    destruct (notFound next) eqn:Hnf.
    + (* the map is full *)
      assert (Hfull : complete n base') by (subst next; now apply first_empty_none).
      exists 1%nat. split; [lia|]. left. eexists. split; [|split].
      * simpl. rewrite Hsolve. reflexivity.
      * simpl. split; [exact Hb'|]. split; [exact Hfull|].
        split; [|split; [|split]]; auto.
        -- intros i Hi Hne _. unfold base'. now rewrite cell_insert_ne by lia.
        -- unfold base'. rewrite cell_insert_eq by lia. lia.
      * simpl. intros m Hm Hext Hlt.
        destruct (Z.lt_trichotomy (cell m t) w) as [C|[C|C]].
        -- destruct (Hsmall m Hm Hext Hlt C).
        -- left. intros i Hi. destruct (Nat.eq_dec i t) as [->|Hne].
           ++ unfold base'. rewrite cell_insert_eq by lia. congruence.
           ++ pose proof (Hfull i Hi) as Hnz. unfold base' in *.
              rewrite cell_insert_ne in * by lia. symmetry. now apply Hext.
        -- apply Hlarger; auto. unfold base'. now rewrite cell_insert_eq by lia.
    + (* the next empty cell [u] is pushed *)
      destruct (first_empty_found base' n next (eq_sym Enext) Hnf)
        as (Hnext & Hu & Hu0).
      pose proof (first_empty_least base' n) as Hleast.
      unfold first_empty_spec in Hleast. fold (gen_location n base') in Hleast.
      rewrite <- Enext, Hnf in Hleast. destruct Hleast as (_ & _ & Hpre_u).
      remember (index next) as u eqn:Eu.
      assert (Hgi : getIndex next = u) by (unfold getIndex; congruence).
      assert (Hut : u <> t).
      { intros E. rewrite E in Hu0. unfold base' in Hu0.
        rewrite cell_insert_eq in Hu0 by lia. lia. }
      assert (Hstep : steps (gen_location n) (gen_candidate scan) 1
                        (mkSolver base (loc :: st))
                      = Some (mkSolver base' (next :: loc :: st))).
      { simpl. rewrite Hsolve. reflexivity. }
      assert (Hz' : (zeros_except n base' u < z)%nat).
      { pose proof (zeros_except_push n base t w u ltac:(lia) Hw0 Hu Hu0) as Hp.
        fold base' in Hp. lia. }
      assert (Hkeep : forall m, extends_except n t base m -> cell m t = w ->
                extends_except n u base' m).
      { intros m Hext E i Hi Hne Hnz. unfold base' in *.
        destruct (Nat.eq_dec i t) as [->|Hit].
        - rewrite cell_insert_eq by lia. exact E.
        - rewrite cell_insert_ne in * by lia. now apply Hext. }
      destruct (IHz (zeros_except n base' u) Hz' (Z.to_nat 9) base' next (loc :: st))
        as (k1 & Hk1 & [(final & Hrun & Hgood & Hlst) | (Hback & Hdead)]);
        rewrite ?Hgi, ?Hu0; try assumption; try lia;
        rewrite ?Hgi in *.
      * (* the run ends below [u] *)
        exists (1 + k1)%nat. split; [lia|]. left. exists final.
        destruct Hgood as (Hlen & Hfull & Hext & Hgt & Hr & Hc).
        assert (Hft : cell (map_base final) t = w).
        { rewrite (Hext t Ht ltac:(congruence)); unfold base';
            rewrite cell_insert_eq by lia; [reflexivity | exact Hw0]. }
        split; [|split].
        -- rewrite (run_steps _ _ _ _ _ _ Hstep). exact Hrun.
        -- split; [exact Hlen|]. split; [exact Hfull|].
           split; [|split; [lia|split]].
           ++ intros i Hi Hne Hnz.
              destruct (Nat.eq_dec i u) as [->|Hiu].
              ** unfold base' in Hu0. rewrite cell_insert_ne in Hu0 by lia.
                 congruence.
              ** rewrite (Hext i Hi Hiu); unfold base';
                   rewrite cell_insert_ne by lia; [reflexivity | exact Hnz].
           ++ auto.
           ++ intros Hc0. apply Hc. rewrite <- Hu0.
              rewrite insert_cell_id by lia. auto.
        -- intros m Hm Hextm Hlt.
           destruct (Z.lt_trichotomy (cell m t) w) as [C|[C|C]].
           ++ destruct (Hsmall m Hm Hextm Hlt C).
           ++ apply Hlst; [exact Hm | now apply Hkeep |].
              rewrite Hu0. destruct Hm as (_ & Hrm & _). specialize (Hrm u Hu). lia.
           ++ apply Hlarger; auto. intros j Hj.
              apply Hext; [lia | |now apply Hpre'].
              intros ->. apply (Hpre' u Hj). exact Hu0.
      * (* back on [loc], now holding [w] *)
        rewrite <- Hu0 in Hback. rewrite insert_cell_id in Hback by lia.
        assert (Hnone : forall m, valid n sees m -> extends_except n t base m ->
                  cell m t <> w).
        { intros m Hm Hext E. apply (Hdead m Hm).
          - now apply Hkeep.
          - rewrite Hu0. destruct Hm as (_ & Hr & _). specialize (Hr u Hu). lia. }
        destruct (IHv (Z.to_nat (9 - w))) with
          (base := base') (loc := loc) (st := st)
          as (k2 & Hk2 & [(final & Hrun & Hgood & Hlst) | (Hpop & Hdead2)]);
          try assumption; fold t; unfold base';
          rewrite ?cell_insert_eq, ?zeros_except_insert_same by lia; try lia.
        -- exists (1 + (k1 + k2))%nat. split; [lia|]. left. exists final.
           fold t base' in Hgood, Hlst.
           split; [|split].
           ++ rewrite (run_steps _ _ _ _ _ _ Hstep).
              rewrite (run_steps _ _ _ _ _ _ Hback). exact Hrun.
           ++ destruct Hgood as (Hlen & Hfull & Hext & Hlt & Hr & Hc).
              unfold base' in Hlt. rewrite cell_insert_eq in Hlt by lia.
              split; [exact Hlen|]. split; [exact Hfull|].
              split; [|split; [lia|split]].
              ** eapply extends_except_insert; eauto.
              ** auto.
              ** intros Hc0. apply Hc. unfold base'.
                 now rewrite list_insert_insert_eq.
           ++ intros m Hm Hextm Hlt.
              destruct (Z.lt_trichotomy (cell m t) w) as [C|[C|C]].
              ** destruct (Hsmall m Hm Hextm Hlt C).
              ** destruct (Hnone m Hm Hextm C).
              ** apply Hlst; [exact Hm | |].
                 --- intros i Hi Hne Hnz. unfold base' in *.
                     rewrite cell_insert_ne in * by lia. now apply Hextm.
                 --- unfold base'. rewrite cell_insert_eq by lia. exact C.
        -- exists (1 + (k1 + k2))%nat. split; [lia|]. right. split.
           ++ rewrite (steps_app _ _ _ _ _ _ Hstep).
              rewrite (steps_app _ _ _ _ _ _ Hback).
              fold t base' in Hpop. rewrite Hpop. unfold base'.
              now rewrite list_insert_insert_eq.
           ++ fold t base' in Hdead2. intros m Hm Hext Hlt.
              destruct (Z.lt_trichotomy (cell m t) w) as [C|[C|C]].
              ** exact (Hsmall m Hm Hext Hlt C).
              ** exact (Hnone m Hm Hext C).
              ** apply (Hdead2 m Hm).
                 --- intros i Hi Hne Hnz. unfold base' in *.
                     rewrite cell_insert_ne in * by lia. now apply Hext.
                 --- unfold base'. rewrite cell_insert_eq by lia. exact C.
  - exists 1%nat. split; [lia|]. right. split.
    + simpl. rewrite (solve_exhaust n scan base loc st Eloop). reflexivity.
    + intros m Hm Hext Hlt.
      pose proof (solution_legal n scan sees scan_spec m base t Hm Hext Hb Ht Hlt)
        as Hlegal.
      destruct Hm as (_ & Hr & _). specialize (Hr t Ht).
      rewrite Hloop in Hlegal by lia. discriminate.
Qed.

(** On a solvable map [run] returns the finished puzzle that is first in
    the lexicographic order of the cells. *)
Lemma run_least base :
  length base = n -> solvable n sees base ->
  exists fuel final,
    run (gen_location n) (gen_candidate scan) fuel (mkSolver base []) = Some final
    /\ forall m, valid n sees m -> extends n base m ->
                 lex_le n (map_base final) m.
Proof.
  intros Hb (m0 & Hm0 & Hext0).
  remember (gen_location n base) as loc eqn:Eloc.
  destruct (notFound loc) eqn:Hnf.
  - exists 1%nat, (mkSolver base []). split.
    + simpl. unfold solve. cbn [stack map_base]. now rewrite <- Eloc, Hnf.
    + simpl. intros m Hm Hext. left. intros i Hi. symmetry. apply Hext; auto.
      subst loc. now apply (first_empty_none base n Hnf).
  - destruct (first_empty_found base n loc (eq_sym Eloc) Hnf) as (_ & Ht & Ht0).
    pose proof (first_empty_least base n) as Hleast.
    unfold first_empty_spec in Hleast. fold (gen_location n base) in Hleast.
    rewrite <- Eloc, Hnf in Hleast. destruct Hleast as (_ & _ & Hpre).
    change (index loc) with (getIndex loc) in *.
    destruct (explore_least (zeros_except n base (getIndex loc))
                (Z.to_nat (9 - cell base (getIndex loc))) base loc [])
      as (k & Hk & [(final & Hrun & Hgood & Hlst) | (_ & Hdead)]);
      try assumption; try lia.
    + exists k, final. split.
      * rewrite (run_empty_stack n scan base loc k (eq_sym Eloc) Hnf). exact Hrun.
      * intros m Hm Hext. apply Hlst; [exact Hm| |].
        -- intros i Hi _ Hnz. now apply Hext.
        -- rewrite Ht0. destruct Hm as (_ & Hr & _). specialize (Hr _ Ht). lia.
    + exfalso. apply (Hdead m0 Hm0).
      * intros i Hi _ Hnz. now apply Hext0.
      * rewrite Ht0. destruct Hm0 as (_ & Hr & _). specialize (Hr _ Ht). lia.
Qed.

End Least.

(** X14: when a map has several solutions, the solvers return the one that
    is first in the lexicographic order of the cells (row-major for the 2-D
    map): candidates are tried in increasing order at the first empty
    cell. *)
Theorem backtracking_finds_least_solution base :
  (solvable (length base) sees1D base ->
   exists fuel final,
     Backtracking1D fuel base = Some final
     /\ forall m, valid (length base) sees1D m -> extends (length base) base m ->
                  lex_le (length base) (map_base final) m)
  /\ (length base = 81%nat -> solvable 81 sees2D base ->
      exists fuel final,
        Backtracking2D 9 9 fuel base = Some final
        /\ forall m, valid 81 sees2D m -> extends 81 base m ->
                     lex_le 81 (map_base final) m).
Proof.
  split.
  - intros Hs.
    destruct (run_least (length base) (fun b _ v => exists1D (length base) b v)
                sees1D sees1D_sym (scan1D_spec (length base)) base eq_refl Hs)
      as (fuel & final & Hrun & Hl).
    exists fuel, final. rewrite Backtracking1D_gen. auto.
  - intros Hlen Hs.
    destruct (run_least 81 (exists2D 9 9) sees2D sees2D_sym scan2D_spec
                base Hlen Hs)
      as (fuel & final & Hrun & Hl).
    exists fuel, final. rewrite Backtracking2D_gen. auto.
Qed.

Lemma backtracking_finds_least_solution_witness :
  (exists fuel final,
     Backtracking1D fuel [0; 0; 0] = Some final
     /\ forall m, valid (length [0; 0; 0]) sees1D m ->
                  extends (length [0; 0; 0]) [0; 0; 0] m ->
                  lex_le (length [0; 0; 0]) (map_base final) m)
  /\ (exists fuel final,
        Backtracking2D 9 9 fuel puzzle_grid = Some final
        /\ forall m, valid 81 sees2D m -> extends 81 puzzle_grid m ->
                     lex_le 81 (map_base final) m).
Proof.
  split.
  - exact (proj1 (backtracking_finds_least_solution [0; 0; 0]) three_cells_solvable).
  - exact (proj2 (backtracking_finds_least_solution puzzle_grid) eq_refl
             puzzle_grid_solvable).
Defined.

Section Stack.

Variable n : nat.
Variable scan : list Z -> nat -> Z -> bool.

Lemma prefix_full_insert base t w u :
  (t < length base)%nat -> prefix_full base u -> (w <> 0 \/ (u <= t)%nat) ->
  prefix_full (<[t := w]> base) u.
Proof.
  intros Ht Hp Hw j Hj. rewrite cell_insert by assumption.
  destruct (Nat.eqb_spec j t) as [->|Hne]; [|now apply Hp].
  destruct Hw as [Hw|Hw]; [exact Hw | lia].
Qed.

Lemma solve_top_ordered base current below again s' :
  length base = n -> (index current < n)%nat ->
  stack_ordered (mkSolver base (current :: below)) ->
  solve_top (gen_location n) (gen_candidate scan) base current below = (again, s') ->
  stack_ordered s'.
Proof.
  intros Hlen Hc (Hsorted & Hfull) H. cbn [map_base stack] in *.
  pose proof Hsorted as Hs0. apply StronglySorted_inv in Hs0 as [Hsb Hlt].
  pose proof Hfull as Hf0.
  apply List.Forall_cons_iff in Hf0 as [Hfc Hfb].
  unfold solve_top in H.
  pose proof (gen_candidate_writes scan base current) as W.
  destruct (gen_candidate scan base current) as [val base1].
  cbn [fst snd] in W. unfold getIndex in W. rewrite W in H. clear W base1.
  destruct (val =? 0) eqn:Ev; [|assert (Hval : val <> 0) by now apply Z.eqb_neq].
  - inversion H. unfold stack_ordered, clearValue. cbn [map_base stack].
    rewrite list_insert_insert_eq. split; [exact Hsb|].
    rewrite List.Forall_forall in *. intros l Hl.
    apply prefix_full_insert; [lia | now apply Hfb |].
    right. specialize (Hlt l Hl). simpl in Hlt. lia.
  - assert (Hall : Forall (fun l => prefix_full (<[index current := val]> base)
                                      (index l)) (current :: below)).
    { rewrite List.Forall_forall in *. intros l Hl.
      apply prefix_full_insert; [lia | now apply Hfull | now left]. }
    destruct (notFound (gen_location n _)) eqn:Hnf; inversion H;
      unfold stack_ordered; cbn [map_base stack].
    + split; assumption.
    + pose proof (first_empty_least (<[index current := val]> base) n) as Hl.
      unfold first_empty_spec in Hl.
      fold (gen_location n (<[index current := val]> base)) in Hl.
      rewrite Hnf in Hl. destruct Hl as (Hn & Hn0 & Hpre).
      assert (Hgt : (index current
                     < index (gen_location n (<[index current := val]> base)))%nat).
      { destruct (Nat.lt_trichotomy (index current)
                    (index (gen_location n (<[index current := val]> base))))
          as [C|[C|C]]; [exact C| |].
        - rewrite <- C in Hn0. rewrite cell_insert_eq in Hn0 by lia. contradiction.
        - apply List.Forall_cons_iff in Hall as [Hcur _].
          destruct (Hcur _ C Hn0). }
      split; [|constructor; assumption].
      constructor; [exact Hsorted|].
      constructor; [exact Hgt|].
      rewrite List.Forall_forall in *. intros l Hl. specialize (Hlt l Hl).
      simpl in Hlt. lia.
Qed.

Lemma solve_ordered base0 s again s' :
  keeps_givens n base0 s -> stack_ordered s ->
  solve (gen_location n) (gen_candidate scan) s = (again, s') ->
  stack_ordered s'.
Proof.
  intros (Hlen & _ & Hst) Ho. unfold solve. destruct s as [base st].
  cbn [map_base stack] in *. destruct st as [|current below].
  - destruct (notFound (gen_location n base)) eqn:Hnf.
    + intros H. inversion H; subst. exact Ho.
    + pose proof (first_empty_least base n) as Hl.
      unfold first_empty_spec in Hl. fold (gen_location n base) in Hl.
      rewrite Hnf in Hl. destruct Hl as (Hn & _ & Hpre).
      apply solve_top_ordered; [exact Hlen | exact Hn |].
      split; cbn [map_base stack]; repeat constructor. exact Hpre.
  - apply List.Forall_cons_iff in Hst as [[Hc _] _].
    now apply solve_top_ordered.
Qed.

Lemma steps_ordered base0 k : forall s s',
  keeps_givens n base0 s -> stack_ordered s ->
  steps (gen_location n) (gen_candidate scan) k s = Some s' ->
  keeps_givens n base0 s' /\ stack_ordered s'.
Proof.
  induction k as [|k IH]; intros s s' K O H.
  - inversion H; subst. split; assumption.
  - simpl in H.
    destruct (solve (gen_location n) (gen_candidate scan) s) as [[|] s1] eqn:E;
      [|discriminate].
    apply (IH s1 s'); [eapply solve_keeps | eapply solve_ordered |]; eauto.
Qed.

Lemma sorted_indices_NoDup (l : list Location) :
  StronglySorted (fun a b => (index b < index a)%nat) l ->
  List.NoDup (List.map index l).
Proof.
  induction 1 as [|a l Hs IH Ha]; simpl; constructor; [|exact IH].
  intros Hin. apply in_map_iff in Hin. destruct Hin as (b & E & Hb).
  rewrite List.Forall_forall in Ha. specialize (Ha b Hb). lia.
Qed.

(** In every state that repeated calls of [solve] reach from the start, the
    stack holds cells that were empty at the start, in increasing index
    order from the bottom to the top; so it is never higher than the number
    of empty cells of the initial map. *)
Lemma steps_stack_bound base k s :
  length base = n ->
  steps (gen_location n) (gen_candidate scan) k (mkSolver base []) = Some s ->
  StronglySorted (fun a b => (index b < index a)%nat) (stack s)
  /\ Forall (fun l => In (index l) (empties n base)) (stack s)
  /\ (length (stack s) <= length (empties n base))%nat.
Proof.
  intros Hb H.
  destruct (steps_ordered base k (mkSolver base []) s) as [(_ & _ & Hst) [Hso _]];
    [now apply start_keeps | split; constructor | exact H |].
  assert (Hin : Forall (fun l => In (index l) (empties n base)) (stack s)).
  { rewrite List.Forall_forall in *. intros l Hl.
    destruct (Hst l Hl) as [Hi H0]. unfold empties.
    apply filter_In. split; [apply in_seq; lia | now apply Z.eqb_eq]. }
  split; [exact Hso|]. split; [exact Hin|].
  rewrite <- (length_map index).
  apply List.NoDup_incl_length; [now apply sorted_indices_NoDup|].
  intros i Hi. apply in_map_iff in Hi. destruct Hi as (l & <- & Hl).
  rewrite List.Forall_forall in Hin. now apply Hin.
Qed.

End Stack.

(** X15: the stack of the solver never outgrows the puzzle.  In every state
    reached from the start by calls of [solve], the stack holds distinct
    cells that were empty in the initial map, in increasing index order from
    the bottom to the top; its height is at most the number of cells that
    were empty at the start.  For the 1-D map of any size and the 9x9 2-D
    map. *)
Theorem stack_holds_empty_cells_in_order k base s :
  (steps (NextLocation_Sudoku1D (length base))
         (NextCandidate_Sudoku1D (length base)) k (mkSolver base []) = Some s ->
   StronglySorted (fun a b => (index b < index a)%nat) (stack s)
   /\ Forall (fun l => In (index l) (empties (length base) base)) (stack s)
   /\ (length (stack s) <= length (empties (length base) base))%nat)
  /\ (length base = 81%nat ->
      steps (NextLocation_Sudoku2D 9 9)
            (NextCandidate_Sudoku2D 9 9) k (mkSolver base []) = Some s ->
      StronglySorted (fun a b => (index b < index a)%nat) (stack s)
      /\ Forall (fun l => In (index l) (empties 81 base)) (stack s)
      /\ (length (stack s) <= length (empties 81 base))%nat).
Proof.
  split.
  - intros H.
    exact (steps_stack_bound (length base)
             (fun b _ v => exists1D (length base) b v) base k s eq_refl H).
  - intros Hb H. unfold NextLocation_Sudoku2D in H. rewrite row_major_9_9 in H.
    exact (steps_stack_bound 81 (exists2D 9 9) base k s Hb H).
Qed.

Lemma stack_holds_empty_cells_in_order_witness :
  (StronglySorted (fun a b => (index b < index a)%nat)
     (stack (mkSolver [1; 2; 0] [mkLocation true 2; mkLocation true 0]))
   /\ Forall (fun l => In (index l) (empties (length [0; 2; 0]) [0; 2; 0]))
        (stack (mkSolver [1; 2; 0] [mkLocation true 2; mkLocation true 0]))
   /\ le (length (stack (mkSolver [1; 2; 0] [mkLocation true 2; mkLocation true 0])))
         (length (empties (length [0; 2; 0]) [0; 2; 0])))
  /\ (exists s,
        steps (NextLocation_Sudoku2D 9 9) (NextCandidate_Sudoku2D 9 9) 3
          (mkSolver puzzle_grid []) = Some s
        /\ List.map index (stack s) = [20; 10; 4; 0]%nat
        /\ StronglySorted (fun a b => (index b < index a)%nat) (stack s)
        /\ Forall (fun l => In (index l) (empties 81 puzzle_grid)) (stack s)
        /\ le (length (stack s)) (length (empties 81 puzzle_grid))).
Proof.
  split.
  - apply (proj1 (stack_holds_empty_cells_in_order 1 [0; 2; 0]
                    (mkSolver [1; 2; 0] [mkLocation true 2; mkLocation true 0]))).
    reflexivity.
  - assert (E : exists s,
               steps (NextLocation_Sudoku2D 9 9) (NextCandidate_Sudoku2D 9 9) 3
                 (mkSolver puzzle_grid []) = Some s
               /\ List.map index (stack s) = [20; 10; 4; 0]%nat)
      by (vm_compute; eexists; split; reflexivity).
    destruct E as (s & E & Hs). exists s.
    split; [exact E|]. split; [exact Hs|].
    apply (proj2 (stack_holds_empty_cells_in_order 3 puzzle_grid s)).
    + reflexivity.
    + exact E.
Defined.

Section Step.

Variable n : nat.
Variable scan : list Z -> nat -> Z -> bool.

Lemma solve_top_true_incomplete base current below s' :
  length base = n -> (index current < n)%nat ->
  solve_top (gen_location n) (gen_candidate scan) base current below = (true, s') ->
  exists i, (i < n)%nat /\ cell (map_base s') i = 0.
Proof.
  intros Hlen Hc H. unfold solve_top in H.
  pose proof (gen_candidate_writes scan base current) as W.
  destruct (gen_candidate scan base current) as [val base1].
  cbn [fst snd] in W. unfold getIndex in W. rewrite W in H. clear W base1.
  destruct (val =? 0).
  - inversion H. unfold clearValue. cbn [map_base].
    exists (index current). split; [exact Hc|].
    rewrite cell_insert_eq; [reflexivity|]. rewrite length_insert. lia.
  - destruct (notFound (gen_location n _)) eqn:Hnf; [discriminate|].
    inversion H. cbn [map_base].
    destruct (first_empty_found _ n _ eq_refl Hnf) as (_ & Hi & H0). eauto.
Qed.

Lemma solve_true_incomplete base0 s s' :
  keeps_givens n base0 s ->
  solve (gen_location n) (gen_candidate scan) s = (true, s') ->
  exists i, (i < n)%nat /\ cell (map_base s') i = 0.
Proof.
  intros (Hlen & _ & Hst). unfold solve. destruct s as [base st].
  cbn [map_base stack] in *. destruct st as [|current below].
  - destruct (notFound (gen_location n base)) eqn:Hnf; [discriminate|].
    destruct (first_empty_found base n _ eq_refl Hnf) as (_ & Hi & _).
    now apply solve_top_true_incomplete.
  - apply List.Forall_cons_iff in Hst as [[Hc _] _].
    now apply solve_top_true_incomplete.
Qed.

Lemma solve_false_iff_complete base k s again s' :
  length base = n ->
  steps (gen_location n) (gen_candidate scan) k (mkSolver base []) = Some s ->
  solve (gen_location n) (gen_candidate scan) s = (again, s') ->
  (again = false <-> complete n (map_base s')).
Proof.
  intros Hb Hk H.
  destruct (steps_ordered n scan base k (mkSolver base []) s) as [K _];
    [now apply start_keeps | split; constructor | exact Hk |].
  destruct again.
  - split; [discriminate|]. intros Hfull. exfalso.
    destruct (solve_true_incomplete base s s' K H) as (i & Hi & H0).
    exact (Hfull i Hi H0).
  - split; [|reflexivity]. intros _. exact (solve_false_complete n scan s s' H).
Qed.

End Step.

(** X16: what [solve] returns only tells whether the map is full.  In every
    state reached from the start, [solve] returns false exactly when the map
    it leaves has no empty cell; it returns true also after it has popped the
    last location of the stack, when nothing is left to try.  For the 1-D map
    of any size and the 9x9 2-D map. *)
Theorem solve_false_iff_map_full k base s again s' :
  (steps (NextLocation_Sudoku1D (length base))
         (NextCandidate_Sudoku1D (length base)) k (mkSolver base []) = Some s ->
   solve (NextLocation_Sudoku1D (length base))
         (NextCandidate_Sudoku1D (length base)) s = (again, s') ->
   (again = false <->
    forall i, (i < length base)%nat -> cell (map_base s') i <> 0))
  /\ (length base = 81%nat ->
      steps (NextLocation_Sudoku2D 9 9)
            (NextCandidate_Sudoku2D 9 9) k (mkSolver base []) = Some s ->
      solve (NextLocation_Sudoku2D 9 9)
            (NextCandidate_Sudoku2D 9 9) s = (again, s') ->
      (again = false <->
       forall i, (i < 81)%nat -> cell (map_base s') i <> 0)).
Proof.
  split.
  - intros Hk H.
    exact (solve_false_iff_complete (length base)
             (fun b _ v => exists1D (length base) b v) base k s again s'
             eq_refl Hk H).
  - intros Hb Hk H. unfold NextLocation_Sudoku2D in Hk, H.
    rewrite row_major_9_9 in Hk, H.
    exact (solve_false_iff_complete 81 (exists2D 9 9)
             base k s again s' Hb Hk H).
Qed.

Lemma solve_false_iff_map_full_witness :
  (true = false <->
   forall i, (i < length ten_cells)%nat ->
     cell (map_base (mkSolver ten_cells [])) i <> 0)
  /\ (exists s s',
        steps (NextLocation_Sudoku2D 9 9) (NextCandidate_Sudoku2D 9 9) 12
          (mkSolver puzzle_grid []) = Some s
        /\ solve (NextLocation_Sudoku2D 9 9) (NextCandidate_Sudoku2D 9 9) s
           = (false, s')
        /\ (false = false <->
            forall i, (i < 81)%nat -> cell (map_base s') i <> 0))
  /\ (exists s s',
        steps (NextLocation_Sudoku2D 9 9) (NextCandidate_Sudoku2D 9 9) 0
          (mkSolver stuck_grid []) = Some s
        /\ solve (NextLocation_Sudoku2D 9 9) (NextCandidate_Sudoku2D 9 9) s
           = (true, s')
        /\ (true = false <->
            forall i, (i < 81)%nat -> cell (map_base s') i <> 0)).
Proof.
  split; [|split].
  - apply (proj1 (solve_false_iff_map_full 0 ten_cells
                    (mkSolver ten_cells []) true (mkSolver ten_cells []))).
    + reflexivity.
    + vm_compute. reflexivity.
  - assert (E : exists s s',
               steps (NextLocation_Sudoku2D 9 9) (NextCandidate_Sudoku2D 9 9) 12
                 (mkSolver puzzle_grid []) = Some s
               /\ solve (NextLocation_Sudoku2D 9 9) (NextCandidate_Sudoku2D 9 9) s
                  = (false, s'))
      by (vm_compute; do 2 eexists; split; reflexivity).
    destruct E as (s & s' & E & Es). exists s, s'.
    split; [exact E|]. split; [exact Es|].
    apply (proj2 (solve_false_iff_map_full 12 puzzle_grid s false s')).
    + reflexivity.
    + exact E.
    + exact Es.
  - assert (E : exists s s',
               steps (NextLocation_Sudoku2D 9 9) (NextCandidate_Sudoku2D 9 9) 0
                 (mkSolver stuck_grid []) = Some s
               /\ solve (NextLocation_Sudoku2D 9 9) (NextCandidate_Sudoku2D 9 9) s
                  = (true, s'))
      by (vm_compute; do 2 eexists; split; reflexivity).
    destruct E as (s & s' & E & Es). exists s, s'.
    split; [exact E|]. split; [exact Es|].
    apply (proj2 (solve_false_iff_map_full 0 stuck_grid s true s')).
    + reflexivity.
    + exact E.
    + exact Es.
Defined.

Lemma complete_not_found n base :
  complete n base -> notFound (gen_location n base) = true.
Proof.
  intros Hfull. pose proof (first_empty_least base n) as H.
  unfold first_empty_spec in H. fold (gen_location n base) in H.
  destruct (notFound (gen_location n base)); [reflexivity|].
  destruct H as (Hi & H0 & _). destruct (Hfull _ Hi H0).
Qed.

(** X17: on a map without an empty cell [run] returns from its first call
    of [solve]: the map is left as it is, whether or not it obeys the rules,
    and nothing is pushed on the stack. *)
Theorem full_map_is_returned_untouched fuel width height base :
  ((forall i, (i < length base)%nat -> cell base i <> 0) ->
   Backtracking1D (S fuel) base = Some (mkSolver base []))
  /\ ((forall i, (i < height * width)%nat -> cell base i <> 0) ->
      Backtracking2D width height (S fuel) base = Some (mkSolver base [])).
Proof.
  split; intros Hfull.
  - rewrite Backtracking1D_gen. simpl. unfold solve. cbn [stack map_base].
    now rewrite (complete_not_found _ _ Hfull).
  - rewrite Backtracking2D_gen_any. simpl. unfold solve. cbn [stack map_base].
    now rewrite (complete_not_found _ _ Hfull).
Qed.

Lemma full_map_is_returned_untouched_witness :
  Backtracking1D 1 [5; 5; 7] = Some (mkSolver [5; 5; 7] [])
  /\ Backtracking2D 2 2 1 [1; 2; 3; 4] = Some (mkSolver [1; 2; 3; 4] []).
Proof.
  split.
  - apply (proj1 (full_map_is_returned_untouched 0 2 2 [5; 5; 7])).
    intros [|[|[|i]]] Hi; unfold cell; simpl in *; lia.
  - apply (proj2 (full_map_is_returned_untouched 0 2 2 [1; 2; 3; 4])).
    intros [|[|[|[|i]]]] Hi; unfold cell; simpl in *; lia.
Defined.

(** * Further properties of the game-tree nodes *)

(** X18: a write through the reference that an out-of-range [at] returns
    goes to the one static dummy: [at(i).setSpotIndex(k)] with [i] out of
    range changes no node of any tree, and afterwards every out-of-range
    [at], on any node, refers to an object whose [spotIndex] is [k]. *)
Theorem dummy_write_is_shared h this m i k :
  Store.lookup h this = Some m ->
  ~ (0 <= i < Store.to_int (Z.of_nat (length (Store.o_next m)))) ->
  exists h1 h2,
    Store.at_ h this i = Some (h1, Store.Dummy)
    /\ Store.setSpotIndex h1 Store.Dummy k = Some h2
    /\ Store.dyn h2 = Store.dyn h
    /\ forall this2 m2 i2,
         Store.lookup h2 this2 = Some m2 ->
         ~ (0 <= i2 < Store.to_int (Z.of_nat (length (Store.o_next m2)))) ->
         exists d,
           Store.at_ h2 this2 i2 = Some (h2, Store.Dummy)
           /\ Store.lookup h2 Store.Dummy = Some d
           /\ Store.o_spotIndex d = k.
Proof.
  intros Hm Hi.
  destruct (reach_dummy_lookup h) as [d Hd].
  exists (Store.reach_dummy h).
  exists (Store.update (Store.reach_dummy h) Store.Dummy
            (Store.mkObj (Store.o_grid d) (Store.o_score d) (Store.o_next d)
               (Store.o_bestMove d) k)).
  split; [|split; [|split]].
  - unfold Store.at_. rewrite Hm.
    replace ((0 <=? i) && (i <? Store.to_int (Z.of_nat (length (Store.o_next m)))))
      with false by (symmetry; apply andb_false_iff; lia).
    reflexivity.
  - unfold Store.setSpotIndex. now rewrite Hd.
  - simpl. unfold Store.reach_dummy. destruct (Store.dummy h); reflexivity.
  - intros this2 m2 i2 Hm2 Hi2. eexists. split; [|split].
    + unfold Store.at_. rewrite Hm2.
      replace ((0 <=? i2) && (i2 <? Store.to_int (Z.of_nat (length (Store.o_next m2)))))
        with false by (symmetry; apply andb_false_iff; lia).
      reflexivity.
    + reflexivity.
    + reflexivity.
Qed.

Lemma dummy_write_is_shared_witness :
  exists h1 h2,
    Store.at_ two_nodes (Store.Dyn 0) 7 = Some (h1, Store.Dummy)
    /\ Store.setSpotIndex h1 Store.Dummy 5 = Some h2
    /\ Store.dyn h2 = Store.dyn two_nodes
    /\ forall this2 m2 i2,
         Store.lookup h2 this2 = Some m2 ->
         ~ (0 <= i2 < Store.to_int (Z.of_nat (length (Store.o_next m2)))) ->
         exists d,
           Store.at_ h2 this2 i2 = Some (h2, Store.Dummy)
           /\ Store.lookup h2 Store.Dummy = Some d
           /\ Store.o_spotIndex d = 5.
Proof.
  apply (dummy_write_is_shared two_nodes (Store.Dyn 0)
           (Store.mkObj Grid.empty 0 [Store.Dyn 1] 0 (-1)) 7 5).
  - reflexivity.
  - vm_compute. intros [_ H]. discriminate.
Defined.

(** * Further properties of the tree text *)

Lemma skipws_length b : (length (skipws b) <= length b)%nat.
Proof.
  induction b as [|c b IH]; simpl; [lia|]. destruct (isspace c); simpl; lia.
Qed.

Lemma span_length p b : (length (snd (span p b)) <= length b)%nat.
Proof.
  induction b as [|c b IH]; simpl; [lia|].
  destruct (p c); [|simpl; lia].
  destruct (span p b) as [tok rest]. simpl in *. lia.
Qed.

Lemma read_string_need ins : (need (fst (read_string ins)) <= need ins)%nat.
Proof.
  unfold read_string, need. destruct (fail ins) eqn:F.
  { cbn [fst]. now rewrite F. }
  pose proof (skipws_length (buf ins)) as Hs.
  destruct (skipws (buf ins)) as [|c b] eqn:E; [simpl; lia|].
  pose proof (span_length (fun c => negb (isspace c)) (c :: b)) as Hp.
  destruct (span _ (c :: b)) as [tok rest].
  cbn [fst snd fail buf length] in *. lia.
Qed.

Lemma read_char_need ins ch :
  (need (fst (read_char ins ch)) <= need ins)%nat
  /\ (fail (fst (read_char ins ch)) = false ->
      (need (fst (read_char ins ch)) < need ins)%nat).
Proof.
  unfold read_char, need. destruct (fail ins) eqn:F; simpl.
  - rewrite F. split; [lia | discriminate].
  - pose proof (skipws_length (buf ins)) as Hs.
    destruct (skipws (buf ins)) as [|c b] eqn:E; simpl in *.
    + split; [lia | discriminate].
    + split; intros; lia.
Qed.

Lemma read_char_stream ins ch ch' :
  fst (read_char ins ch) = fst (read_char ins ch').
Proof.
  unfold read_char. destruct (fail ins); [reflexivity|].
  destruct (skipws (buf ins)); reflexivity.
Qed.

Lemma read_int_need ins k :
  (need (fst (read_int ins k)) <= need ins)%nat
  /\ (fail ins = true -> read_int ins k = (ins, k)).
Proof.
  unfold read_int, need. destruct (fail ins) eqn:F.
  { cbn [fst]. rewrite F. split; [lia | reflexivity]. }
  split; [|discriminate].
  pose proof (skipws_length (buf ins)) as Hs.
  destruct (skipws (buf ins)) as [|c b] eqn:E; [simpl; lia|].
  cbn [length] in Hs.
  destruct (Ascii.eqb c "-"); [|destruct (Ascii.eqb c "+")];
    cbv beta iota zeta;
    match goal with
    | |- context [span isdigit ?l] =>
        pose proof (span_length isdigit l) as Hp;
        destruct (span isdigit l) as [ds rest]
    end;
    cbn [snd length] in Hp;
    (destruct (is_nil ds); [cbn [fst fail buf]; lia|]);
    (destruct (_ >? INT_MAX); [cbn [fst fail buf]; lia|]);
    (destruct (_ <? INT_MIN); cbn [fst fail buf]; lia).
Qed.

Lemma read_children_ext (rec1 rec2 : istream -> list ascii -> option (istream * Node)) :
  (forall ins v, rec1 ins v = rec2 ins v) ->
  forall count ins acc,
    read_children rec1 count ins acc = read_children rec2 count ins acc.
Proof.
  intros H. induction count as [|count IH]; intros ins acc; simpl; [reflexivity|].
  rewrite H. destruct (rec2 ins []) as [[ins' child]|]; [apply IH | reflexivity].
Qed.

(** X19: the local [char ch] of [operator>>] is read without a value when
    the extraction of the brace fails; whatever it holds then, the node read
    and the stream left are the same, on every input. *)
Theorem read_Node_ignores_uninitialised_ch (ch0 ch0' : ascii) (fuel : nat) :
  forall ins rhs_value,
    read_Node ch0 fuel ins rhs_value = read_Node ch0' fuel ins rhs_value.
Proof.
  induction fuel as [|fuel IH]; intros ins v; [reflexivity|].
  cbn [read_Node].
  destruct (read_string ins) as [ins1 tok].
  assert (Hfailed : forall c i val, fail i = true ->
    (let '(ins2, ch) := (i, c) in
     if negb (Ascii.eqb ch "{") then Some (ins2, mkNode val [])
     else
       let '(ins3, numChildren) := read_int ins2 0 in
       match read_children (read_Node c fuel) (Z.to_nat numChildren) ins3 [] with
       | None => None
       | Some (ins4, cs) =>
           let '(ins5, _) := read_char ins4 ch in Some (ins5, mkNode val cs)
       end) = Some (i, mkNode val [])).
  { intros c i val F. cbv beta iota zeta.
    destruct (Ascii.eqb c "{"); [|reflexivity]. simpl negb. cbv iota.
    rewrite (proj2 (read_int_need i 0) F). simpl.
    unfold read_char. now rewrite F. }
  unfold read_char at 1 3.
  destruct (fail ins1) eqn:F1.
  - rewrite (Hfailed ch0 ins1 _ F1), (Hfailed ch0' ins1 _ F1). reflexivity.
  - destruct (skipws (buf ins1)) as [|c rest].
    + rewrite (Hfailed ch0 (mkIstream [] true) _ eq_refl).
      rewrite (Hfailed ch0' (mkIstream [] true) _ eq_refl). reflexivity.
    + destruct (negb (Ascii.eqb c "{")); [reflexivity|].
      destruct (read_int _ 0) as [ins3 k].
      rewrite (read_children_ext _ _ (IH) (Z.to_nat k) ins3 []).
      reflexivity.
Qed.

Lemma read_children_total (rec : istream -> list ascii -> option (istream * Node))
    (fuel : nat) :
  (forall ins v, (need ins <= fuel)%nat ->
     exists ins' node, rec ins v = Some (ins', node)
                       /\ (need ins' <= need ins)%nat) ->
  forall count ins acc,
    count = 0%nat \/ (need ins <= fuel)%nat ->
    exists ins' cs, read_children rec count ins acc = Some (ins', cs)
                    /\ (need ins' <= need ins)%nat.
Proof.
  intros Hrec. induction count as [|count IH]; intros ins acc Hc; simpl.
  - eauto.
  - destruct Hc as [Hc|Hc]; [discriminate|].
    destruct (Hrec ins [] Hc) as (ins1 & child & -> & H1).
    destruct (IH ins1 (acc ++ [child]) ltac:(right; lia)) as (ins2 & cs & -> & H2).
    exists ins2, cs. split; [reflexivity | lia].
Qed.

Lemma read_Node_total ch0 fuel : forall ins v,
  (need ins <= fuel)%nat ->
  exists ins' node,
    read_Node ch0 fuel ins v = Some (ins', node)
    /\ (need ins' <= need ins)%nat.
Proof.
  induction fuel as [|fuel IH]; intros ins v Hn.
  - unfold need in Hn. destruct (fail ins); lia.
  - cbn [read_Node].
    pose proof (read_string_need ins) as H1.
    destruct (read_string ins) as [ins1 tok]. cbn [fst] in H1.
    destruct (read_char_need ins1 ch0) as [H2 H2'].
    destruct (read_char ins1 ch0) as [ins2 ch]. cbn [fst] in H2, H2'.
    destruct (negb (Ascii.eqb ch "{")).
    { eexists _, _. split; [reflexivity | lia]. }
    destruct (read_int_need ins2 0) as [H3 H3'].
    destruct (read_int ins2 0) as [ins3 k] eqn:E3. cbn [fst] in H3.
    destruct (read_children_total (read_Node ch0 fuel) fuel IH
                (Z.to_nat k) ins3 []) as (ins4 & cs & -> & H4).
    { destruct (fail ins2) eqn:F2.
      - left. specialize (H3' eq_refl). inversion H3'. reflexivity.
      - right. specialize (H2' eq_refl). lia. }
    destruct (read_char_need ins4 ch) as [H5 _].
    destruct (read_char ins4 ch) as [ins5 ch']. cbn [fst] in H5.
    eexists _, _. split; [reflexivity | lia].
Qed.

Lemma read_children_mono
    (rec1 rec2 : istream -> list ascii -> option (istream * Node)) :
  (forall ins v r, rec1 ins v = Some r -> rec2 ins v = Some r) ->
  forall count ins acc r,
    read_children rec1 count ins acc = Some r ->
    read_children rec2 count ins acc = Some r.
Proof.
  intros H. induction count as [|count IH]; intros ins acc r; simpl; [auto|].
  destruct (rec1 ins []) as [[ins' child]|] eqn:E; [|discriminate].
  rewrite (H _ _ _ E). apply IH.
Qed.

(** Calls that nest no deeper than [fuel] nest no deeper than a larger
    bound, with the same result. *)
Lemma read_Node_more_fuel ch0 fuel : forall k ins v r,
  read_Node ch0 fuel ins v = Some r ->
  read_Node ch0 (fuel + k) ins v = Some r.
Proof.
  induction fuel as [|fuel IH]; intros k ins v r H; [discriminate|].
  cbn [read_Node Nat.add] in *.
  destruct (read_string ins) as [ins1 tok].
  destruct (read_char ins1 ch0) as [ins2 ch].
  destruct (negb (Ascii.eqb ch "{")); [exact H|].
  destruct (read_int ins2 0) as [ins3 count].
  destruct (read_children (read_Node ch0 fuel) (Z.to_nat count) ins3 [])
    as [[ins4 cs]|] eqn:E; [|discriminate].
  rewrite (read_children_mono _ _ (IH k) _ _ _ _ E). exact H.
Qed.

(** X20: the calls of [operator>>] never nest deeper than the length of the
    text plus one, on any text, well formed or not: a nested call is made
    only after a brace and a count have been consumed.  With [fuel] the
    bound on the nesting, that many levels are never used up, and a larger
    bound changes nothing.  The number of children is not bounded this way:
    a count is taken as read, up to INT_MAX, and every [new] is taken to
    succeed. *)
Theorem read_Node_nesting_bounded ch0 text fuel :
  (S (length text) <= fuel)%nat ->
  read_Node ch0 (S (length text)) (mkIstream text false) [] <> None
  /\ read_Node ch0 fuel (mkIstream text false) []
     = read_Node ch0 (S (length text)) (mkIstream text false) [].
Proof.
  intros Hf.
  destruct (read_Node_total ch0 (S (length text)) (mkIstream text false) [])
    as (ins' & node & E & _); [unfold need; simpl; lia|].
  split; [rewrite E; discriminate|].
  rewrite E. replace fuel with (S (length text) + (fuel - S (length text)))%nat
    by lia.
  now apply read_Node_more_fuel.
Qed.

Lemma read_Node_nesting_bounded_witness :
  read_Node "?" (S (length (chars "a {2 b {1 c")))
    (mkIstream (chars "a {2 b {1 c") false) [] <> None
  /\ read_Node "?" 40 (mkIstream (chars "a {2 b {1 c") false) []
     = read_Node "?" (S (length (chars "a {2 b {1 c")))
         (mkIstream (chars "a {2 b {1 c") false) [].
Proof.
  apply (read_Node_nesting_bounded "?" (chars "a {2 b {1 c") 40).
  simpl. lia.
Defined.

(** X21: the text determines the tree: two readable trees with the same
    text are the same tree. *)
Theorem write_Node_injective t1 t2 :
  readable t1 -> readable t2 -> write_Node t1 = write_Node t2 -> t1 = t2.
Proof.
  intros H1 H2 E.
  pose proof (deserialize_written "?" t1 H1) as D1.
  pose proof (deserialize_written "?" t2 H2) as D2.
  rewrite E in D1. congruence.
Qed.

Lemma write_Node_injective_witness : sample_tree = sample_tree.
Proof.
  apply (write_Node_injective sample_tree sample_tree).
  - exact sample_tree_readable.
  - exact sample_tree_readable.
  - reflexivity.
Defined.

(** * Further properties of the tree searches *)

Lemma value_eqb_spec a b : value_eqb a b = true <-> a = b.
Proof.
  unfold value_eqb. destruct (List.list_eq_dec ascii_dec a b); split;
    congruence.
Qed.

Lemma find_app {A} (p : A -> bool) l1 l2 :
  List.find p (l1 ++ l2)
  = match List.find p l1 with Some a => Some a | None => List.find p l2 end.
Proof.
  induction l1 as [|a l1 IH]; simpl; [reflexivity|].
  destruct (p a); [reflexivity | exact IH].
Qed.

Lemma tsize_fsize v cs : tsize (mkNode v cs) = S (fsize cs).
Proof. reflexivity. Qed.

Lemma depth_fdepth v cs : depth (mkNode v cs) = S (fdepth cs).
Proof. reflexivity. Qed.

Lemma fsize_app f1 f2 : fsize (f1 ++ f2) = (fsize f1 + fsize f2)%nat.
Proof.
  unfold fsize. induction f1 as [|t f1 IH]; simpl; [reflexivity|].
  rewrite IH. lia.
Qed.

Lemma fsize_rev f : fsize (rev f) = fsize f.
Proof.
  induction f as [|t f IH]; [reflexivity|].
  cbn [rev]. rewrite fsize_app, IH.
  change (fsize (t :: f)) with (tsize t + fsize f)%nat.
  change (fsize [t]) with (tsize t + 0)%nat. lia.
Qed.

Lemma fsize_kids f : fsize f = (length f + fsize (kids f))%nat.
Proof.
  induction f as [|[v cs] f IH]; [reflexivity|].
  change (fsize (mkNode v cs :: f)) with (S (fsize cs) + fsize f)%nat.
  change (kids (mkNode v cs :: f)) with (cs ++ kids f).
  rewrite fsize_app, IH. simpl. lia.
Qed.

Lemma fdepth_app f1 f2 : fdepth (f1 ++ f2) = Nat.max (fdepth f1) (fdepth f2).
Proof.
  unfold fdepth. induction f1 as [|t f1 IH]; simpl; [reflexivity|].
  rewrite IH. lia.
Qed.

Lemma fdepth_kids f : fdepth (kids f) = Nat.pred (fdepth f).
Proof.
  induction f as [|[v cs] f IH]; [reflexivity|].
  change (kids (mkNode v cs :: f)) with (cs ++ kids f).
  change (fdepth (mkNode v cs :: f)) with (Nat.max (S (fdepth cs)) (fdepth f)).
  rewrite fdepth_app, IH. lia.
Qed.

Lemma fdepth_0 f : fdepth f = 0%nat -> f = [].
Proof.
  destruct f as [|[v cs] f]; [reflexivity|].
  change (fdepth (mkNode v cs :: f)) with (Nat.max (S (fdepth cs)) (fdepth f)).
  lia.
Qed.

(** One sweep of the queue: the nodes of [q] are taken in order, and their
    children are lined up behind [r]. *)
Lemma BFS_loop_sweep lookingfor : forall q r fuel,
  BFS_loop (length q + fuel) (q ++ r) lookingfor
  = match first_with lookingfor q with
    | Some n => Some (Some n)
    | None => BFS_loop fuel (r ++ kids q) lookingfor
    end.
Proof.
  induction q as [|t q IH]; intros r fuel.
  - simpl. now rewrite app_nil_r.
  - cbn [length app Nat.add BFS_loop first_with List.find].
    destruct (value_eqb (value t) lookingfor); [reflexivity|].
    rewrite <- app_assoc, IH.
    change (kids (t :: q)) with (children t ++ kids q).
    unfold first_with. now rewrite <- app_assoc.
Qed.

Lemma BFS_loop_levels lookingfor : forall d f fuel,
  (fdepth f <= d)%nat -> (fsize f <= fuel)%nat ->
  BFS_loop fuel f lookingfor = Some (first_with lookingfor (level_order d f)).
Proof.
  induction d as [|d IH]; intros f fuel Hd Hf.
  - rewrite (fdepth_0 f) by lia. destruct fuel; reflexivity.
  - pose proof (fsize_kids f) as Hk.
    pose proof (BFS_loop_sweep lookingfor f [] (fuel - length f)) as H.
    rewrite app_nil_r in H.
    replace (length f + (fuel - length f))%nat with fuel in H by lia.
    rewrite H. clear H.
    cbn [level_order app]. unfold first_with at 2. rewrite find_app.
    fold (first_with lookingfor f).
    destruct (first_with lookingfor f); [reflexivity|].
    apply IH; [rewrite fdepth_kids; lia | lia].
Qed.

Lemma preorder_rl_eq v cs :
  preorder_rl (mkNode v cs) = mkNode v cs :: flat_map preorder_rl (rev cs).
Proof.
  cbn [preorder_rl]. f_equal.
  induction cs as [|c cs IH]; [reflexivity|].
  cbn [rev]. rewrite flat_map_app, IH. simpl. now rewrite app_nil_r.
Qed.

Lemma DFS_loop_preorder lookingfor : forall fuel s,
  (fsize s <= fuel)%nat ->
  DFS_loop fuel s lookingfor
  = Some (first_with lookingfor (flat_map preorder_rl s)).
Proof.
  induction fuel as [|fuel IH]; intros s Hs.
  - destruct s as [|[v cs] s]; [reflexivity|].
    change (fsize (mkNode v cs :: s)) with (S (fsize cs) + fsize s)%nat in Hs. lia.
  - destruct s as [|[v cs] s]; [reflexivity|].
    change (fsize (mkNode v cs :: s)) with (S (fsize cs) + fsize s)%nat in Hs.
    cbn [DFS_loop flat_map]. rewrite preorder_rl_eq.
    cbn [app first_with List.find value children].
    destruct (value_eqb v lookingfor); [reflexivity|].
    rewrite IH by (rewrite fsize_app, fsize_rev; lia).
    unfold first_with. now rewrite flat_map_app.
Qed.

Lemma fsize_one t : fsize [t] = tsize t.
Proof. unfold fsize. simpl. lia. Qed.

Lemma fdepth_one t : fdepth [t] = depth t.
Proof. unfold fdepth. simpl. lia. Qed.

(** X22: breadth-first search returns, and what it returns is the first
    node in level order (each level from left to right) that holds the
    value, or null when no node holds it. *)
Theorem BFS_first_in_level_order fuel node lookingfor :
  (tsize node <= fuel)%nat ->
  BFS fuel node lookingfor
  = Some (first_with lookingfor (level_order (depth node) [node])).
Proof.
  intros Hf. unfold BFS. apply BFS_loop_levels.
  - rewrite fdepth_one. lia.
  - rewrite fsize_one. lia.
Qed.

Lemma BFS_first_in_level_order_witness :
  BFS 4 sample_tree (chars "b")
  = Some (first_with (chars "b") (level_order (depth sample_tree) [sample_tree])).
Proof.
  apply (BFS_first_in_level_order 4 sample_tree (chars "b")).
  simpl. lia.
Defined.

(** X23: depth-first search returns, and what it returns is the first node
    that holds the value in the preorder that visits the children of a node
    from the last to the first: the children are pushed in order, so the
    last one is popped first. *)
Theorem DFS_first_in_reverse_preorder fuel node lookingfor :
  (tsize node <= fuel)%nat ->
  DFS fuel node lookingfor = Some (first_with lookingfor (preorder_rl node)).
Proof.
  intros Hf. unfold DFS. rewrite DFS_loop_preorder.
  - cbn [flat_map]. now rewrite app_nil_r.
  - rewrite fsize_one. lia.
Qed.

Lemma DFS_first_in_reverse_preorder_witness :
  DFS 4 sample_tree (chars "b")
  = Some (first_with (chars "b") (preorder_rl sample_tree)).
Proof.
  apply (DFS_first_in_reverse_preorder 4 sample_tree (chars "b")).
  simpl. lia.
Defined.

Lemma node_of_inv n t :
  node_of n t <-> n = t \/ exists c, In c (children t) /\ node_of n c.
Proof.
  split.
  - intros H. destruct H as [t|n c t Hc Hn]; [now left | right; eauto].
  - intros [->|(c & Hc & Hn)]; [constructor | econstructor; eauto].
Qed.

Lemma in_preorder_rl n : forall t, In n (preorder_rl t) <-> node_of n t.
Proof.
  induction t as [v cs IH] using Node_ind'.
  rewrite preorder_rl_eq, node_of_inv. cbn [In children].
  rewrite in_flat_map. split.
  - intros [E|(c & Hc & Hn)]; [left; congruence|]. right. exists c.
    apply in_rev in Hc. split; [exact Hc|].
    rewrite List.Forall_forall in IH. now apply IH.
  - intros [E|(c & Hc & Hn)]; [left; congruence|]. right. exists c.
    split; [now apply in_rev in Hc|].
    rewrite List.Forall_forall in IH. now apply IH.
Qed.

Lemma in_level_order n : forall d f,
  (fdepth f <= d)%nat ->
  (In n (level_order d f) <-> exists t, In t f /\ node_of n t).
Proof.
  induction d as [|d IH]; intros f Hd.
  - rewrite (fdepth_0 f) by lia. simpl. firstorder.
  - cbn [level_order]. rewrite in_app_iff, IH by (rewrite fdepth_kids; lia).
    split.
    + intros [H|(c & Hc & Hn)].
      * exists n. split; [exact H | constructor].
      * unfold kids in Hc. apply in_flat_map in Hc. destruct Hc as (t & Ht & Hc).
        exists t. split; [exact Ht | econstructor; eauto].
    + intros (t & Ht & Hn). apply node_of_inv in Hn.
      destruct Hn as [->|(c & Hc & Hn)]; [now left|].
      right. exists c. split; [|exact Hn].
      unfold kids. apply in_flat_map. eauto.
Qed.

Lemma first_with_spec v l :
  match first_with v l with
  | Some n => In n l /\ value n = v
  | None => forall n, In n l -> value n <> v
  end.
Proof.
  unfold first_with. destruct (List.find _ l) as [n|] eqn:F.
  - apply find_some in F. now rewrite value_eqb_spec in F.
  - intros n Hn E. pose proof (find_none _ _ F n Hn) as H.
    apply value_eqb_spec in E. congruence.
Qed.

(** X24: both searches are exhaustive and sound: a node returned is a node
    of the tree and holds the value, and null is returned exactly when no
    node of the tree holds the value; so one search finds a node exactly
    when the other does (not always the same one). *)
Theorem searches_find_iff_present fuel node lookingfor :
  (tsize node <= fuel)%nat ->
  (forall n, BFS fuel node lookingfor = Some (Some n) \/
             DFS fuel node lookingfor = Some (Some n) ->
             node_of n node /\ value n = lookingfor)
  /\ (BFS fuel node lookingfor = Some None <->
      forall n, node_of n node -> value n <> lookingfor)
  /\ (DFS fuel node lookingfor = Some None <->
      forall n, node_of n node -> value n <> lookingfor).
Proof.
  intros Hf. unfold BFS, DFS.
  rewrite (BFS_loop_levels lookingfor (depth node) [node] fuel)
    by (rewrite ?fdepth_one, ?fsize_one; lia).
  rewrite (DFS_loop_preorder lookingfor fuel [node]) by (rewrite fsize_one; lia).
  cbn [flat_map]. rewrite app_nil_r.
  assert (HL : forall n, In n (level_order (depth node) [node]) <-> node_of n node).
  { intros n. rewrite in_level_order by (rewrite fdepth_one; lia).
    split; [intros (t & [<-|[]] & Hn); exact Hn | intros Hn; exists node; simpl; auto]. }
  pose proof (first_with_spec lookingfor (level_order (depth node) [node])) as HB.
  pose proof (first_with_spec lookingfor (preorder_rl node)) as HD.
  split; [|split].
  - intros n [E|E]; inversion E as [E']; rewrite E' in *.
    + destruct HB as [Hin Hv]. split; [now apply HL | exact Hv].
    + destruct HD as [Hin Hv]. split; [now apply in_preorder_rl | exact Hv].
  - destruct (first_with lookingfor (level_order (depth node) [node])) as [m|].
    + split; [discriminate|]. intros H. exfalso.
      destruct HB as [Hin Hv]. apply (H m); [now apply HL | exact Hv].
    + split; [|reflexivity]. intros _ n Hn. apply HB. now apply HL.
  - destruct (first_with lookingfor (preorder_rl node)) as [m|].
    + split; [discriminate|]. intros H. exfalso.
      destruct HD as [Hin Hv]. apply (H m); [now apply in_preorder_rl | exact Hv].
    + split; [|reflexivity]. intros _ n Hn. apply HD. now apply in_preorder_rl.
Qed.

Lemma searches_find_iff_present_witness :
  (forall n, BFS 4 sample_tree (chars "a1") = Some (Some n) \/
             DFS 4 sample_tree (chars "a1") = Some (Some n) ->
             node_of n sample_tree /\ value n = chars "a1")
  /\ (BFS 4 sample_tree (chars "a1") = Some None <->
      forall n, node_of n sample_tree -> value n <> chars "a1")
  /\ (DFS 4 sample_tree (chars "a1") = Some None <->
      forall n, node_of n sample_tree -> value n <> chars "a1").
Proof.
  apply (searches_find_iff_present 4 sample_tree (chars "a1")).
  simpl. lia.
Defined.
